(** * Reconciliation engine of the stacked pull-request tool

    A shallow embedding of the state model of [bl/internal] (state.go,
    state_ql.go), of the classic reader of [github/githubclient] and of the
    merge and update drivers of [spr/spr.go], with the properties the
    specification states about them.

    Go strings are byte sequences: they are modelled by [string], one
    [ascii] per byte.  Go's [int] is modelled by [Z]; where the source adds
    to an [int] the 64-bit wrap-around is written out.  Pointers to
    [github.PullRequest] are addresses into an explicit store, so that two
    commits holding the same pointer see each other's updates. *)

From Stdlib Require Import ZArith List String Ascii Bool Lia DecimalString.
From stdpp Require Import base option list gmap sets strings.

Local Open Scope string_scope.
Local Open Scope Z_scope.

(** ** Data model *)

(** Modelled from the spec: the declaration of [git.Commit] is not among
    the source files.  It is the Commit of the data model (commit_id,
    commit_hash, subject, body, wip), under the field names state.go
    fills in [GenerateCommits]. *)
Module git.

Record Commit := mkCommit {
  CommitID : string;
  CommitHash : string;
  Subject : string;
  Body : string;
  WIP : bool
}.

Definition zero : Commit := mkCommit "" "" "" "" false.

#[global] Instance Commit_eq_dec : EqDecision Commit.
Proof. solve_decision. Defined.

End git.

(** Modelled from the spec: the declarations of package [github] are not
    among the source files.  The merge status has the four flags of the
    data model (checks, one of pass, pending, fail and unknown; approved;
    no_conflicts; stacked) and the pull request its attributes, under the
    field names state.go fills in [GeneratePullRequestMap]. *)
Module github.

Inductive CheckStatus :=
| CheckStatusUnknown
| CheckStatusPending
| CheckStatusPass
| CheckStatusFail.

Record PullRequestMergeStatus := mkMergeStatus {
  ChecksPass : CheckStatus;
  NoConflicts : bool;
  ReviewApproved : bool;
  Stacked : bool
}.

(** The value [github.PullRequestMergeStatus{}].  Its checks flag is taken
    to be unknown; [ComputeMergeStatus] overwrites it for the six states
    the statements below are about. *)
Definition zeroMergeStatus : PullRequestMergeStatus :=
  mkMergeStatus CheckStatusUnknown false false false.

Record PullRequest := mkPullRequest {
  Id : string;
  DatabaseId : string;
  Number : Z;
  FromBranch : string;
  ToBranch : string;
  Title : string;
  Body : string;
  MergeStatus : PullRequestMergeStatus;
  Commit : git.Commit
}.

Definition setChecksPass (c : CheckStatus) (m : PullRequestMergeStatus) :=
  mkMergeStatus c (NoConflicts m) (ReviewApproved m) (Stacked m).

Definition setNoConflicts (b : bool) (m : PullRequestMergeStatus) :=
  mkMergeStatus (ChecksPass m) b (ReviewApproved m) (Stacked m).

Definition setReviewApproved (b : bool) (m : PullRequestMergeStatus) :=
  mkMergeStatus (ChecksPass m) (NoConflicts m) b (Stacked m).

Definition setStacked (b : bool) (m : PullRequestMergeStatus) :=
  mkMergeStatus (ChecksPass m) (NoConflicts m) (ReviewApproved m) b.

Definition setMergeStatus (m : PullRequestMergeStatus) (pr : PullRequest) :=
  mkPullRequest (Id pr) (DatabaseId pr) (Number pr) (FromBranch pr)
    (ToBranch pr) (Title pr) (Body pr) m (Commit pr).

#[global] Instance CheckStatus_eq_dec : EqDecision CheckStatus.
Proof. solve_decision. Defined.

#[global] Instance PullRequestMergeStatus_eq_dec :
  EqDecision PullRequestMergeStatus.
Proof. solve_decision. Defined.

#[global] Instance PullRequest_eq_dec : EqDecision PullRequest.
Proof. solve_decision. Defined.

End github.

(** Modelled from the spec: the generated package [genqlient] is not among
    the source files.  It holds the response types of the batched
    pull-request query.  [StatusState], [MergeableState] and
    [PullRequestReviewDecision] are Go string types (state.go compares a
    state with the empty string), so a response may carry any string; the
    constants are the forge's names SUCCESS, PENDING, EXPECTED, ERROR,
    FAILURE, MERGEABLE and APPROVED. *)
Module genqlient.

Definition StatusStateError := "ERROR".
Definition StatusStateExpected := "EXPECTED".
Definition StatusStateFailure := "FAILURE".
Definition StatusStatePending := "PENDING".
Definition StatusStateSuccess := "SUCCESS".

Definition MergeableStateMergeable := "MERGEABLE".
Definition PullRequestReviewDecisionApproved := "APPROVED".

(** [...NodesPullRequestCommitsPullRequestCommitConnectionNodesPullRequestCommitCommit] *)
Record CommitNode := mkCommitNode {
  Oid : string;
  MessageHeadline : string;
  MessageBody : string
}.

Definition zeroCommitNode := mkCommitNode "" "" "".

(** [StatusCheckRollup] is a struct value, not a pointer: a pull request
    for which the forge reports no rollup decodes to the zero struct,
    whose [State] is the empty string. *)
Record StatusCheckRollup := mkRollup { State : string }.

Record PullRequestNode := mkNode {
  Id : string;
  DatabaseId : Z;
  Number : Z;
  HeadRefName : string;
  BaseRefName : string;
  Title : string;
  Body : string;
  Mergeable : string;
  ReviewDecision : string;
  Rollup : StatusCheckRollup;
  Commits : list CommitNode
}.

Definition withRollupState (s : string) (pr : PullRequestNode) :=
  mkNode (Id pr) (DatabaseId pr) (Number pr) (HeadRefName pr)
    (BaseRefName pr) (Title pr) (Body pr) (Mergeable pr)
    (ReviewDecision pr) (mkRollup s) (Commits pr).

End genqlient.

(** ** Remote graph reader: merge status *)

(** state.go, [ComputeMergeStatus].  The [switch] has no [default]: a state
    outside the six cases leaves [ChecksPass] at its zero value. *)
Definition ComputeMergeStatus (pr : genqlient.PullRequestNode)
  : github.PullRequestMergeStatus :=
  let prms := github.zeroMergeStatus in
  let st := genqlient.State (genqlient.Rollup pr) in
  let prms :=
    if String.eqb st genqlient.StatusStateError then
      github.setChecksPass github.CheckStatusFail prms
    else if String.eqb st genqlient.StatusStateFailure then
      github.setChecksPass github.CheckStatusFail prms
    else if String.eqb st genqlient.StatusStateExpected then
      github.setChecksPass github.CheckStatusPending prms
    else if String.eqb st genqlient.StatusStatePending then
      github.setChecksPass github.CheckStatusPending prms
    else if String.eqb st "" then
      github.setChecksPass github.CheckStatusPass prms
    else if String.eqb st genqlient.StatusStateSuccess then
      github.setChecksPass github.CheckStatusPass prms
    else prms in
  let prms :=
    github.setNoConflicts
      (String.eqb (genqlient.Mergeable pr) genqlient.MergeableStateMergeable)
      prms in
  github.setReviewApproved
    (String.eqb (genqlient.ReviewDecision pr)
       genqlient.PullRequestReviewDecisionApproved)
    prms.

(** github/githubclient/client.go, [matchPullRequestStack]: the check status
    computed for a pull request whose head ref matches, as a function of the
    [StatusCheckRollup.State] of its last commit (lines 181-191). *)
Definition matchPullRequestStack_checkStatus (state : string)
  : github.CheckStatus :=
  let checkStatus := github.CheckStatusPass in
  if negb (String.eqb state "") then
    if String.eqb state "SUCCESS" then github.CheckStatusPass
    else if String.eqb state "PENDING" then github.CheckStatusPending
    else github.CheckStatusFail
  else checkStatus.

(** Modelled from the spec: the generated package [fezzik_types] of the
    second query client is not among the source files; its state constants
    are the forge's names.  There the rollup of a commit is a pointer and
    may be nil. *)
Module fezzik_types.

Definition StatusState_SUCCESS := "SUCCESS".
Definition StatusState_PENDING := "PENDING".
Definition StatusState_ERROR := "ERROR".
Definition StatusState_FAILURE := "FAILURE".

(** A commit node, reduced to its [Commit.StatusCheckRollup]: [None] is
    the nil pointer, [Some s] a rollup whose [State] is [s]. *)
Definition CommitsNode := option string.

End fezzik_types.

(** state_ql.go, [ComputeCheckStatus]; writes [prms.ChecksPass]. *)
Definition ComputeCheckStatus (prCommitsNodes : list fezzik_types.CommitsNode)
    (prms : github.PullRequestMergeStatus) : github.PullRequestMergeStatus :=
  match prCommitsNodes with
  | Some st :: _ =>
      if String.eqb st fezzik_types.StatusState_SUCCESS then
        github.setChecksPass github.CheckStatusPass prms
      else if String.eqb st fezzik_types.StatusState_PENDING then
        github.setChecksPass github.CheckStatusPending prms
      else if String.eqb st fezzik_types.StatusState_ERROR
              || String.eqb st fezzik_types.StatusState_FAILURE then
        github.setChecksPass github.CheckStatusFail prms
      else github.setChecksPass github.CheckStatusUnknown prms
  | _ => github.setChecksPass github.CheckStatusUnknown prms
  end.

(** ** Go strings *)

Definition len (s : string) : Z := Z.of_nat (String.length s).

Definition byte_of (c : ascii) : Z := Z.of_N (N_of_ascii c).

Definition char_of (b : Z) : ascii := ascii_of_N (Z.to_N b).

(** [strings.Split(s, sep)] for a one-byte separator: the segments between
    the separators, always at least one (the whole of [s] when it holds no
    separator, the empty segment for the empty string). *)
Fixpoint strings_Split (s : string) (sep : ascii) : list string :=
  match s with
  | EmptyString => [EmptyString]
  | String c rest =>
      if Ascii.eqb c sep then EmptyString :: strings_Split rest sep
      else match strings_Split rest sep with
           | seg :: segs => String c seg :: segs
           | [] => [String c EmptyString]
           end
  end.

(** [strings.SplitN(s, sep, 2)]: the part before the first separator, and
    the part after it when there is one. *)
Fixpoint strings_SplitN2 (s : string) (sep : ascii) : list string :=
  match s with
  | EmptyString => [EmptyString]
  | String c rest =>
      if Ascii.eqb c sep then [EmptyString; rest]
      else match strings_SplitN2 rest sep with
           | seg :: segs => String c seg :: segs
           | [] => [String c EmptyString]
           end
  end.

Definition strings_HasPrefix (s pre : string) : bool := String.prefix pre s.

Fixpoint strings_Repeat (s : string) (count : nat) : string :=
  match count with
  | O => EmptyString
  | S n => s ++ strings_Repeat s n
  end.

Definition slash : ascii := "/"%char.
Definition newline : ascii := "010"%char.

(** ** Branch names and the pull-request map *)

(** state.go, [CommitIdFromBranch]. *)
Definition CommitIdFromBranch (branchName : string) : string :=
  let segments := strings_Split branchName slash in
  match segments with
  | [s0; _; s2] =>
      if negb (String.eqb s0 "spr") then ""
      else
        let commitId := s2 in
        if negb (len commitId =? 8) then "" else commitId
  | _ => ""
  end.

(** [IsWIP]: the message starts with "WIP" or with "[WIP]". *)
Definition IsWIP (msg : string) : bool :=
  strings_HasPrefix msg "WIP" || strings_HasPrefix msg "[WIP]".

(** A pointer to a [github.PullRequest] is an address of the store; the
    store grows at its end, so a fresh object gets the address
    [length h]. *)
Definition ptr := nat.
Abbreviation heap := (list github.PullRequest).

(** [fmt.Sprintf("%d", n)]. *)
Definition fmt_d (n : Z) : string := NilZero.string_of_int (Z.to_int n).

(** One iteration of the loop of [GeneratePullRequestMap]: a node whose
    head ref yields no commit-id is skipped; otherwise a pull request is
    allocated and stored under the commit-id, replacing an earlier one. *)
Definition GeneratePullRequestMap_node
    (acc : heap * gmap string ptr) (prNode : genqlient.PullRequestNode)
  : heap * gmap string ptr :=
  let '(h, prMap) := acc in
  let commitID := CommitIdFromBranch (genqlient.HeadRefName prNode) in
  if String.eqb commitID "" then acc
  else
    let commit :=
      match genqlient.Commits prNode with
      | c :: _ => c
      | [] => genqlient.zeroCommitNode
      end in
    let ghpr :=
      github.mkPullRequest
        (genqlient.Id prNode)
        (fmt_d (genqlient.DatabaseId prNode))
        (genqlient.Number prNode)
        (genqlient.HeadRefName prNode)
        (genqlient.BaseRefName prNode)
        (genqlient.Title prNode)
        (genqlient.Body prNode)
        (ComputeMergeStatus prNode)
        (git.mkCommit commitID (genqlient.Oid commit)
           (genqlient.MessageHeadline commit) (genqlient.MessageBody commit)
           (IsWIP (genqlient.MessageHeadline commit))) in
    ((h ++ [ghpr])%list, <[commitID := List.length h]> prMap).

(** state.go, [GeneratePullRequestMap].  The argument is
    [prAndStatus.Viewer.PullRequests.Nodes]; a nil response or a nil slice
    is the empty list, for which the loop yields the same empty map as the
    early return. *)
Definition GeneratePullRequestMap (h : heap)
    (nodes : list genqlient.PullRequestNode) : heap * gmap string ptr :=
  fold_left GeneratePullRequestMap_node nodes (h, ∅).

(** ** Local graph reader *)

(** Package [object] of go-git, reduced to what state.go reads. *)
Module object.

Record Commit := mkCommit {
  Hash : string;
  Message : string;
  ParentHashes : list string
}.

End object.

Definition is_lower_hex (c : ascii) : bool :=
  let b := byte_of c in
  ((48 <=? b) && (b <=? 57)) || ((97 <=? b) && (b <=? 102)).

Fixpoint all_chars (p : ascii -> bool) (s : string) : bool :=
  match s with
  | EmptyString => true
  | String c rest => p c && all_chars p rest
  end.

(** The identifier of a line matching [^commit-id\:([a-f0-9]{8})$]. *)
Definition commitIDRegex_line (line : string) : option string :=
  if strings_HasPrefix line "commit-id:" then
    let id := String.substring 10 (String.length line - 10) line in
    if (len id =? 8) && all_chars is_lower_hex id then Some id else None
  else None.

(** [CommitId]: the first submatch of [(?m)^commit-id\:([a-f0-9]{8})$], that
    is the identifier of the first line that is exactly such a trailer. *)
Definition CommitId (msg : string) : string :=
  match list_find (fun l => is_Some (commitIDRegex_line l))
          (strings_Split msg newline) with
  | Some (_, line) => default "" (commitIDRegex_line line)
  | None => ""
  end.

Definition Subject (msg : string) : string :=
  match strings_SplitN2 msg newline with
  | s :: _ => s
  | [] => ""
  end.

Definition Body (msg : string) : string :=
  match strings_SplitN2 msg newline with
  | [_; b] => b
  | _ => ""
  end.

(** [HeadFirst]: the commits are kept when there are fewer than two or when
    the second is a parent of the first, and reversed otherwise. *)
Definition HeadFirst (commits : list object.Commit) : list object.Commit :=
  match commits with
  | c0 :: c1 :: _ =>
      if existsb (String.eqb (object.Hash c1)) (object.ParentHashes c0)
      then commits else rev commits
  | _ => commits
  end.

(** ** Runes *)

(** Package [unicode/utf8].  A rune is its code point; decoding follows the
    library's table of first bytes: an ASCII byte, an invalid byte, or a
    lead byte with the size of its sequence and the range accepted for the
    second byte. *)
Module utf8.

Definition RuneError : Z := 65533.
Definition MaxRune : Z := 1114111.

Inductive firstInfo :=
| ASCII
| Invalid
| Lead (size : nat) (lo hi : Z).

Definition first (s0 : Z) : firstInfo :=
  if s0 <? 128 then ASCII
  else if s0 <? 194 then Invalid
  else if s0 <? 224 then Lead 2 128 191
  else if s0 =? 224 then Lead 3 160 191
  else if s0 =? 237 then Lead 3 128 159
  else if s0 <? 240 then Lead 3 128 191
  else if s0 =? 240 then Lead 4 144 191
  else if s0 <? 244 then Lead 4 128 191
  else if s0 =? 244 then Lead 4 128 143
  else Invalid.

Definition within (lo hi b : Z) : bool := (lo <=? b) && (b <=? hi).

(** [DecodeRuneInString]: the first rune of [s] and its width in bytes;
    an invalid or truncated sequence is [RuneError] of width 1. *)
Definition DecodeRuneInString (s : string) : Z * nat :=
  match s with
  | EmptyString => (RuneError, 0%nat)
  | String c0 r0 =>
      let s0 := byte_of c0 in
      match first s0 with
      | ASCII => (s0, 1%nat)
      | Invalid => (RuneError, 1%nat)
      | Lead sz lo hi =>
          match r0 with
          | EmptyString => (RuneError, 1%nat)
          | String c1 r1 =>
              let s1 := byte_of c1 in
              if (String.length s <? sz)%nat then (RuneError, 1%nat)
              else if negb (within lo hi s1) then (RuneError, 1%nat)
              else if (sz <=? 2)%nat then
                (Z.lor (Z.shiftl (Z.land s0 31) 6) (Z.land s1 63), 2%nat)
              else
                match r1 with
                | EmptyString => (RuneError, 1%nat)
                | String c2 r2 =>
                    let s2 := byte_of c2 in
                    if negb (within 128 191 s2) then (RuneError, 1%nat)
                    else if (sz <=? 3)%nat then
                      (Z.lor (Z.shiftl (Z.land s0 15) 12)
                         (Z.lor (Z.shiftl (Z.land s1 63) 6) (Z.land s2 63)),
                       3%nat)
                    else
                      match r2 with
                      | EmptyString => (RuneError, 1%nat)
                      | String c3 _ =>
                          let s3 := byte_of c3 in
                          if negb (within 128 191 s3) then (RuneError, 1%nat)
                          else
                            (Z.lor (Z.shiftl (Z.land s0 7) 18)
                               (Z.lor (Z.shiftl (Z.land s1 63) 12)
                                  (Z.lor (Z.shiftl (Z.land s2 63) 6)
                                     (Z.land s3 63))),
                             4%nat)
                      end
                end
          end
      end
  end.

Definition bytes (bs : list Z) : string :=
  fold_right (fun b s => String (char_of b) s) EmptyString bs.

Definition encode3 (r : Z) : string :=
  bytes [Z.lor 224 (Z.shiftr r 12);
         Z.lor 128 (Z.land (Z.shiftr r 6) 63);
         Z.lor 128 (Z.land r 63)].

(** The conversion [string(r)]: the UTF-8 encoding of [r], that of
    [RuneError] for a surrogate or a value out of range. *)
Definition EncodeRune (r : Z) : string :=
  if (0 <=? r) && (r <=? 127) then bytes [r]
  else if (0 <=? r) && (r <=? 2047) then
    bytes [Z.lor 192 (Z.shiftr r 6); Z.lor 128 (Z.land r 63)]
  else if (r <? 0) || (MaxRune <? r) || within 55296 57343 r then
    encode3 RuneError
  else if r <=? 65535 then encode3 r
  else
    bytes [Z.lor 240 (Z.shiftr r 18);
           Z.lor 128 (Z.land (Z.shiftr r 12) 63);
           Z.lor 128 (Z.land (Z.shiftr r 6) 63);
           Z.lor 128 (Z.land r 63)].

(** The runes a [for _, r := range s] loop visits: a rune is decoded at
    the current byte and the remaining bytes of its sequence are
    skipped. *)
Fixpoint runes_from (skip : nat) (s : string) : list Z :=
  match s with
  | EmptyString => []
  | String _ rest =>
      match skip with
      | S k => runes_from k rest
      | O =>
          let '(r, size) := DecodeRuneInString s in
          r :: runes_from (Nat.pred size) rest
      end
  end.

Definition runes (s : string) : list Z := runes_from 0 s.

Definition RuneCountInString (s : string) : Z :=
  Z.of_nat (List.length (runes s)).

End utf8.

(** ** Status renderer *)

(** Go's [int] is 64 bits wide: an addition or a subtraction wraps
    around. *)
Definition wrap64 (z : Z) : Z := (z + 2 ^ 63) mod 2 ^ 64 - 2 ^ 63.

(** state.go, [padNumber]: pads with spaces up to [pad] bytes.  The
    padding is computed in [int], so the subtraction wraps around; it
    does so only for a [pad] below the smallest [int] plus the length,
    and the code passes the pads 50 and 5. *)
Definition padNumber (pad : Z) (s : string) : string :=
  let padding := wrap64 (pad - len s) in
  if 0 <? padding then s ++ strings_Repeat " " (Z.to_nat padding) else s.

(** The truncation loop of [FormatSubject]: appends the runes one by one and
    leaves the loop when [count] reaches [maxLength]. *)
Fixpoint FormatSubject_loop (maxLength : Z) (rs : list Z)
    (truncated : string) (count : Z) : string :=
  match rs with
  | [] => truncated
  | r :: rest =>
      let truncated := truncated ++ utf8.EncodeRune r in
      let count := count + 1 in
      if count =? maxLength then truncated
      else FormatSubject_loop maxLength rest truncated count
  end.

(** state.go, [FormatSubject]. *)
Definition FormatSubject (subject : string) : string :=
  let length := 50 in
  let runeCount := utf8.RuneCountInString subject in
  if runeCount <=? length then padNumber length subject
  else
    let maxLength := 46 in
    let truncated := FormatSubject_loop maxLength (utf8.runes subject) "" 0 in
    truncated ++ " ...".

(** ** Configuration and persisted state *)

(** Modelled from the spec: package [config] is not among the source
    files.  It is reduced to the fields the state model and the drivers
    read.  [State] is the persisted per-user file: per repository the map
    from commit-id to PR-set index, and per repository key the commit hash
    of the last passing merge check. *)
Module config.

Record RepoConfig := mkRepoConfig {
  GitHubRepoOwner : string;
  GitHubRepoName : string;
  GitHubRemote : string;
  GitHubBranch : string;
  RequireChecks : bool;
  RequireApproval : bool;
  MergeCheck : string
}.

Record InternalState := mkInternalState {
  RepoToCommitIdToPRSet : gmap string (gmap string Z);
  MergeCheckCommit : gmap string string
}.

Record Config := mkConfig {
  Repo : RepoConfig;
  State : InternalState
}.

(** [config.State.RepoToCommitIdToPRSet[repo] = m] *)
Definition setPRSetMap (repo : string) (m : gmap string Z) (c : Config)
  : Config :=
  mkConfig (Repo c)
    (mkInternalState (<[repo := m]> (RepoToCommitIdToPRSet (State c)))
       (MergeCheckCommit (State c))).

End config.

(** Modelled from the spec: package [maputils] is not among the source
    files.  Its garbage-collecting map wraps a map and records which keys
    were looked up; purging keeps the entries that were looked up ("drop
    keys no longer present locally"), and the unaccessed entries are the
    others ("PRs whose key is not present in any LocalCommit"). *)
Module maputils.
Section GC.

Context {K : Type} `{Countable K} {V : Type}.

Record GC := mkGC {
  data : gmap K V;
  accessed : gset K
}.

Definition NewGC (m : gmap K V) : GC := mkGC m ∅.

Definition Lookup (gc : GC) (key : K) : GC * option V :=
  (mkGC (data gc) ({[key]} ∪ accessed gc), data gc !! key).

Definition PurgeUnaccessed (gc : GC) : gmap K V :=
  filter (fun kv => kv.1 ∈ accessed gc) (data gc).

Definition GetUnaccessed (gc : GC) : gmap K V :=
  filter (fun kv => kv.1 ∉ accessed gc) (data gc).

End GC.
Arguments GC K {_ _} V.
End maputils.

(** ** State *)

(** state.go, [LocalCommit].  The embedded [git.Commit] is the field
    [Commit]; a nil [PullRequest] or [PRIndex] is [None]. *)
Record LocalCommit := mkLocalCommit {
  Commit : git.Commit;
  PullRequest : option ptr;
  Index : Z;
  PRIndex : option Z
}.

Definition setPullRequest (p : option ptr) (cm : LocalCommit) : LocalCommit :=
  mkLocalCommit (Commit cm) p (Index cm) (PRIndex cm).

Definition setPRIndex (k : option Z) (cm : LocalCommit) : LocalCommit :=
  mkLocalCommit (Commit cm) (PullRequest cm) (Index cm) k.

Record Indices := mkIndices {
  DestinationPRIndex : option Z;
  CommitIndexes : gset Z
}.

(** state.go, [State].  [OrphanedPRs] is a set of pointers and may hold the
    nil pointer. *)
Record State := mkState {
  RepositoryId : string;
  LocalCommits : list LocalCommit;
  OrphanedPRs : gset (option ptr);
  MutatedPRSets : gset Z
}.

(** [GenerateCommits]: head first, the index counting down to 0 at the
    oldest commit. *)
Definition GenerateCommits (commits : list object.Commit) : list LocalCommit :=
  let commits := HeadFirst commits in
  imap (fun i cm =>
          let msg := object.Message cm in
          mkLocalCommit
            (git.mkCommit (CommitId msg) (object.Hash cm) (Subject msg)
               (Body msg) (IsWIP msg))
            None
            (Z.of_nat (List.length commits) - (Z.of_nat i + 1))
            None)
       commits.

(** [GetOrphanedPRs]: the pull requests of the map that no local commit
    looks up. *)
Definition GetOrphanedPRs (gitCommits : list LocalCommit)
    (prMap : gmap string ptr) : gset (option ptr) :=
  let prGCMap :=
    fold_left
      (fun gc gitCommit =>
         (maputils.Lookup gc (git.CommitID (Commit gitCommit))).1)
      gitCommits (maputils.NewGC prMap) in
  list_to_set
    ((fun kv : string * ptr => Some kv.2)
       <$> map_to_list (maputils.GetUnaccessed prGCMap)).

Definition repoPRSetMap (cfg : config.Config) : gmap string Z :=
  default ∅
    (config.RepoToCommitIdToPRSet (config.State cfg)
       !! config.GitHubRepoName (config.Repo cfg)).

(** The loop of [UpdateRepoToCommitIdToPrSet]: the commit-id of a commit
    is looked up when the commit has a pull request. *)
Definition UpdateRepoToCommitIdToPrSet_loop (prMap : gmap string ptr)
    (gitCommits : list LocalCommit) (purgeMap : maputils.GC string Z)
  : maputils.GC string Z :=
  fold_left
    (fun gc gitCommit =>
       match prMap !! git.CommitID (Commit gitCommit) with
       | Some _ => (maputils.Lookup gc (git.CommitID (Commit gitCommit))).1
       | None => gc
       end)
    gitCommits purgeMap.

(** state.go, [UpdateRepoToCommitIdToPrSet]: the persisted map of the
    repository is replaced by its entries that were looked up. *)
Definition UpdateRepoToCommitIdToPrSet (cfg : config.Config)
    (gitCommits : list LocalCommit) (prMap : gmap string ptr)
  : config.Config :=
  let prSetMap := repoPRSetMap cfg in
  let purgeMap :=
    UpdateRepoToCommitIdToPrSet_loop prMap gitCommits
      (maputils.NewGC prSetMap) in
  config.setPRSetMap (config.GitHubRepoName (config.Repo cfg))
    (maputils.PurgeUnaccessed purgeMap) cfg.

(** [AssignPullRequests]. *)
Definition AssignPullRequests (cfg : config.Config)
    (gitCommits : list LocalCommit) (prMap : gmap string ptr)
  : list LocalCommit :=
  let prSetMap := repoPRSetMap cfg in
  (fun gitCommit =>
     match prMap !! git.CommitID (Commit gitCommit) with
     | Some pr =>
         let gitCommit :=
           match prSetMap !! git.CommitID (Commit gitCommit) with
           | Some prIndex => setPRIndex (Some prIndex) gitCommit
           | None => gitCommit
           end in
         setPullRequest (Some pr) gitCommit
     | None => gitCommit
     end) <$> gitCommits.

(** [cm.PullRequest.MergeStatus.Stacked = true] *)
Definition markStacked (pr : github.PullRequest) : github.PullRequest :=
  github.setMergeStatus (github.setStacked true (github.MergeStatus pr)) pr.

(** The gating tests of [SetStackedCheck] on one commit and its pull
    request: [false] where the source returns. *)
Definition SetStackedCheck_passes (cfg : config.Config) (cm : LocalCommit)
    (pr : github.PullRequest) : bool :=
  if git.WIP (Commit cm) then false
  else if negb (github.NoConflicts (github.MergeStatus pr)) then false
  else if config.RequireChecks (config.Repo cfg)
          && negb (bool_decide (github.ChecksPass (github.MergeStatus pr)
                                = github.CheckStatusPass)) then false
  else if config.RequireApproval (config.Repo cfg)
          && negb (github.ReviewApproved (github.MergeStatus pr)) then false
  else true.

(** The loop of [SetStackedCheck] over the commits from the last index down
    to 0: a commit without a pull request is skipped, the first commit that
    fails a test ends the function, a commit that passes has the [Stacked]
    bit of its pull request set.  (A pointer of the source always points to
    an object; an address outside the store ends the loop.) *)
Fixpoint SetStackedCheck_loop (cfg : config.Config) (h : heap)
    (commits : list LocalCommit) : heap :=
  match commits with
  | [] => h
  | cm :: rest =>
      match PullRequest cm with
      | None => SetStackedCheck_loop cfg h rest
      | Some p =>
          match h !! p with
          | None => h
          | Some pr =>
              if SetStackedCheck_passes cfg cm pr then
                SetStackedCheck_loop cfg (<[p := markStacked pr]> h) rest
              else h
          end
      end
  end.

(** state.go, [SetStackedCheck]. *)
Definition SetStackedCheck (cfg : config.Config) (h : heap)
    (gitCommits : list LocalCommit) : heap :=
  SetStackedCheck_loop cfg h (rev gitCommits).

(** The first loop of [NewState]: every commit gets the pull request stored
    under its commit-id, or nil. *)
Definition NewState_attach (prMap : gmap string ptr)
    (gitCommits : list LocalCommit) : list LocalCommit :=
  (fun gitCommit =>
     setPullRequest (prMap !! git.CommitID (Commit gitCommit)) gitCommit)
    <$> gitCommits.

(** state.go, [NewState]: the state, the configuration with its persisted
    map collected, and the store of the pull requests. *)
Definition NewState (cfg : config.Config) (repositoryId : string)
    (nodes : list genqlient.PullRequestNode) (commits : list object.Commit)
  : State * config.Config * heap :=
  let '(h, prMap) := GeneratePullRequestMap [] nodes in
  let gitCommits := GenerateCommits commits in
  let gitCommits := NewState_attach prMap gitCommits in
  let orphanedPRs := GetOrphanedPRs gitCommits prMap in
  let cfg := UpdateRepoToCommitIdToPrSet cfg gitCommits prMap in
  let gitCommits := AssignPullRequests cfg gitCommits prMap in
  let h := SetStackedCheck cfg h gitCommits in
  (mkState repositoryId gitCommits orphanedPRs ∅, cfg, h).

(** ** Reconciler: applying a selection *)

(** The first loop of [ApplyIndices]: the next free PR-set index. *)
Definition ApplyIndices_next (commits : list LocalCommit) : Z :=
  fold_left
    (fun nextDestinationPRIndex cm =>
       match PRIndex cm with
       | Some k =>
           if nextDestinationPRIndex <=? k then wrap64 (k + 1)
           else nextDestinationPRIndex
       | None => nextDestinationPRIndex
       end)
    commits 0.

(** The second loop of [ApplyIndices], threading the orphaned pull requests
    and the mutated PR sets through the commits. *)
Fixpoint ApplyIndices_loop (dest : Z) (commitIndexes : gset Z)
    (commits : list LocalCommit) (orphaned : gset (option ptr))
    (mutated : gset Z)
  : list LocalCommit * gset (option ptr) * gset Z :=
  match commits with
  | [] => ([], orphaned, mutated)
  | cm :: rest =>
      let shouldBeInPrSet := bool_decide (Index cm ∈ commitIndexes) in
      let isInPrSet :=
        match PRIndex cm with
        | Some k => k =? dest
        | None => false
        end in
      if isInPrSet && shouldBeInPrSet then
        let '(rest', o, m) :=
          ApplyIndices_loop dest commitIndexes rest orphaned mutated in
        (cm :: rest', o, m)
      else if negb isInPrSet && negb shouldBeInPrSet then
        let '(rest', o, m) :=
          ApplyIndices_loop dest commitIndexes rest orphaned mutated in
        (cm :: rest', o, m)
      else if isInPrSet && negb shouldBeInPrSet then
        let '(rest', o, m) :=
          ApplyIndices_loop dest commitIndexes rest
            ({[PullRequest cm]} ∪ orphaned) ({[dest]} ∪ mutated) in
        (setPRIndex None cm :: rest', o, m)
      else
        let mutated :=
          match PRIndex cm with
          | Some old => {[old]} ∪ mutated
          | None => mutated
          end in
        let '(rest', o, m) :=
          ApplyIndices_loop dest commitIndexes rest orphaned
            ({[dest]} ∪ mutated) in
        (setPRIndex (Some dest) cm :: rest', o, m)
  end.

(** The PR-set indices that some commit carries. *)
Definition existingPRSets (commits : list LocalCommit) : gset Z :=
  fold_left
    (fun acc cm =>
       match PRIndex cm with
       | None => acc
       | Some k => {[k]} ∪ acc
       end)
    commits ∅.

(** state.go, [State.ApplyIndices]: the state and the indices after the
    call (the destination is written back into the indices). *)
Definition ApplyIndices (s : State) (indices : Indices) : State * Indices :=
  if bool_decide (DestinationPRIndex indices = None)
     && (Z.of_nat (size (CommitIndexes indices)) =? 0)
  then (s, indices)
  else
    let dest :=
      match DestinationPRIndex indices with
      | None => ApplyIndices_next (LocalCommits s)
      | Some d => d
      end in
    let indices := mkIndices (Some dest) (CommitIndexes indices) in
    let '(commits, orphaned, mutated) :=
      ApplyIndices_loop dest (CommitIndexes indices) (LocalCommits s)
        (OrphanedPRs s) (MutatedPRSets s) in
    (mkState (RepositoryId s) commits orphaned
       (mutated ∩ existingPRSets commits),
     indices).

(** state.go, [State.CommitsByPRSet]: the commits of a PR set, newest
    first. *)
Definition CommitsByPRSet (s : State) (prIndex : Z) : list LocalCommit :=
  List.filter
    (fun ci =>
       match PRIndex ci with
       | None => false
       | Some k => k =? prIndex
       end)
    (LocalCommits s).

(** [PullRequests]: the pull requests of the commits that have one. *)
Definition PullRequests (commits : list LocalCommit) : list ptr :=
  omap PullRequest commits.

(** The loop of [UpdatePRSetState]: a commit with a PR-set index writes it
    under its commit-id. *)
Definition UpdatePRSetState_loop (commits : list LocalCommit)
    (prSetMap : gmap string Z) : gmap string Z :=
  fold_left
    (fun (m : gmap string Z) commit =>
       match PRIndex commit with
       | None => m
       | Some k => <[git.CommitID (Commit commit) := k]> m
       end)
    commits prSetMap.

(** state.go, [State.UpdatePRSetState]: a new map is built from the local
    commits and replaces the repository's persisted map. *)
Definition UpdatePRSetState (s : State) (cfg : config.Config)
  : config.Config :=
  let prSetMap := UpdatePRSetState_loop (LocalCommits s) ∅ in
  config.setPRSetMap (config.GitHubRepoName (config.Repo cfg)) prSetMap cfg.

(** ** Drivers: calls to the forge and to the remote *)

(** The calls a driver makes through [github.GitHubInterface] and
    [git.GitInterface], with the arguments that reach the wire. *)
Inductive call :=
| CommentPullRequest (pr : github.PullRequest) (comment : string)
| ClosePullRequest (pr : github.PullRequest)
| EditPullRequest2 (owner repoName : string) (number : Z) (state : string)
| Push (remoteName : string) (refspecs : list string).

#[global] Instance call_eq_dec : EqDecision call.
Proof. solve_decision. Defined.

(** A Go [error]: nil, or a message. *)
Definition error := option string.

(** The outcome of a driver step: it returns, or the process exits through
    [check] or [log.Fatal]. *)
Inductive outcome (A : Type) :=
| Return (a : A)
| Exit (msg : string).
Arguments Return {A} a.
Arguments Exit {A} msg.

(** The world answers a call, given the calls made so far, with nil or with
    an error. *)
Definition world := list call -> call -> error.

(** A driver step reads the world and extends the trace of calls. *)
Definition M (A : Type) : Type := world -> list call -> list call * outcome A.

Definition ret {A} (a : A) : M A := fun _ tr => (tr, Return a).

Definition bind {A B} (m : M A) (k : A -> M B) : M B :=
  fun w tr =>
    match m w tr with
    | (tr', Return a) => k a w tr'
    | (tr', Exit msg) => (tr', Exit msg)
    end.

Definition exit {A} (msg : string) : M A := fun _ tr => (tr, Exit msg).

Definition do_call (c : call) : M error :=
  fun w tr => ((tr ++ [c])%list, Return (w tr c)).

Notation "'do' x <- m ; k" := (bind m (fun x => k))
  (at level 10, x name, m at level 100, k at level 200).

(** spr.go, [check]: a non-nil error ends the process. *)
Definition check (err : error) : M unit :=
  match err with
  | None => ret tt
  | Some msg => exit msg
  end.

(** [fmt.Errorf] with a trailing [%w]. *)
Definition wrap_error (pre : string) (err : string) : error :=
  Some (pre ++ " " ++ err).

(** [plumbing.NewBranchReferenceName] *)
Definition NewBranchReferenceName (branch : string) : string :=
  "refs/heads/" ++ branch.

(** The body of a goroutine, as far as the forge and the remote see it:
    the calls it makes one after the other, each continued with the answer
    it gets, and the value it returns. *)
Inductive prog (A : Type) :=
| Done (a : A)
| Act (c : call) (k : error -> prog A).
Arguments Done {A} a.
Arguments Act {A} c k.

Fixpoint prog_bind {A B} (m : prog A) (k : A -> prog B) : prog B :=
  match m with
  | Done a => k a
  | Act c f => Act c (fun err => prog_bind (f err) k)
  end.

Definition prog_call (c : call) : prog error := Act c Done.

Notation "'perform' x <- m ; k" := (prog_bind m (fun x => k))
  (at level 10, x name, m at level 100, k at level 200).

(** gitapi, [GitApi.DeleteRemoteBranch]: pushes the empty source to the
    branch's reference. *)
Definition DeleteRemoteBranch (cfg : config.Config) (branch : string)
  : prog error :=
  let remoteName := config.GitHubRemote (config.Repo cfg) in
  let refName := NewBranchReferenceName branch in
  perform err <- prog_call (Push remoteName [":" ++ refName]) ;
  match err with
  | Some e => Done (wrap_error ("removing remote branch " ++ branch) e)
  | None => Done None
  end.

(** gitapi, [GitApi.DeletePullRequest]: closes the pull request and, when
    that succeeded, deletes its branch. *)
Definition DeletePullRequest (cfg : config.Config) (pr : github.PullRequest)
  : prog error :=
  let owner := config.GitHubRepoOwner (config.Repo cfg) in
  let repoName := config.GitHubRepoName (config.Repo cfg) in
  perform err <- prog_call (EditPullRequest2 owner repoName (github.Number pr)
                              "closed") ;
  match err with
  | Some e => Done (wrap_error ("deleting pr " ++ fmt_d (github.Number pr)) e)
  | None => DeleteRemoteBranch cfg (github.FromBranch pr)
  end.

(** The error a received result leaves in the receiving loop of
    [SliceMap]. *)
Definition received_error {O : Type} (err : error) (res : O * error)
  : error :=
  match res.2 with
  | Some e => Some e
  | None => err
  end.

(** The goroutines of [SliceMap] and its receiving loop.  [pool] holds the
    goroutines that have not yet handed over their result, [out] and [err]
    are the variables of the receiving loop.  Every number of the schedule
    picks one goroutine of the pool (modulo their number): when its body
    has a call to make, it makes it; when its body is done, its result is
    the next one received from the channel, its output is appended and its
    error, if not nil, replaces the error.  The calls of the goroutines
    interleave as the schedule has it, and the answer to a call may depend
    on the calls made before it.  The run is over when the pool is empty;
    a schedule that ends before that is no run ([None]). *)
Fixpoint SliceMap_run {O : Type} (sched : list nat)
    (pool : list (prog (O * error))) (out : list O) (err : error)
    (w : world) (tr : list call) {struct sched}
  : option (list call * (list O * error)) :=
  match pool with
  | [] => Some (tr, (out, err))
  | _ :: _ =>
      match sched with
      | [] => None
      | n :: sched =>
          let i := (n mod List.length pool)%nat in
          match pool !! i with
          | Some (Done res) =>
              SliceMap_run sched (delete i pool) (out ++ [res.1])%list
                (received_error err res) w tr
          | Some (Act c k) =>
              SliceMap_run sched (<[i := k (w tr c)]> pool) out err w
                (tr ++ [c])%list
          | None => None
          end
      end
  end.

(** concurrent, [SliceMap]: one goroutine per element runs [fn]; the
    outputs come in the order in which the results are received, and the
    error is the last one received that is not nil.  [sched] is the
    schedule of the goroutines; [fn] is a function that returns. *)
Definition SliceMap {I O : Type} (sched : list nat)
    (fn : I -> prog (O * error)) (input : list I) (w : world)
    (tr : list call) : option (list call * (list O * error)) :=
  SliceMap_run sched (fn <$> input) [] None w tr.

(** The function [UpdatePRSets] maps over the orphaned pull requests: a
    nil pointer is passed over. *)
Definition UpdatePRSets_deleteOrphan (cfg : config.Config) (h : heap)
    (pr : option ptr) : prog (unit * error) :=
  match pr with
  | None => Done (tt, None)
  | Some p =>
      match h !! p with
      | Some pr => perform err <- DeletePullRequest cfg pr ; Done (tt, err)
      | None => Done (tt, None)
      end
  end.

(** spr.go, [UpdatePRSets], "Delete orphaned PRs (along with the associated
    branches)": every non-nil orphaned pull request is deleted, each in a
    goroutine of [SliceMap] under the schedule [sched]; an error ends the
    process, and the set is cleared. *)
Definition UpdatePRSets_deleteOrphans (sched : list nat)
    (cfg : config.Config) (h : heap) (state : State) (w : world)
    (tr : list call) : option (list call * outcome State) :=
  match SliceMap sched (UpdatePRSets_deleteOrphan cfg h)
          (elements (OrphanedPRs state)) w tr with
  | None => None
  | Some (tr, r) =>
      Some ((do _ <- check r.2 ;
             ret (mkState (RepositoryId state) (LocalCommits state) ∅
                    (MutatedPRSets state))) w tr)
  end.

(** client.go, [CommentPullRequest]: a failure is fatal. *)
Definition client_CommentPullRequest (pr : github.PullRequest)
    (comment : string) : M unit :=
  do err <- do_call (CommentPullRequest pr comment) ;
  match err with
  | Some _ => exit "pull request update failed"
  | None => ret tt
  end.

(** client.go, [ClosePullRequest]. *)
Definition client_ClosePullRequest (pr : github.PullRequest) : M error :=
  do err <- do_call (ClosePullRequest pr) ;
  match err with
  | Some e => ret (wrap_error ("unable to close PR " ++ github.Id pr) e)
  | None => ret None
  end.

(** spr.go, [UpdatePullRequests], "close prs for deleted commits": a pull
    request whose commit is not among the local commits is commented and
    closed (the error of the close is dropped), the others are kept. *)
Fixpoint UpdatePullRequests_closeDeleted (localCommits : list git.Commit)
    (pullRequests : list github.PullRequest) : M (list github.PullRequest) :=
  match pullRequests with
  | [] => ret []
  | pr :: rest =>
      if bool_decide (git.CommitID (github.Commit pr)
                      ∈ git.CommitID <$> localCommits)
      then
        do valid <- UpdatePullRequests_closeDeleted localCommits rest ;
        ret (pr :: valid)
      else
        do _ <- client_CommentPullRequest pr
               "Closing pull request: commit has gone away" ;
        do _ <- client_ClosePullRequest pr ;
        UpdatePullRequests_closeDeleted localCommits rest
  end.

(** ** Merge driver: the pre-merge check gate *)

Definition MergeCheckRequired : string :=
  "need to run merge check 'spr check' before merging".

(** spr.go, [MergePRSet], the block under "MergeCheck".  [key] is
    [githubInfo.Key()], the repository key of the recorded check. *)
Definition MergePRSet_mergeCheck (cfg : config.Config) (state : State)
    (index : Z) (key : string) : M unit :=
  if negb (String.eqb (config.MergeCheck (config.Repo cfg)) "") then
    let commits := CommitsByPRSet state index in
    match commits with
    | lastCommit :: _ =>
        match config.MergeCheckCommit (config.State cfg) !! key with
        | None => check (Some MergeCheckRequired)
        | Some checkedCommit =>
            if negb (String.eqb checkedCommit "SKIP")
               && negb (String.eqb (git.CommitHash (Commit lastCommit))
                          checkedCommit)
            then check (Some MergeCheckRequired)
            else ret tt
        end
    | [] => ret tt
    end
  else ret tt.

(** spr.go, [MergePRSet] from the loaded state on: the gate, the test that
    the set has commits, and the merge steps, which are taken as given. *)
Definition MergePRSet (mergeSteps : list LocalCommit -> M unit)
    (cfg : config.Config) (state : State) (setIndex : string) (index : Z)
    (key : string) : M unit :=
  do _ <- MergePRSet_mergeCheck cfg state index key ;
  let commits := CommitsByPRSet state index in
  do _ <- (if Z.of_nat (List.length commits) =? 0
        then check (Some ("invalid index " ++ setIndex))
        else ret tt) ;
  mergeSteps (rev commits).

(** ** Predicates of the statements *)

(** A string of ASCII bytes only. *)
Definition ascii_only (s : string) : Prop :=
  all_chars (fun c => byte_of c <? 128) s = true.

(** The byte [c] does not occur in [s]. *)
Definition no_char (c : ascii) (s : string) : Prop :=
  all_chars (fun x => negb (Ascii.eqb x c)) s = true.

(** [b] is spr/<middle>/<id>: three segments between slashes, the first of
    them "spr". *)
Definition spr_branch (b middle id : string) : Prop :=
  b = "spr/" ++ middle ++ "/" ++ id ∧ no_char slash middle ∧ no_char slash id.

(** Eight lowercase hexadecimal digits. *)
Definition lower_hex8 (s : string) : Prop :=
  len s = 8 ∧ all_chars is_lower_hex s = true.

(** Every pull request of the map is in the store, carries the key as its
    commit-id and is not yet marked as stacked. *)
Definition prMap_ok (h : heap) (prMap : gmap string ptr) : Prop :=
  forall id p,
    prMap !! id = Some p ->
    exists pr,
      h !! p = Some pr
      ∧ git.CommitID (github.Commit pr) = id
      ∧ github.Stacked (github.MergeStatus pr) = false.

(** ** Sample inputs, after the unit tests of state.go *)

Definition sample_cfg : config.Config :=
  config.mkConfig
    (config.mkRepoConfig "owner" "repo" "origin" "main" true true
       "/usr/bin/true")
    (config.mkInternalState
       {["repo" := {["11111111" := 1; "22222222" := 0; "99999999" := 9]};
         "other" := {["44444444" := 4]}]}
       {["owner/repo" := "H3333333"]}).

Definition sample_commit (id hash : string) (index : Z) (pr : option ptr)
    (prIndex : option Z) : LocalCommit :=
  mkLocalCommit (git.mkCommit id hash "subject" "" false) pr index prIndex.

(** Head first: commit 4 is HEAD and has no pull request, commits 0 and 1
    make the PR set 0. *)
Definition sample_state : State :=
  mkState "R_1"
    [sample_commit "55555555" "H5555555" 4 None None;
     sample_commit "44444444" "H4444444" 3 (Some 3%nat) (Some 2);
     sample_commit "33333333" "H3333333" 2 (Some 2%nat) (Some 1);
     sample_commit "22222222" "H2222222" 1 (Some 1%nat) (Some 0);
     sample_commit "11111111" "H1111111" 0 (Some 0%nat) (Some 0)]
    ∅ ∅.

(** [m] is the largest PR-set index among the commits. *)
Definition is_max_pr_index (commits : list LocalCommit) (m : Z) : Prop :=
  (exists cm, cm ∈ commits ∧ PRIndex cm = Some m)
  ∧ forall cm k, cm ∈ commits -> PRIndex cm = Some k -> k <= m.

(** [d] is one more than the largest PR-set index, 0 when no commit has
    one. *)
Definition is_next_pr_index (commits : list LocalCommit) (d : Z) : Prop :=
  ((forall cm, cm ∈ commits -> PRIndex cm = None) ∧ d = 0)
  ∨ exists m, is_max_pr_index commits m ∧ d = m + 1.

(** The PR-set indices are small non-negative integers. *)
Definition pr_indices_in_range (commits : list LocalCommit) : Prop :=
  forall cm k, cm ∈ commits -> PRIndex cm = Some k -> 0 <= k < 2 ^ 63 - 1.

(** Every mutated PR set has a member among the local commits. *)
Definition mutated_sets_inhabited (s : State) : Prop :=
  forall k,
    k ∈ MutatedPRSets s ->
    exists cm, cm ∈ LocalCommits s ∧ PRIndex cm = Some k.

(** What the second loop of [ApplyIndices] does to one commit. *)
Definition ApplyIndices_commit (dest : Z) (commitIndexes : gset Z)
    (cm : LocalCommit) : LocalCommit :=
  if bool_decide (Index cm ∈ commitIndexes) then setPRIndex (Some dest) cm
  else if bool_decide (PRIndex cm = Some dest) then setPRIndex None cm
  else cm.

(** The newest commit of a PR set: its member nearest to HEAD in the
    head-first list of the local commits. *)
Definition newest_in_set (s : State) (index : Z) (cm : LocalCommit) : Prop :=
  exists newer older,
    LocalCommits s = (newer ++ cm :: older)%list
    ∧ PRIndex cm = Some index
    ∧ forall c, c ∈ newer -> PRIndex c ≠ Some index.

(** A passing merge check is on record for the commit hash, or the record
    is the literal SKIP. *)
Definition merge_check_recorded (cfg : config.Config) (key hash : string)
  : Prop :=
  exists checkedCommit,
    config.MergeCheckCommit (config.State cfg) !! key = Some checkedCommit
    ∧ (checkedCommit = "SKIP" ∨ checkedCommit = hash).

(** The call leaves a comment on a pull request. *)
Definition is_comment (c : call) : Prop :=
  match c with
  | CommentPullRequest _ _ => True
  | _ => False
  end.


(** The calls that close a pull request and delete its branch in
    [GitApi.DeletePullRequest]. *)
Definition close_call (cfg : config.Config) (number : Z) : call :=
  EditPullRequest2 (config.GitHubRepoOwner (config.Repo cfg))
    (config.GitHubRepoName (config.Repo cfg)) number "closed".

Definition delete_branch_call (cfg : config.Config) (branch : string)
  : call :=
  Push (config.GitHubRemote (config.Repo cfg)) [":refs/heads/" ++ branch].

(** Every call of the body satisfies [P], whatever the answers. *)
Fixpoint prog_calls_only {A : Type} (P : call -> Prop) (p : prog A) : Prop :=
  match p with
  | Done _ => True
  | Act c k => P c ∧ forall err, prog_calls_only P (k err)
  end.

(** The body makes the call [c] before it is done, with the answers of the
    world [w] at whatever trace. *)
Fixpoint prog_must_call {A : Type} (w : world) (c : call) (p : prog A)
  : Prop :=
  match p with
  | Done _ => False
  | Act c' k => c' = c ∨ forall tr, prog_must_call w c (k (w tr c'))
  end.

(** The value the body returns satisfies [R], with the answers of the
    world [w] at whatever trace. *)
Fixpoint prog_returns {A : Type} (w : world) (R : A -> Prop) (p : prog A)
  : Prop :=
  match p with
  | Done a => R a
  | Act c k => forall tr, prog_returns w R (k (w tr c))
  end.

(** The body hands over its result within [n] steps of the schedule: its
    calls and the handing over. *)
Fixpoint prog_within {A : Type} (n : nat) (p : prog A) : Prop :=
  match p, n with
  | _, O => False
  | Done _, S _ => True
  | Act c k, S n => forall err, prog_within n (k err)
  end.


(** The gating requirements on a commit and its pull request: not WIP, no
    conflicts and, where the configuration requires them, passing checks
    and an approving review. *)
Definition gating_ok (cfg : config.Config) (cm : LocalCommit)
    (pr : github.PullRequest) : Prop :=
  git.WIP (Commit cm) = false
  ∧ github.NoConflicts (github.MergeStatus pr) = true
  ∧ (config.RequireChecks (config.Repo cfg) = true ->
     github.ChecksPass (github.MergeStatus pr) = github.CheckStatusPass)
  ∧ (config.RequireApproval (config.Repo cfg) = true ->
     github.ReviewApproved (github.MergeStatus pr) = true).

(** A commit does not hold the sweep back: it has no pull request, or its
    pull request meets the gating requirements. *)
Definition commit_ok (cfg : config.Config) (h : heap) (cm : LocalCommit)
  : Prop :=
  match PullRequest cm with
  | None => True
  | Some p => exists pr, h !! p = Some pr ∧ gating_ok cfg cm pr
  end.

(** The reading of the specification: the stacked bit of the commit at
    position [i] of the head-first list depends on the pull requests below
    it in its own PR set only. *)
Definition stacked_in_set_spec (cfg : config.Config) (h : heap)
    (commits : list LocalCommit) (i : nat) : Prop :=
  forall cm j cmj,
    commits !! i = Some cm ->
    (i < j)%nat ->
    commits !! j = Some cmj ->
    is_Some (PRIndex cm) ->
    PRIndex cmj = PRIndex cm ->
    commit_ok cfg h cmj.

(** The pull requests the sweep of [SetStackedCheck] marks: those of the
    commits up to the first one that fails a test. *)
Fixpoint SetStackedCheck_swept (cfg : config.Config) (h : heap)
    (commits : list LocalCommit) : list ptr :=
  match commits with
  | [] => []
  | cm :: rest =>
      match PullRequest cm with
      | None => SetStackedCheck_swept cfg h rest
      | Some p =>
          match h !! p with
          | None => []
          | Some pr =>
              if SetStackedCheck_passes cfg cm pr
              then p :: SetStackedCheck_swept cfg h rest
              else []
          end
      end
  end.

(** Sample input for the stacked bit: two commits in two PR sets, the older
    one with a conflicting pull request. *)
Definition stacked_cfg : config.Config :=
  config.mkConfig
    (config.mkRepoConfig "owner" "repo" "origin" "main" false false "")
    (config.mkInternalState
       {["repo" := {["aaaaaaaa" := 0; "bbbbbbbb" := 1]}]} ∅).

Definition stacked_nodes : list genqlient.PullRequestNode :=
  [genqlient.mkNode "PR_a" 1 1 "spr/main/aaaaaaaa" "main" "Feature A" ""
     "CONFLICTING" "APPROVED" (genqlient.mkRollup "SUCCESS")
     [genqlient.mkCommitNode "ra" "Feature A" ""];
   genqlient.mkNode "PR_b" 2 2 "spr/main/bbbbbbbb" "main" "Feature B" ""
     "MERGEABLE" "APPROVED" (genqlient.mkRollup "SUCCESS")
     [genqlient.mkCommitNode "rb" "Feature B" ""]].

Definition stacked_commits : list object.Commit :=
  [object.mkCommit "hb"
     ("Feature B" ++ String newline (String newline "commit-id:bbbbbbbb"))
     ["ha"];
   object.mkCommit "ha"
     ("Feature A" ++ String newline (String newline "commit-id:aaaaaaaa"))
     ["h0"]].

Definition stacked_assembled : State * config.Config * heap :=
  NewState stacked_cfg "R_1" stacked_nodes stacked_commits.

Definition stacked_commit_a : LocalCommit :=
  mkLocalCommit
    (git.mkCommit "aaaaaaaa" "ha" "Feature A"
       (String newline "commit-id:aaaaaaaa") false)
    (Some 0%nat) 0 (Some 0).

Definition stacked_commit_b : LocalCommit :=
  mkLocalCommit
    (git.mkCommit "bbbbbbbb" "hb" "Feature B"
       (String newline "commit-id:bbbbbbbb") false)
    (Some 1%nat) 1 (Some 1).

Definition stacked_pr_b : github.PullRequest :=
  github.mkPullRequest "PR_b" "2" 2 "spr/main/bbbbbbbb" "main" "Feature B" ""
    (github.mkMergeStatus github.CheckStatusPass true true false)
    (git.mkCommit "bbbbbbbb" "rb" "Feature B" "" false).





(** The identifier of the first trailer line among the lines of a message,
    empty when no line is a trailer. *)
Fixpoint first_commit_id (lines : list string) : string :=
  match lines with
  | [] => ""
  | line :: rest =>
      match commitIDRegex_line line with
      | Some id => id
      | None => first_commit_id rest
      end
  end.

(** Head first: every commit of the list is followed by one of its
    parents. *)
Definition head_first_linked (l : list object.Commit) : Prop :=
  forall i c0 c1,
    l !! i = Some c0 -> l !! S i = Some c1 ->
    object.Hash c1 ∈ object.ParentHashes c0.

(** No two commits of the list are parents of each other. *)
Definition parents_asymmetric (l : list object.Commit) : Prop :=
  forall a b,
    a ∈ l -> b ∈ l ->
    object.Hash b ∈ object.ParentHashes a ->
    object.Hash a ∉ object.ParentHashes b.

(** What state assembly makes of a generated commit: it gets the pull
    request stored under its commit-id and, when it has one, the PR-set
    index persisted under its commit-id. *)
Definition assembled_commit (cfg : config.Config) (prMap : gmap string ptr)
    (g : LocalCommit) : LocalCommit :=
  mkLocalCommit (Commit g) (prMap !! git.CommitID (Commit g)) (Index g)
    (match prMap !! git.CommitID (Commit g) with
     | Some _ =>
         match repoPRSetMap cfg !! git.CommitID (Commit g) with
         | Some k => Some k
         | None => PRIndex g
         end
     | None => PRIndex g
     end).

(** Every pull request of the map is in the store under a head ref that
    yields the key. *)
Definition prMap_branch_ok (h : heap) (prMap : gmap string ptr) : Prop :=
  forall id p,
    prMap !! id = Some p ->
    exists pr,
      h !! p = Some pr ∧ CommitIdFromBranch (github.FromBranch pr) = id.

(** The inner loop of [MutatedPRSetsWithOutOfOrderCommits] for one PR set:
    [true] where the source adds the set and breaks.  (A pointer of the
    source always points to an object; an address outside the store ends
    the loop.) *)
Fixpoint MutatedPRSetsWithOutOfOrderCommits_loop (h : heap) (prSet : Z)
    (commits : list LocalCommit) (lastTo : string) : bool :=
  match commits with
  | [] => false
  | commit :: rest =>
      match PullRequest commit with
      | None => MutatedPRSetsWithOutOfOrderCommits_loop h prSet rest lastTo
      | Some p =>
          match PRIndex commit with
          | None =>
              MutatedPRSetsWithOutOfOrderCommits_loop h prSet rest lastTo
          | Some k =>
              if negb (k =? prSet) then
                MutatedPRSetsWithOutOfOrderCommits_loop h prSet rest lastTo
              else
                match h !! p with
                | None => false
                | Some pr =>
                    if String.eqb lastTo "" then
                      MutatedPRSetsWithOutOfOrderCommits_loop h prSet rest
                        (github.ToBranch pr)
                    else if negb (String.eqb (github.FromBranch pr) lastTo)
                    then true
                    else
                      MutatedPRSetsWithOutOfOrderCommits_loop h prSet rest
                        (github.ToBranch pr)
                end
          end
      end
  end.

(** state.go, [State.MutatedPRSetsWithOutOfOrderCommits]. *)
Definition MutatedPRSetsWithOutOfOrderCommits (h : heap) (s : State)
  : gset Z :=
  filter
    (fun prSet =>
       MutatedPRSetsWithOutOfOrderCommits_loop h prSet (LocalCommits s) ""
       = true)
    (MutatedPRSets s).

(** The pull requests of the commits of a PR set, newest first. *)
Definition prs_of_set (h : heap) (prSet : Z) (commits : list LocalCommit)
  : list github.PullRequest :=
  omap
    (fun cm =>
       if bool_decide (PRIndex cm = Some prSet)
       then match PullRequest cm with
            | Some p => h !! p
            | None => None
            end
       else None)
    commits.

(** Two consecutive pull requests of the list, newest first, of which the
    older one does not come from the branch the newer one goes to. *)
Definition chain_broken (prs : list github.PullRequest) : Prop :=
  exists i a b,
    prs !! i = Some a ∧ prs !! S i = Some b
    ∧ github.FromBranch b ≠ github.ToBranch a.

(** The pull requests of the commits are in the store. *)
Definition pointers_valid (h : heap) (commits : list LocalCommit) : Prop :=
  forall cm p,
    cm ∈ commits -> PullRequest cm = Some p -> is_Some (h !! p).

(** Sample input for the order of a PR set: the two commits of the PR set
    0, with pull requests that both go to main. *)
Definition reordered_heap : heap :=
  [github.mkPullRequest "PR_a" "1" 1 "spr/main/aaaaaaaa" "main" "A" ""
     github.zeroMergeStatus git.zero;
   github.mkPullRequest "PR_b" "2" 2 "spr/main/bbbbbbbb" "main" "B" ""
     github.zeroMergeStatus git.zero].

Definition reordered_state : State :=
  mkState "R_1"
    [sample_commit "bbbbbbbb" "hb" 1 (Some 1%nat) (Some 0);
     sample_commit "aaaaaaaa" "ha" 0 (Some 0%nat) (Some 0)]
    ∅ {[0]}.

(** [sd.config.State.MergeCheckCommit[key] = hash] *)
Definition setMergeCheckCommit (key hash : string) (c : config.Config)
  : config.Config :=
  config.mkConfig (config.Repo c)
    (config.mkInternalState (config.RepoToCommitIdToPRSet (config.State c))
       (<[key := hash]> (config.MergeCheckCommit (config.State c)))).

(** spr.go, [RunMergeCheck], from the local commits on.  [key] is
    [githubInfo.Key()]; [startErr] and [waitErr] are what [cmd.Start] and
    [cmd.Wait] return for the configured command.  A check that fails
    records the empty string, one that passes the hash of the last local
    commit. *)
Definition RunMergeCheck (cfg : config.Config)
    (localCommits : list git.Commit) (key : string)
    (startErr waitErr : error) : M config.Config :=
  if String.eqb (config.MergeCheck (config.Repo cfg)) "" then ret cfg
  else if Z.of_nat (List.length localCommits) =? 0 then ret cfg
  else
    do _ <- check startErr ;
    match waitErr with
    | Some _ => ret (setMergeCheckCommit key "" cfg)
    | None =>
        let lastCommit := default git.zero (last localCommits) in
        ret (setMergeCheckCommit key (git.CommitHash lastCommit) cfg)
    end.

(** The pull requests whose commit is among the local commits: what the
    classic update keeps. *)
Definition has_local_commit (localCommits : list git.Commit)
    (pr : github.PullRequest) : bool :=
  bool_decide (git.CommitID (github.Commit pr)
               ∈ git.CommitID <$> localCommits).

(** The world in which leaving a comment never fails. *)
Definition comments_succeed (w : world) : Prop :=
  forall tr pr comment, w tr (CommentPullRequest pr comment) = None.

(** spr.go, [commitsReordered]: the loop runs over the indices of the pull
    requests and reads the local commit at the same index; [None] where
    that index is out of range and the source panics. *)
Fixpoint commitsReordered (localCommits : list git.Commit)
    (pullRequests : list github.PullRequest) {struct pullRequests}
  : option bool :=
  match pullRequests with
  | [] => Some false
  | pr :: pullRequests =>
      match localCommits with
      | [] => None
      | c :: localCommits =>
          if negb (String.eqb (git.CommitID c)
                     (git.CommitID (github.Commit pr)))
          then Some true
          else commitsReordered localCommits pullRequests
      end
  end.

(** The map [sortPullRequestsByLocalCommitOrder] builds: every pull
    request under its commit-id, a later one replacing an earlier one. *)
Definition sortPullRequests_map (pullRequests : list github.PullRequest)
  : gmap string github.PullRequest :=
  fold_left
    (fun m pullRequest =>
       <[git.CommitID (github.Commit pullRequest) := pullRequest]> m)
    pullRequests ∅.

(** spr.go, [sortPullRequestsByLocalCommitOrder]: for every local commit
    that is not WIP, the pull request stored under its commit-id, if
    any.  The pull requests are taken by value, as in the classic update
    above; the slice holds no nil pointer. *)
Definition sortPullRequestsByLocalCommitOrder
    (pullRequests : list github.PullRequest)
    (localCommits : list git.Commit) : list github.PullRequest :=
  let pullRequestMap := sortPullRequests_map pullRequests in
  omap
    (fun commit =>
       if negb (git.WIP commit)
       then pullRequestMap !! git.CommitID commit
       else None)
    localCommits.

(** The commit-ids of the pull requests. *)
Definition pr_commit_ids (pullRequests : list github.PullRequest)
  : list string :=
  (fun pr => git.CommitID (github.Commit pr)) <$> pullRequests.

(** The pull request has a local commit that is not WIP. *)
Definition has_ready_commit (localCommits : list git.Commit)
    (pr : github.PullRequest) : bool :=
  bool_decide
    (git.CommitID (github.Commit pr)
     ∈ git.CommitID <$> List.filter (fun c => negb (git.WIP c)) localCommits).

(** Sample input for the order of pull requests: three local commits, the
    newest one WIP, and their pull requests in another order. *)
Definition sort_commits : list git.Commit :=
  [git.mkCommit "aaaaaaaa" "ha" "A" "" false;
   git.mkCommit "bbbbbbbb" "hb" "B" "" false;
   git.mkCommit "cccccccc" "hc" "WIP C" "" true].

Definition sort_pr (id : string) (n : Z) : github.PullRequest :=
  github.mkPullRequest "PR" "0" n ("spr/main/" ++ id) "main" "" ""
    github.zeroMergeStatus (git.mkCommit id "" "" "" false).

Definition sort_prs : list github.PullRequest :=
  [sort_pr "cccccccc" 3; sort_pr "bbbbbbbb" 2; sort_pr "aaaaaaaa" 1].

(** The node is on a managed branch: its head ref yields a commit-id. *)
Definition managed_node (prNode : genqlient.PullRequestNode) : bool :=
  negb (String.eqb (CommitIdFromBranch (genqlient.HeadRefName prNode)) "").

(** Sample input for two pull requests of one commit-id: the second node
    is on another branch family and shadows the first. *)
Definition shadow_nodes : list genqlient.PullRequestNode :=
  [genqlient.mkNode "PR_a" 1 1 "spr/main/aaaaaaaa" "main" "Feature A" ""
     "MERGEABLE" "APPROVED" (genqlient.mkRollup "SUCCESS")
     [genqlient.mkCommitNode "ra" "Feature A" ""];
   genqlient.mkNode "PR_b" 2 2 "spr/next/aaaaaaaa" "next" "Feature A" ""
     "MERGEABLE" "APPROVED" (genqlient.mkRollup "SUCCESS")
     [genqlient.mkCommitNode "ra" "Feature A" ""]].

(** A string that is empty or starts with an ASCII byte. *)
Definition ascii_start (t : string) : Prop :=
  match t with
  | EmptyString => True
  | String c _ => byte_of c < 128
  end.

(** The conversions [string(r)] of the runes of a list, one after the
    other. *)
Definition encode_runes (rs : list Z) : string :=
  fold_right (fun r acc => utf8.EncodeRune r ++ acc) EmptyString rs.

(** [s] is the encoding of one rune: it is decoded as a whole, and it is
    an ASCII byte when it is one byte long. *)
Definition whole_rune (s : string) : bool :=
  match s with
  | EmptyString => false
  | String c _ =>
      Nat.eqb (utf8.DecodeRuneInString s).2 (String.length s)
      && ((2 <=? String.length s)%nat || (byte_of c <? 128))
  end.

(** The test [p] holds of the numbers from 0 up to [n], [n] left out. *)
Definition holds_below (p : Z -> bool) (n : N) : bool :=
  (N.iter n (fun st : Z * bool => (st.1 + 1, st.2 && p st.1)) (0, true)).2.

(** The first two bytes of the four-byte encoding of a rune, from the
    rune shifted right by 12 bits: a lead byte of a four-byte sequence
    and a second byte in its range. *)
Definition lead4_ok (q : Z) : bool :=
  (q <? 16)
  || match utf8.first (byte_of (char_of (Z.lor 240 (Z.shiftr q 6)))) with
     | utf8.Lead sz lo hi =>
         Nat.eqb sz 4
         && utf8.within lo hi
              (byte_of (char_of (Z.lor 128 (Z.land q 63))))
     | _ => false
     end.

(** A continuation byte made of six bits. *)
Definition continuation_ok (x : Z) : bool :=
  utf8.within 128 191 (byte_of (char_of (Z.lor 128 x))).


(** The node is shadowed: a node listed after it yields the same
    commit-id. *)
Definition shadowed_node (after : list genqlient.PullRequestNode)
    (prNode : genqlient.PullRequestNode) : Prop :=
  exists later,
    later ∈ after
    ∧ CommitIdFromBranch (genqlient.HeadRefName later)
      = CommitIdFromBranch (genqlient.HeadRefName prNode).




(** The state assembled from the two pull requests of one commit-id and no
    local commit. *)
Definition shadow_assembled : State * config.Config * heap :=
  NewState stacked_cfg "R_1" shadow_nodes [].

(** * Properties *)

(** ** Check rollup mapping *)

Section CheckRollup.

Import github.

(** The classic reader sends every state other than the empty one,
    SUCCESS and PENDING to fail. *)
Lemma matchPullRequestStack_checkStatus_other (state : string) :
  state ≠ "" -> state ≠ "SUCCESS" -> state ≠ "PENDING" ->
  matchPullRequestStack_checkStatus state = CheckStatusFail.
Proof.
  intros H0 H1 H2. unfold matchPullRequestStack_checkStatus.
  apply String.eqb_neq in H0, H1, H2. by rewrite H0, H1, H2.
Qed.

(** The reader of state_ql.go sends every state other than SUCCESS,
    PENDING, ERROR and FAILURE to unknown. *)
Lemma ComputeCheckStatus_other (state : string)
    (nodes : list fezzik_types.CommitsNode) (prms : PullRequestMergeStatus) :
  state ∉ ["SUCCESS"; "PENDING"; "ERROR"; "FAILURE"] ->
  ChecksPass (ComputeCheckStatus (Some state :: nodes) prms)
  = CheckStatusUnknown.
Proof.
  intros Hnot. unfold ComputeCheckStatus.
  repeat match goal with
  | |- context [String.eqb ?a ?b] =>
      destruct (String.eqb_spec a b) as [Heq|_];
      [exfalso; apply Hnot; rewrite Heq; set_solver|]
  end.
  reflexivity.
Qed.

End CheckRollup.

(** C1 (as stated, fails).  The claim holds of one of the three mappings
    it is drawn from only: the reader of state_ql.go maps an absent rollup,
    be it an empty list of commits or a nil pointer, to unknown and not to
    pass, as its test expects. *)
Lemma check_rollup_counterexample :
  github.ChecksPass (ComputeCheckStatus [] github.zeroMergeStatus)
  = github.CheckStatusUnknown
  ∧ github.ChecksPass (ComputeCheckStatus [None] github.zeroMergeStatus)
    = github.CheckStatusUnknown
  ∧ github.CheckStatusUnknown ≠ github.CheckStatusPass.
Proof. repeat split; discriminate. Qed.

(** C1 (amended).  The mapping of the state assembler,
    [ComputeMergeStatus], sends SUCCESS to pass, PENDING and EXPECTED to
    pending, ERROR and FAILURE to fail and the empty state of an absent
    rollup to pass.  The classic reader sends SUCCESS to pass, PENDING to
    pending, ERROR and FAILURE to fail and the empty state to pass.  The
    reader of state_ql.go sends SUCCESS to pass, PENDING to pending, ERROR
    and FAILURE to fail, and an absent rollup to unknown. *)
Theorem check_rollup_mapping (pr : genqlient.PullRequestNode)
    (prms : github.PullRequestMergeStatus)
    (nodes : list fezzik_types.CommitsNode) :
  (forall s c,
     (s, c) ∈ [("SUCCESS", github.CheckStatusPass);
               ("PENDING", github.CheckStatusPending);
               ("EXPECTED", github.CheckStatusPending);
               ("ERROR", github.CheckStatusFail);
               ("FAILURE", github.CheckStatusFail);
               ("", github.CheckStatusPass)] ->
     github.ChecksPass (ComputeMergeStatus (genqlient.withRollupState s pr))
     = c)
  ∧ (forall s c,
       (s, c) ∈ [("SUCCESS", github.CheckStatusPass);
                 ("PENDING", github.CheckStatusPending);
                 ("ERROR", github.CheckStatusFail);
                 ("FAILURE", github.CheckStatusFail);
                 ("", github.CheckStatusPass)] ->
       matchPullRequestStack_checkStatus s = c)
  ∧ (forall s c,
       (s, c) ∈ [("SUCCESS", github.CheckStatusPass);
                 ("PENDING", github.CheckStatusPending);
                 ("ERROR", github.CheckStatusFail);
                 ("FAILURE", github.CheckStatusFail)] ->
       github.ChecksPass (ComputeCheckStatus (Some s :: nodes) prms) = c)
  ∧ github.ChecksPass (ComputeCheckStatus (None :: nodes) prms)
    = github.CheckStatusUnknown
  ∧ github.ChecksPass (ComputeCheckStatus [] prms)
    = github.CheckStatusUnknown.
Proof.
  repeat split; try reflexivity; intros s c Hin;
    repeat (apply elem_of_cons in Hin as [[= -> ->]|Hin]; [reflexivity|]);
    by apply elem_of_nil in Hin.
Qed.

(** ** Subject field of the status line *)

Section FormatSubject.

Lemma append_nil_l (t : string) : "" ++ t = t.
Proof. reflexivity. Qed.

Lemma append_cons (c : ascii) (s t : string) :
  String c s ++ t = String c (s ++ t).
Proof. reflexivity. Qed.

Lemma append_nil_r (s : string) : s ++ "" = s.
Proof.
  induction s as [|c s IH]; [done|]. by rewrite append_cons, IH.
Qed.

Lemma append_assoc (s t u : string) : (s ++ t) ++ u = s ++ t ++ u.
Proof.
  induction s as [|c s IH]; [done|]. by rewrite !append_cons, IH.
Qed.

Lemma length_append (s t : string) :
  String.length (s ++ t) = (String.length s + String.length t)%nat.
Proof.
  induction s as [|c s IH]; [done|].
  rewrite append_cons. simpl. by rewrite IH.
Qed.

Lemma length_Repeat_space (n : nat) :
  String.length (strings_Repeat " " n) = n.
Proof.
  induction n as [|n IH]; [done|].
  change (strings_Repeat " " (S n)) with (" " ++ strings_Repeat " " n).
  rewrite length_append, IH. done.
Qed.

Lemma ascii_only_append (s t : string) :
  ascii_only s -> ascii_only t -> ascii_only (s ++ t).
Proof.
  unfold ascii_only. induction s as [|c s IH]; [done|].
  rewrite append_cons. simpl.
  intros [Hc Hs]%andb_prop Ht. by rewrite Hc, IH.
Qed.

Lemma ascii_only_Repeat_space (n : nat) :
  ascii_only (strings_Repeat " " n).
Proof.
  induction n as [|n IH]; [done|].
  change (strings_Repeat " " (S n)) with (" " ++ strings_Repeat " " n).
  by apply ascii_only_append.
Qed.

(** On an ASCII string every byte is a rune. *)
Lemma runes_ascii_only (s : string) :
  ascii_only s -> List.length (utf8.runes s) = String.length s.
Proof.
  unfold utf8.runes, ascii_only.
  induction s as [|c s IH]; simpl; [done|].
  intros [Hc Hs]%andb_prop.
  unfold utf8.first. rewrite Hc. simpl. by rewrite IH.
Qed.

Lemma RuneCountInString_ascii_only (s : string) :
  ascii_only s -> utf8.RuneCountInString s = len s.
Proof.
  intros Hs. unfold utf8.RuneCountInString, len.
  by rewrite runes_ascii_only.
Qed.

(** The short branch on ASCII subjects: padded to exactly 50 runes. *)
Lemma wrap64_small (z : Z) : - 2 ^ 63 <= z < 2 ^ 63 -> wrap64 z = z.
Proof.
  intros Hz. unfold wrap64. rewrite Z.mod_small; lia.
Qed.

Lemma FormatSubject_ascii_short (subject : string) :
  ascii_only subject -> len subject <= 50 ->
  FormatSubject subject
  = subject ++ strings_Repeat " " (50 - String.length subject)
  ∧ utf8.RuneCountInString (FormatSubject subject) = 50.
Proof.
  intros Hascii Hlen. unfold FormatSubject.
  rewrite (RuneCountInString_ascii_only _ Hascii).
  destruct (Z.leb_spec (len subject) 50) as [_|]; [|lia].
  unfold padNumber. unfold len in *. rewrite wrap64_small by lia.
  destruct (Z.ltb_spec 0 (50 - Z.of_nat (String.length subject))) as [Hlt|Hge].
  - replace (Z.to_nat (50 - Z.of_nat (String.length subject)))
      with (50 - String.length subject)%nat by lia.
    split; [done|].
    rewrite RuneCountInString_ascii_only
      by (apply ascii_only_append; [done|apply ascii_only_Repeat_space]).
    unfold len. rewrite length_append, length_Repeat_space. lia.
  - assert (String.length subject = 50%nat) as Heq by lia.
    rewrite Heq. simpl. split.
    + change (strings_Repeat " " 0) with "". by rewrite append_nil_r.
    + rewrite (RuneCountInString_ascii_only _ Hascii). unfold len. lia.
Qed.

End FormatSubject.

Section FormatSubjectLong.

Lemma char_of_byte_of (c : ascii) : char_of (byte_of c) = c.
Proof.
  unfold char_of, byte_of. by rewrite N2Z.id, ascii_N_embedding.
Qed.

Lemma byte_of_nonneg (c : ascii) : 0 <= byte_of c.
Proof. unfold byte_of. lia. Qed.

(** An ASCII byte is encoded by itself. *)
Lemma EncodeRune_ascii (c : ascii) :
  byte_of c < 128 -> utf8.EncodeRune (byte_of c) = String c "".
Proof.
  intros Hc. pose proof (byte_of_nonneg c). unfold utf8.EncodeRune.
  destruct (Z.leb_spec 0 (byte_of c)); [|lia].
  destruct (Z.leb_spec (byte_of c) 127); [|lia].
  cbn. by rewrite char_of_byte_of.
Qed.

(** The truncation loop on an ASCII subject appends its first bytes. *)
Lemma FormatSubject_loop_ascii (s : string) (truncated : string)
    (count : Z) :
  ascii_only s -> 0 <= count < 46 -> 46 - count <= len s ->
  FormatSubject_loop 46 (utf8.runes s) truncated count
  = truncated ++ String.substring 0 (Z.to_nat (46 - count)) s.
Proof.
  unfold utf8.runes, ascii_only, len.
  revert truncated count. induction s as [|c s IH];
    intros truncated count Hascii Hcount Hlen; simpl in Hlen; [lia|].
  simpl in Hascii. apply andb_prop in Hascii as [Hc Hs].
  cbn [utf8.runes_from utf8.DecodeRuneInString]. unfold utf8.first.
  rewrite Hc. cbn [Nat.pred FormatSubject_loop].
  apply Z.ltb_lt in Hc. rewrite (EncodeRune_ascii c Hc).
  replace (Z.to_nat (46 - count)) with (S (Z.to_nat (46 - (count + 1))))
    by lia.
  cbn [String.substring].
  destruct (Z.eqb_spec (count + 1) 46) as [Heq|Hne].
  - replace (Z.to_nat (46 - (count + 1))) with 0%nat by lia.
    by destruct s.
  - rewrite IH by (try done; lia).
    by rewrite append_assoc.
Qed.

Lemma ascii_only_substring (s : string) (n : nat) :
  ascii_only s -> ascii_only (String.substring 0 n s).
Proof.
  unfold ascii_only. revert n. induction s as [|c s IH]; intros n Hs.
  - by destruct n.
  - simpl in Hs. apply andb_prop in Hs as [Hc Hs]. destruct n as [|n];
      [done|]. simpl. by rewrite Hc, IH.
Qed.

Lemma length_substring (s : string) (n : nat) :
  (n <= String.length s)%nat -> String.length (String.substring 0 n s) = n.
Proof.
  revert n. induction s as [|c s IH]; intros n Hn; simpl in Hn.
  - by replace n with 0%nat by lia.
  - destruct n as [|n]; [done|]. simpl. rewrite IH; lia.
Qed.

(** On ASCII subjects the field is always 50 runes wide: a longer subject
    is cut to its first 46 bytes, followed by " ...". *)
Lemma FormatSubject_ascii (subject : string) :
  ascii_only subject ->
  utf8.RuneCountInString (FormatSubject subject) = 50
  ∧ (50 < len subject ->
     FormatSubject subject = String.substring 0 46 subject ++ " ...").
Proof.
  intros Hascii.
  destruct (Z.le_gt_cases (len subject) 50) as [Hshort|Hlong].
  - split; [by apply FormatSubject_ascii_short|lia].
  - assert (FormatSubject subject
            = String.substring 0 46 subject ++ " ...") as Heq.
    { unfold FormatSubject.
      rewrite (RuneCountInString_ascii_only _ Hascii).
      destruct (Z.leb_spec (len subject) 50); [lia|].
      rewrite FormatSubject_loop_ascii by (try done; lia).
      by rewrite append_nil_l. }
    split; [|done]. rewrite Heq.
    rewrite RuneCountInString_ascii_only
      by (apply ascii_only_append; [by apply ascii_only_substring|done]).
    unfold len in *. rewrite length_append, length_substring by lia.
    simpl. lia.
Qed.

End FormatSubjectLong.

(** C9 (fails on the code).  [FormatSubject] counts runes to choose its
    branch and then pads by bytes: the subject made of the one rune U+00E9,
    two bytes long, is padded with 48 spaces and the field has 49 runes,
    not 50.  A subject of 30 such runes is 60 bytes long and is not padded
    at all. *)
Theorem FormatSubject_pads_by_bytes :
  utf8.runes (utf8.bytes [195; 169]) = [233]
  ∧ FormatSubject (utf8.bytes [195; 169])
    = utf8.bytes [195; 169] ++ strings_Repeat " " 48
  ∧ utf8.RuneCountInString (FormatSubject (utf8.bytes [195; 169])) = 49
  ∧ utf8.RuneCountInString
      (FormatSubject (strings_Repeat (utf8.bytes [195; 169]) 30)) = 30.
Proof. repeat split; vm_compute; reflexivity. Qed.

(** ** Branch names *)

Section BranchNames.

Lemma strings_Split_nonempty (s : string) (sep : ascii) :
  strings_Split s sep ≠ [].
Proof.
  destruct s as [|c s]; simpl; [done|].
  destruct (Ascii.eqb c sep); [done|].
  by destruct (strings_Split s sep).
Qed.

(** A string without the separator is its own single segment. *)
Lemma strings_Split_no_char (s : string) (sep : ascii) :
  no_char sep s -> strings_Split s sep = [s].
Proof.
  unfold no_char. induction s as [|c s IH]; simpl; [done|].
  intros [Hc Hs]%andb_prop. apply negb_true_iff in Hc.
  by rewrite Hc, IH.
Qed.

(** The first segment ends at the first separator. *)
Lemma strings_Split_app (s t : string) (sep : ascii) :
  no_char sep s ->
  strings_Split (s ++ String sep t) sep = s :: strings_Split t sep.
Proof.
  unfold no_char. induction s as [|c s IH].
  - intros _. rewrite append_nil_l. simpl. by rewrite Ascii.eqb_refl.
  - intros [Hc Hs]%andb_prop. apply negb_true_iff in Hc.
    rewrite append_cons. simpl. by rewrite Hc, IH.
Qed.

(** Conversely the segments determine the string: the first one holds no
    separator, and either it is the whole string or the string goes on
    with a separator and the remaining segments. *)
Lemma strings_Split_inv (s : string) (sep : ascii) (seg : string)
    (segs : list string) :
  strings_Split s sep = seg :: segs ->
  no_char sep seg
  ∧ ((segs = [] ∧ s = seg)
     ∨ exists t, s = seg ++ String sep t ∧ strings_Split t sep = segs).
Proof.
  unfold no_char. revert seg segs.
  induction s as [|c s IH]; simpl; intros seg segs Hsplit.
  - injection Hsplit as <- <-. split; [done|by left].
  - destruct (Ascii.eqb_spec c sep) as [->|Hne].
    + injection Hsplit as <- <-. split; [done|].
      right. exists s. by rewrite append_nil_l.
    + destruct (strings_Split s sep) as [|seg' segs'] eqn:Hs;
        injection Hsplit as <- <-.
      * by destruct (strings_Split_nonempty s sep).
      * destruct (IH seg' segs' eq_refl) as [Hseg Hcases].
        split.
        -- simpl. rewrite Hseg.
           by destruct (Ascii.eqb_spec c sep) as [?|_].
        -- destruct Hcases as [[-> ->]|(t & -> & Ht)]; [by left|].
           right. exists t. by rewrite append_cons.
Qed.

Lemma len_8_not_empty (s : string) : len s = 8 -> s ≠ "".
Proof. by intros Hlen ->. Qed.

(** What [CommitIdFromBranch] recognizes: spr/<middle>/<id> with an
    identifier of eight bytes, whatever the bytes. *)
Lemma CommitIdFromBranch_recognizes (b id : string) :
  CommitIdFromBranch b = id ∧ id ≠ ""
  <-> exists middle, spr_branch b middle id ∧ len id = 8.
Proof.
  unfold CommitIdFromBranch, spr_branch. split.
  - intros [Hid Hne].
    destruct (strings_Split b slash) as [|s0 [|s1 [|s2 [|]]]] eqn:Hsplit;
      try (by subst id).
    destruct (String.eqb_spec s0 "spr") as [->|]; [|by subst id].
    destruct (Z.eqb_spec (len s2) 8) as [Hlen|]; [|by subst id].
    simpl in Hid. subst s2.
    apply strings_Split_inv in Hsplit
      as [_ [[? _]|(t1 & -> & Hsplit)]]; [done|].
    apply strings_Split_inv in Hsplit
      as [Hmid [[? _]|(t2 & -> & Hsplit)]]; [done|].
    apply strings_Split_inv in Hsplit
      as [Hid [[_ ->]|(t3 & _ & Hsplit)]].
    + by exists s1.
    + by destruct (strings_Split_nonempty t3 slash).
  - intros (middle & (-> & Hmid & Hid) & Hlen).
    change ("spr/" ++ middle ++ "/" ++ id)
      with ("spr" ++ String slash (middle ++ String slash id)).
    rewrite strings_Split_app by done.
    rewrite strings_Split_app by done.
    rewrite strings_Split_no_char by done.
    simpl. rewrite Hlen. simpl. split; [done|by apply len_8_not_empty].
Qed.

Lemma lower_hex_no_slash (s : string) :
  all_chars is_lower_hex s = true -> no_char slash s.
Proof.
  unfold no_char. induction s as [|c s IH]; simpl; [done|].
  intros [Hc Hs]%andb_prop. rewrite (IH Hs), andb_true_r.
  destruct (Ascii.eqb_spec c slash) as [->|]; [|done].
  by vm_compute in Hc.
Qed.

End BranchNames.

(** C4 (as stated, fails).  The third segment is only measured, not read:
    spr/main/feature1 has three segments, the first is "spr" and the third
    is eight bytes long, so it is taken for a managed branch with commit-id
    "feature1", which is no hexadecimal number. *)
Lemma CommitIdFromBranch_counterexample :
  CommitIdFromBranch "spr/main/feature1" = "feature1"
  ∧ ¬ lower_hex8 "feature1"
  ∧ ¬ (exists middle id,
         spr_branch "spr/main/feature1" middle id ∧ lower_hex8 id).
Proof.
  split; [reflexivity|]. split.
  - intros [_ Hhex]. by vm_compute in Hhex.
  - intros (middle & id & Hbranch & Hlen & Hhex).
    assert (CommitIdFromBranch "spr/main/feature1" = id ∧ id ≠ "")
      as [Hid _]
      by (apply CommitIdFromBranch_recognizes; by exists middle).
    vm_compute in Hid. subst id. by vm_compute in Hhex.
Qed.

(** C4 (amended).  A head ref name is recognized as a managed branch, with
    the commit-id taken from its final segment, exactly when it consists of
    three slash-separated segments whose first is "spr" and whose third is
    eight bytes long; every other head ref name yields no commit-id and its
    pull request is left out of the map.  In particular every name
    spr/<middle>/<8 lowercase hexadecimal digits> is recognized. *)
Theorem CommitIdFromBranch_three_segments (b : string) :
  (forall id,
     CommitIdFromBranch b = id ∧ id ≠ ""
     <-> exists middle, spr_branch b middle id ∧ len id = 8)
  ∧ ((¬ exists middle id, spr_branch b middle id ∧ len id = 8) ->
     CommitIdFromBranch b = ""
     ∧ forall h prMap prNode,
         genqlient.HeadRefName prNode = b ->
         GeneratePullRequestMap_node (h, prMap) prNode = (h, prMap))
  ∧ (forall middle id,
       no_char slash middle -> lower_hex8 id ->
       b = "spr/" ++ middle ++ "/" ++ id ->
       CommitIdFromBranch b = id).
Proof.
  split; [apply CommitIdFromBranch_recognizes|]. split.
  - intros Hnot.
    assert (CommitIdFromBranch b = "") as Hempty.
    { destruct (String.eqb_spec (CommitIdFromBranch b) "") as [|Hne]; [done|].
      exfalso. apply Hnot.
      destruct (proj1 (CommitIdFromBranch_recognizes b _) (conj eq_refl Hne))
        as (middle & Hbranch & Hlen).
      by exists middle, (CommitIdFromBranch b). }
    split; [done|]. intros h prMap prNode Hhead.
    unfold GeneratePullRequestMap_node. by rewrite Hhead, Hempty.
  - intros middle id Hmid [Hlen Hhex] Hb.
    apply (CommitIdFromBranch_recognizes b id).
    exists middle. repeat split; try done. by apply lower_hex_no_slash.
Qed.

Lemma CommitIdFromBranch_three_segments_witness :
  (¬ exists middle id, spr_branch "spr/main" middle id ∧ len id = 8)
  ∧ CommitIdFromBranch "spr/main" = ""
  ∧ CommitIdFromBranch "spr/main/0f47588b" = "0f47588b".
Proof.
  assert (¬ exists middle id, spr_branch "spr/main" middle id ∧ len id = 8)
    as Hnot.
  { intros (middle & id & Hbranch & Hlen).
    assert (CommitIdFromBranch "spr/main" = id ∧ id ≠ "") as [Hid Hne]
      by (apply CommitIdFromBranch_recognizes; by exists middle).
    vm_compute in Hid. by subst id. }
  split; [exact Hnot|]. split.
  - exact (proj1 (proj1 (proj2 (CommitIdFromBranch_three_segments "spr/main"))
                    Hnot)).
  - apply (proj2 (proj2 (CommitIdFromBranch_three_segments
                           "spr/main/0f47588b")) "main" "0f47588b");
      [reflexivity|split; reflexivity|reflexivity].
Defined.

(** ** The persisted PR-set map *)

Section PersistedMap.

Lemma repoPRSetMap_setPRSetMap (cfg : config.Config) (m : gmap string Z) :
  repoPRSetMap
    (config.setPRSetMap (config.GitHubRepoName (config.Repo cfg)) m cfg)
  = m.
Proof.
  unfold repoPRSetMap, config.setPRSetMap. simpl.
  by rewrite lookup_insert_eq.
Qed.

(** The map of another repository is not touched. *)
Lemma setPRSetMap_other (cfg : config.Config) (m : gmap string Z)
    (repo other : string) :
  repo ≠ other ->
  config.RepoToCommitIdToPRSet
    (config.State (config.setPRSetMap repo m cfg)) !! other
  = config.RepoToCommitIdToPRSet (config.State cfg) !! other.
Proof. intros Hne. simpl. by rewrite lookup_insert_ne. Qed.

(** The keys looked up by the loop of [UpdateRepoToCommitIdToPrSet]: those
    of the commits whose commit-id has a pull request. *)
Lemma purge_loop_accessed (prMap : gmap string ptr)
    (gitCommits : list LocalCommit) (gc : maputils.GC string Z) :
  maputils.data (UpdateRepoToCommitIdToPrSet_loop prMap gitCommits gc)
  = maputils.data gc
  ∧ forall id,
      id ∈ maputils.accessed
             (UpdateRepoToCommitIdToPrSet_loop prMap gitCommits gc)
      <-> id ∈ maputils.accessed gc
          ∨ (is_Some (prMap !! id)
             ∧ exists cm, cm ∈ gitCommits ∧ git.CommitID (Commit cm) = id).
Proof.
  unfold UpdateRepoToCommitIdToPrSet_loop.
  revert gc. induction gitCommits as [|cm cms IH]; intros gc;
    cbn [fold_left].
  - split; [done|]. intros id. split; [by left|].
    intros [?|(_ & cm & Hin & _)]; [done|]. by apply elem_of_nil in Hin.
  - destruct (IH (match prMap !! git.CommitID (Commit cm) with
                  | Some _ =>
                      (maputils.Lookup gc (git.CommitID (Commit cm))).1
                  | None => gc
                  end)) as [Hdata Hacc].
    split.
    + rewrite Hdata. by destruct (prMap !! git.CommitID (Commit cm)).
    + intros id. rewrite Hacc. clear Hdata Hacc IH.
      destruct (prMap !! git.CommitID (Commit cm)) as [p|] eqn:Hpr; simpl.
      * rewrite elem_of_union, elem_of_singleton. split.
        -- intros [[->|?]|(Hsome & cm' & Hin & Hid)].
           ++ right. split; [by eexists|].
              exists cm. split; [by left|done].
           ++ by left.
           ++ right. split; [done|]. exists cm'. split; [by right|done].
        -- intros [?|(Hsome & cm' & Hin & Hid)]; [by left; right|].
           apply elem_of_cons in Hin as [->|Hin].
           ++ left. by left.
           ++ right. split; [done|]. by exists cm'.
      * split.
        -- intros [?|(Hsome & cm' & Hin & Hid)]; [by left|].
           right. split; [done|]. exists cm'. split; [by right|done].
        -- intros [?|(Hsome & cm' & Hin & Hid)]; [by left|].
           apply elem_of_cons in Hin as [->|Hin].
           ++ rewrite Hid in Hpr. rewrite Hpr in Hsome.
              by destruct Hsome.
           ++ right. split; [done|]. by exists cm'.
Qed.

(** An entry of the persisted map outlives [UpdateRepoToCommitIdToPrSet]
    exactly when its commit-id is that of a local commit and has a pull
    request in the map of the open pull requests. *)
Lemma UpdateRepoToCommitIdToPrSet_lookup (cfg : config.Config)
    (gitCommits : list LocalCommit) (prMap : gmap string ptr)
    (id : string) (k : Z) :
  repoPRSetMap (UpdateRepoToCommitIdToPrSet cfg gitCommits prMap) !! id
  = Some k
  <-> repoPRSetMap cfg !! id = Some k
      ∧ (exists cm, cm ∈ gitCommits ∧ git.CommitID (Commit cm) = id)
      ∧ is_Some (prMap !! id).
Proof.
  unfold UpdateRepoToCommitIdToPrSet.
  rewrite repoPRSetMap_setPRSetMap. unfold maputils.PurgeUnaccessed.
  rewrite map_lookup_filter_Some. simpl.
  destruct (purge_loop_accessed prMap gitCommits
              (maputils.NewGC (repoPRSetMap cfg))) as [-> Hacc].
  rewrite Hacc. simpl. split.
  - intros [Hk [Hin|[Hpr Hcm]]]; [by apply elem_of_empty in Hin|done].
  - intros (Hk & Hcm & Hpr). split; [done|by right].
Qed.

End PersistedMap.

(** ** The map of the open pull requests *)

Section PullRequestMap.

(** The keys of the map: the commit-ids the head refs of the nodes
    yield. *)
Lemma GeneratePullRequestMap_node_dom (h : heap) (prMap : gmap string ptr)
    (nodes : list genqlient.PullRequestNode) (id : string) :
  is_Some ((fold_left GeneratePullRequestMap_node nodes (h, prMap)).2 !! id)
  <-> is_Some (prMap !! id)
      ∨ (id ≠ ""
         ∧ exists prNode,
             prNode ∈ nodes
             ∧ CommitIdFromBranch (genqlient.HeadRefName prNode) = id).
Proof.
  revert h prMap. induction nodes as [|n ns IH]; intros h prMap;
    cbn [fold_left].
  - split; [by left|]. intros [?|(_ & n & Hin & _)]; [done|].
    by apply elem_of_nil in Hin.
  - unfold GeneratePullRequestMap_node at 2.
    destruct (String.eqb_spec
                (CommitIdFromBranch (genqlient.HeadRefName n)) "")
      as [Hempty|Hne]; rewrite IH; clear IH.
    + split.
      * intros [?|(Hid & n' & Hin & Heq)]; [by left|].
        right. split; [done|]. exists n'. split; [by right|done].
      * intros [?|(Hid & n' & Hin & Heq)]; [by left|].
        apply elem_of_cons in Hin as [->|Hin]; [congruence|].
        right. split; [done|]. by exists n'.
    + rewrite lookup_insert_is_Some. split.
      * intros [[<-|[_ ?]]|(Hid & n' & Hin & Heq)].
        -- right. split; [done|]. exists n. split; [by left|done].
        -- by left.
        -- right. split; [done|]. exists n'. split; [by right|done].
      * intros [?|(Hid & n' & Hin & Heq)].
        -- destruct (decide (CommitIdFromBranch (genqlient.HeadRefName n)
                             = id)); [by left; left|by left; right].
        -- apply elem_of_cons in Hin as [->|Hin]; [by left; left|].
           right. split; [done|]. by exists n'.
Qed.

Lemma GeneratePullRequestMap_dom (nodes : list genqlient.PullRequestNode)
    (id : string) :
  is_Some ((GeneratePullRequestMap [] nodes).2 !! id)
  <-> id ≠ ""
      ∧ exists prNode,
          prNode ∈ nodes
          ∧ CommitIdFromBranch (genqlient.HeadRefName prNode) = id.
Proof.
  unfold GeneratePullRequestMap. rewrite GeneratePullRequestMap_node_dom.
  rewrite lookup_empty. split; [|by right].
  intros [[? [=]]|?]; done.
Qed.

(** A pull request leaves the reader unstacked. *)
Lemma ComputeMergeStatus_not_stacked (pr : genqlient.PullRequestNode) :
  github.Stacked (ComputeMergeStatus pr) = false.
Proof.
  unfold ComputeMergeStatus. cbn.
  repeat match goal with |- context [String.eqb ?a ?b] =>
    destruct (String.eqb a b) end; reflexivity.
Qed.

Lemma GeneratePullRequestMap_node_ok (h : heap) (prMap : gmap string ptr)
    (nodes : list genqlient.PullRequestNode) :
  prMap_ok h prMap ->
  prMap_ok (fold_left GeneratePullRequestMap_node nodes (h, prMap)).1
    (fold_left GeneratePullRequestMap_node nodes (h, prMap)).2.
Proof.
  revert h prMap. induction nodes as [|n ns IH]; intros h prMap Hok;
    cbn [fold_left]; [done|].
  destruct (GeneratePullRequestMap_node (h, prMap) n) as [h' prMap']
    eqn:Hstep.
  apply IH. unfold GeneratePullRequestMap_node in Hstep.
  destruct (String.eqb_spec
              (CommitIdFromBranch (genqlient.HeadRefName n)) "")
    as [Hempty|Hne]; injection Hstep as <- <-; [done|].
  intros id p Hlookup.
  apply lookup_insert_Some in Hlookup as [[<- <-]|[Hneq Hlookup]].
  - eexists. split; [by apply list_lookup_middle|].
    split; [reflexivity|apply ComputeMergeStatus_not_stacked].
  - destruct (Hok id p Hlookup) as (pr & Hp & Hid & Hst).
    exists pr. split; [|done]. by apply lookup_app_l_Some.
Qed.

Lemma GeneratePullRequestMap_ok (nodes : list genqlient.PullRequestNode) :
  prMap_ok (GeneratePullRequestMap [] nodes).1
    (GeneratePullRequestMap [] nodes).2.
Proof.
  apply GeneratePullRequestMap_node_ok. intros id p Hlookup.
  by rewrite lookup_empty in Hlookup.
Qed.

End PullRequestMap.

(** ** State assembly *)

Section Assembly.

Context (cfg : config.Config) (repositoryId : string)
        (nodes : list genqlient.PullRequestNode)
        (commits : list object.Commit).

(** The components of the assembled state. *)
Lemma NewState_config :
  (NewState cfg repositoryId nodes commits).1.2
  = UpdateRepoToCommitIdToPrSet cfg
      (NewState_attach (GeneratePullRequestMap [] nodes).2
         (GenerateCommits commits))
      (GeneratePullRequestMap [] nodes).2.
Proof.
  unfold NewState. by destruct (GeneratePullRequestMap [] nodes).
Qed.

Lemma NewState_LocalCommits :
  LocalCommits (NewState cfg repositoryId nodes commits).1.1
  = AssignPullRequests (NewState cfg repositoryId nodes commits).1.2
      (NewState_attach (GeneratePullRequestMap [] nodes).2
         (GenerateCommits commits))
      (GeneratePullRequestMap [] nodes).2.
Proof.
  unfold NewState. by destruct (GeneratePullRequestMap [] nodes).
Qed.

Lemma NewState_heap :
  (NewState cfg repositoryId nodes commits).2
  = SetStackedCheck (NewState cfg repositoryId nodes commits).1.2
      (GeneratePullRequestMap [] nodes).1
      (LocalCommits (NewState cfg repositoryId nodes commits).1.1).
Proof.
  unfold NewState. by destruct (GeneratePullRequestMap [] nodes).
Qed.

Lemma NewState_OrphanedPRs :
  OrphanedPRs (NewState cfg repositoryId nodes commits).1.1
  = GetOrphanedPRs
      (NewState_attach (GeneratePullRequestMap [] nodes).2
         (GenerateCommits commits))
      (GeneratePullRequestMap [] nodes).2.
Proof.
  unfold NewState. by destruct (GeneratePullRequestMap [] nodes).
Qed.

Lemma NewState_MutatedPRSets :
  MutatedPRSets (NewState cfg repositoryId nodes commits).1.1 = ∅.
Proof.
  unfold NewState. by destruct (GeneratePullRequestMap [] nodes).
Qed.

End Assembly.

Lemma NewState_attach_CommitID (prMap : gmap string ptr)
    (gitCommits : list LocalCommit) (id : string) :
  (exists cm, cm ∈ NewState_attach prMap gitCommits
              ∧ git.CommitID (Commit cm) = id)
  <-> exists cm, cm ∈ gitCommits ∧ git.CommitID (Commit cm) = id.
Proof.
  unfold NewState_attach. split.
  - intros (cm & Hin & Hid). apply list_elem_of_fmap in Hin as (cm' & -> & Hin).
    by exists cm'.
  - intros (cm & Hin & Hid). eexists. split.
    + apply list_elem_of_fmap. by exists cm.
    + done.
Qed.

(** C10.  An entry commit-id -> pr_index of the persisted map is still
    there after state assembly exactly when the commit-id is that of a
    current local commit and is the commit-id of an open pull request on a
    managed branch; so the entry of a commit that is still there locally
    but has no pull request any more is dropped. *)
Theorem persisted_entry_survives (cfg : config.Config) (repositoryId : string)
    (nodes : list genqlient.PullRequestNode) (commits : list object.Commit)
    (id : string) (k : Z) :
  repoPRSetMap (NewState cfg repositoryId nodes commits).1.2 !! id = Some k
  <-> repoPRSetMap cfg !! id = Some k
      ∧ (exists cm,
           cm ∈ GenerateCommits commits ∧ git.CommitID (Commit cm) = id)
      ∧ (exists prNode,
           prNode ∈ nodes
           ∧ CommitIdFromBranch (genqlient.HeadRefName prNode) = id
           ∧ id ≠ "").
Proof.
  rewrite NewState_config, UpdateRepoToCommitIdToPrSet_lookup.
  rewrite NewState_attach_CommitID, GeneratePullRequestMap_dom.
  split.
  - intros (Hk & Hcm & Hne & n & Hin & Hid). repeat split; try done.
    by exists n.
  - intros (Hk & Hcm & n & Hin & Hid & Hne). repeat split; try done.
    by exists n.
Qed.

(** ** Rewriting the persisted map *)

Section UpdatePRSetState.

Lemma UpdatePRSetState_loop_snoc (l : list LocalCommit) (x : LocalCommit)
    (m : gmap string Z) :
  UpdatePRSetState_loop (l ++ [x]) m
  = match PRIndex x with
    | None => UpdatePRSetState_loop l m
    | Some k => <[git.CommitID (Commit x) := k]> (UpdatePRSetState_loop l m)
    end.
Proof. unfold UpdatePRSetState_loop. by rewrite fold_left_app. Qed.

(** With distinct commit-ids the loop writes, for every commit that has a
    PR-set index, exactly that index. *)
Lemma UpdatePRSetState_loop_lookup (l : list LocalCommit) (id : string)
    (k : Z) :
  NoDup ((fun cm => git.CommitID (Commit cm)) <$> l) ->
  UpdatePRSetState_loop l ∅ !! id = Some k
  <-> exists cm,
        cm ∈ l ∧ git.CommitID (Commit cm) = id ∧ PRIndex cm = Some k.
Proof.
  induction l as [|x l IH] using rev_ind; intros Hnodup.
  - unfold UpdatePRSetState_loop. simpl. rewrite lookup_empty.
    split; [done|]. intros (cm & Hin & _). by apply elem_of_nil in Hin.
  - rewrite fmap_app in Hnodup. apply NoDup_app in Hnodup
      as (Hl & Hfresh & _).
    specialize (IH Hl). rewrite UpdatePRSetState_loop_snoc.
    assert (forall cm, cm ∈ l ->
              git.CommitID (Commit cm) ≠ git.CommitID (Commit x))
      as Hother.
    { intros cm Hin Heq. apply (Hfresh (git.CommitID (Commit cm))).
      - apply list_elem_of_fmap. by exists cm.
      - rewrite Heq. simpl. by left. }
    destruct (PRIndex x) as [kx|] eqn:Hx.
    + destruct (decide (git.CommitID (Commit x) = id)) as [<-|Hne].
      * rewrite lookup_insert_eq. split.
        -- intros [= <-]. exists x. split; [|done].
           apply elem_of_app. right. by left.
        -- intros (cm & [Hin|Hin]%elem_of_app & Hid & Hk).
           ++ by destruct (Hother cm Hin).
           ++ apply list_elem_of_singleton in Hin as ->. congruence.
      * rewrite lookup_insert_ne by done. rewrite IH. split.
        -- intros (cm & Hin & Hid & Hk). exists cm. split; [|done].
           apply elem_of_app. by left.
        -- intros (cm & [Hin|Hin]%elem_of_app & Hid & Hk).
           ++ by exists cm.
           ++ apply list_elem_of_singleton in Hin as ->. done.
    + rewrite IH. split.
      * intros (cm & Hin & Hid & Hk). exists cm. split; [|done].
        apply elem_of_app. by left.
      * intros (cm & [Hin|Hin]%elem_of_app & Hid & Hk).
        -- by exists cm.
        -- apply list_elem_of_singleton in Hin as ->. congruence.
Qed.

(** Whatever the commit-ids, the keys the loop writes are the commit-ids of
    the commits that have a PR-set index. *)
Lemma UpdatePRSetState_loop_keys (l : list LocalCommit) (id : string) :
  is_Some (UpdatePRSetState_loop l ∅ !! id)
  <-> exists cm,
        cm ∈ l ∧ git.CommitID (Commit cm) = id ∧ is_Some (PRIndex cm).
Proof.
  induction l as [|x l IH] using rev_ind.
  - unfold UpdatePRSetState_loop. simpl. rewrite lookup_empty.
    split; [by intros [? ?]|]. intros (cm & Hin & _).
    by apply elem_of_nil in Hin.
  - rewrite UpdatePRSetState_loop_snoc.
    destruct (PRIndex x) as [kx|] eqn:Hx.
    + rewrite lookup_insert_is_Some, IH. split.
      * intros [<-|[Hne (cm & Hin & Hid & Hk)]].
        -- exists x. split; [apply elem_of_app; right; by left|].
           split; [done|]. by rewrite Hx.
        -- exists cm. split; [apply elem_of_app; by left|done].
      * intros (cm & [Hin|Hin]%elem_of_app & Hid & Hk).
        -- destruct (decide (git.CommitID (Commit x) = id)); [by left|].
           right. split; [done|]. by exists cm.
        -- apply list_elem_of_singleton in Hin as ->. by left.
    + rewrite IH. split.
      * intros (cm & Hin & Hid & Hk). exists cm.
        split; [apply elem_of_app; by left|done].
      * intros (cm & [Hin|Hin]%elem_of_app & Hid & Hk).
        -- by exists cm.
        -- apply list_elem_of_singleton in Hin as ->. rewrite Hx in Hk.
           by destruct Hk.
Qed.

End UpdatePRSetState.

(** C5.  After [UpdatePRSetState] the keys of the persisted PR-set map of
    the repository are exactly the commit-ids of the local commits that
    carry a PR-set index; and with distinct commit-ids among the local
    commits every key is mapped to the index of its commit. *)
Theorem UpdatePRSetState_exact (s : State) (cfg : config.Config) :
  (forall id,
     is_Some (repoPRSetMap (UpdatePRSetState s cfg) !! id)
     <-> exists cm,
           cm ∈ LocalCommits s
           ∧ git.CommitID (Commit cm) = id
           ∧ is_Some (PRIndex cm))
  ∧ (NoDup ((fun cm => git.CommitID (Commit cm)) <$> LocalCommits s) ->
     forall id k,
       repoPRSetMap (UpdatePRSetState s cfg) !! id = Some k
       <-> exists cm,
             cm ∈ LocalCommits s
             ∧ git.CommitID (Commit cm) = id
             ∧ PRIndex cm = Some k).
Proof.
  unfold UpdatePRSetState. rewrite repoPRSetMap_setPRSetMap. split.
  - intros id. apply UpdatePRSetState_loop_keys.
  - intros Hnodup id k. by apply UpdatePRSetState_loop_lookup.
Qed.

Lemma UpdatePRSetState_exact_witness :
  NoDup ((fun cm => git.CommitID (Commit cm)) <$> LocalCommits sample_state)
  ∧ (repoPRSetMap (UpdatePRSetState sample_state sample_cfg) !! "33333333"
     = Some 1
     <-> exists cm,
           cm ∈ LocalCommits sample_state
           ∧ git.CommitID (Commit cm) = "33333333"
           ∧ PRIndex cm = Some 1).
Proof.
  assert (NoDup ((fun cm => git.CommitID (Commit cm))
                   <$> LocalCommits sample_state)) as Hnodup
    by (apply (bool_decide_unpack _); vm_compute; exact I).
  split; [exact Hnodup|].
  exact (proj2 (UpdatePRSetState_exact sample_state sample_cfg) Hnodup
           "33333333" 1).
Defined.

(** ** Applying a selection *)

Section ApplyIndices.

(** The first loop, started at [acc]: the result is at least [acc], lies
    above every index met, and is [acc] or one more than an index met. *)
Lemma ApplyIndices_next_loop (commits : list LocalCommit) (acc : Z) :
  pr_indices_in_range commits -> 0 <= acc ->
  let r :=
    fold_left
      (fun next cm =>
         match PRIndex cm with
         | Some k => if next <=? k then wrap64 (k + 1) else next
         | None => next
         end)
      commits acc in
  acc <= r
  ∧ (forall cm k, cm ∈ commits -> PRIndex cm = Some k -> k < r)
  ∧ (r = acc ∨ exists cm, cm ∈ commits ∧ PRIndex cm = Some (r - 1)).
Proof.
  revert acc. induction commits as [|cm cms IH]; intros acc Hrange Hacc;
    cbn [fold_left]; cbv zeta.
  - split; [lia|]. split; [|by left].
    intros cm k Hin. by apply elem_of_nil in Hin.
  - assert (pr_indices_in_range cms) as Hrange'.
    { intros cm' k Hin. apply Hrange. by right. }
    destruct (PRIndex cm) as [k|] eqn:Hk.
    + assert (0 <= k < 2 ^ 63 - 1) as Hkr by (apply (Hrange cm); [by left|done]).
      destruct (Z.leb_spec acc k) as [Hle|Hgt].
      * rewrite wrap64_small by lia.
        destruct (IH (k + 1) Hrange' ltac:(lia)) as (Hge & Hub & Hex).
        split; [lia|]. split.
        -- intros cm' k' [->|Hin]%elem_of_cons Hk'.
           ++ assert (k' = k) by congruence. lia.
           ++ by apply (Hub cm').
        -- right. destruct Hex as [->|(cm' & Hin & Hcm')].
           ++ exists cm. split; [by left|].
              rewrite Hk. f_equal. lia.
           ++ exists cm'. split; [by right|done].
      * destruct (IH acc Hrange' Hacc) as (Hge & Hub & Hex).
        split; [done|]. split.
        -- intros cm' k' [->|Hin]%elem_of_cons Hk'.
           ++ assert (k' = k) by congruence. lia.
           ++ by apply (Hub cm').
        -- destruct Hex as [?|(cm' & Hin & Hcm')]; [by left|].
           right. exists cm'. split; [by right|done].
    + destruct (IH acc Hrange' Hacc) as (Hge & Hub & Hex).
      split; [done|]. split.
      * intros cm' k' [->|Hin]%elem_of_cons Hk'; [congruence|].
        by apply (Hub cm').
      * destruct Hex as [?|(cm' & Hin & Hcm')]; [by left|].
        right. exists cm'. split; [by right|done].
Qed.

(** The next free index is one more than the largest index in use. *)
Lemma ApplyIndices_next_spec (commits : list LocalCommit) :
  pr_indices_in_range commits ->
  is_next_pr_index commits (ApplyIndices_next commits).
Proof.
  intros Hrange. unfold ApplyIndices_next.
  destruct (ApplyIndices_next_loop commits 0 Hrange ltac:(lia))
    as (Hge & Hub & Hex).
  set (r := fold_left _ commits 0) in *.
  destruct Hex as [Hr|(cm & Hin & Hcm)].
  - left. split; [|done]. intros cm Hin.
    destruct (PRIndex cm) as [k|] eqn:Hk; [|done].
    specialize (Hub cm k Hin Hk). specialize (Hrange cm k Hin Hk). lia.
  - right. exists (r - 1). split; [|lia]. split; [by exists cm|].
    intros cm' k Hin' Hk. specialize (Hub cm' k Hin' Hk). lia.
Qed.

(** The second loop rewrites the commits one by one: a selected commit
    joins the destination set, an unselected member leaves it, the others
    are kept. *)
Lemma ApplyIndices_loop_commits (dest : Z) (commitIndexes : gset Z)
    (commits : list LocalCommit) (orphaned : gset (option ptr))
    (mutated : gset Z) :
  (ApplyIndices_loop dest commitIndexes commits orphaned mutated).1.1
  = ApplyIndices_commit dest commitIndexes <$> commits.
Proof.
  revert orphaned mutated.
  induction commits as [|cm cms IH]; intros orphaned mutated; [done|].
  cbn [ApplyIndices_loop fmap list_fmap]. unfold ApplyIndices_commit at 1.
  assert (match PRIndex cm with Some k => k =? dest | None => false end
          = bool_decide (PRIndex cm = Some dest)) as ->.
  { destruct (PRIndex cm) as [k|]; [|done].
    destruct (Z.eqb_spec k dest) as [->|Hne].
    - by rewrite bool_decide_eq_true_2.
    - rewrite bool_decide_eq_false_2; [done|congruence]. }
  destruct (bool_decide (Index cm ∈ commitIndexes)) eqn:Hshould;
    destruct (bool_decide (PRIndex cm = Some dest)) eqn:Hin;
    cbn [andb negb];
    match goal with
    | |- context [ApplyIndices_loop ?d ?c cms ?o ?m] =>
        specialize (IH o m);
        destruct (ApplyIndices_loop d c cms o m) as [[rest' o'] m']
    end; cbn [fst snd] in *; rewrite IH; try done.
  apply bool_decide_eq_true in Hin. f_equal.
  destruct cm as [c p i k]. simpl in *. by subst k.
Qed.

(** After the loop the destination set is the selection. *)
Lemma ApplyIndices_commit_member (dest : Z) (commitIndexes : gset Z)
    (cm : LocalCommit) :
  PRIndex (ApplyIndices_commit dest commitIndexes cm) = Some dest
  <-> Index (ApplyIndices_commit dest commitIndexes cm) ∈ commitIndexes.
Proof.
  unfold ApplyIndices_commit.
  destruct (bool_decide (Index cm ∈ commitIndexes)) eqn:Hshould.
  - apply bool_decide_eq_true in Hshould. simpl. by split.
  - apply bool_decide_eq_false in Hshould.
    destruct (bool_decide (PRIndex cm = Some dest)) eqn:Hin.
    + simpl. by split.
    + apply bool_decide_eq_false in Hin. by split.
Qed.

Lemma existingPRSets_loop (commits : list LocalCommit) (acc : gset Z)
    (k : Z) :
  k ∈ fold_left
        (fun acc cm =>
           match PRIndex cm with
           | None => acc
           | Some k => {[k]} ∪ acc
           end)
        commits acc
  <-> k ∈ acc ∨ exists cm, cm ∈ commits ∧ PRIndex cm = Some k.
Proof.
  revert acc. induction commits as [|cm cms IH]; intros acc;
    cbn [fold_left].
  - split; [by left|]. intros [?|(cm & Hin & _)]; [done|].
    by apply elem_of_nil in Hin.
  - rewrite IH. clear IH. split.
    + intros [Hacc|(cm' & Hin & Hk)].
      * destruct (PRIndex cm) as [k'|] eqn:Hcm; [|by left].
        apply elem_of_union in Hacc as [->%elem_of_singleton|?];
          [|by left].
        right. exists cm. split; [by left|done].
      * right. exists cm'. split; [by right|done].
    + intros [Hacc|(cm' & [->|Hin]%elem_of_cons & Hk)].
      * left. destruct (PRIndex cm); [|done].
        apply elem_of_union. by right.
      * left. rewrite Hk. apply elem_of_union. left.
        by apply elem_of_singleton.
      * right. by exists cm'.
Qed.

(** The existing PR sets are the indices some commit carries. *)
Lemma existingPRSets_spec (commits : list LocalCommit) (k : Z) :
  k ∈ existingPRSets commits
  <-> exists cm, cm ∈ commits ∧ PRIndex cm = Some k.
Proof.
  unfold existingPRSets. rewrite existingPRSets_loop. split.
  - intros [Hin|?]; [by apply elem_of_empty in Hin|done].
  - by right.
Qed.

Lemma size_zero_empty (X : gset Z) :
  (Z.of_nat (size X) =? 0) = true <-> X = ∅.
Proof.
  rewrite Z.eqb_eq. split.
  - intros Hsize. apply leibniz_equiv, size_empty_inv. lia.
  - intros ->. by rewrite size_empty.
Qed.

(** Unless it is the no-op, [ApplyIndices] ends on the pruning. *)
Lemma ApplyIndices_not_noop (s : State) (indices : Indices) :
  DestinationPRIndex indices ≠ None ∨ CommitIndexes indices ≠ ∅ ->
  exists dest commits orphaned mutated,
    ApplyIndices_loop dest (CommitIndexes indices) (LocalCommits s)
      (OrphanedPRs s) (MutatedPRSets s)
    = (commits, orphaned, mutated)
    ∧ dest = match DestinationPRIndex indices with
             | None => ApplyIndices_next (LocalCommits s)
             | Some d => d
             end
    ∧ ApplyIndices s indices
      = (mkState (RepositoryId s) commits orphaned
           (mutated ∩ existingPRSets commits),
         mkIndices (Some dest) (CommitIndexes indices)).
Proof.
  intros Hnot. unfold ApplyIndices.
  assert (bool_decide (DestinationPRIndex indices = None)
          && (Z.of_nat (size (CommitIndexes indices)) =? 0) = false) as ->.
  { apply andb_false_iff. destruct Hnot as [Hd|Hc].
    - left. by apply bool_decide_eq_false.
    - right. apply not_true_iff_false. by rewrite size_zero_empty. }
  cbn [CommitIndexes].
  destruct (ApplyIndices_loop _ _ _ _ _) as [[commits orphaned] mutated]
    eqn:Hloop.
  eexists _, commits, orphaned, mutated. by split; [exact Hloop|].
Qed.

End ApplyIndices.

Lemma pr_indices_in_range_Forall (commits : list LocalCommit) :
  Forall (fun cm => match PRIndex cm with
                    | Some k => 0 <= k < 2 ^ 63 - 1
                    | None => True
                    end) commits ->
  pr_indices_in_range commits.
Proof.
  intros Hall cm k Hin Hk. rewrite Forall_forall in Hall.
  specialize (Hall cm Hin). by rewrite Hk in Hall.
Qed.

(** C3.  With PR-set indices in range, applying a selection whose
    destination is nil and whose commit set is empty returns the state and
    the selection as they were; with a nil destination and a non-empty
    commit set the destination written back is one more than the largest
    PR-set index among the local commits, 0 when there is none, and the
    commits of that set are afterwards the selected ones. *)
Theorem ApplyIndices_nil_destination (s : State) (commitIndexes : gset Z) :
  pr_indices_in_range (LocalCommits s) ->
  (commitIndexes = ∅ ->
   ApplyIndices s (mkIndices None commitIndexes)
   = (s, mkIndices None commitIndexes))
  ∧ (commitIndexes ≠ ∅ ->
     exists d,
       DestinationPRIndex (ApplyIndices s (mkIndices None commitIndexes)).2
       = Some d
       ∧ is_next_pr_index (LocalCommits s) d
       ∧ forall cm,
           cm ∈ LocalCommits (ApplyIndices s (mkIndices None commitIndexes)).1 ->
           PRIndex cm = Some d <-> Index cm ∈ commitIndexes).
Proof.
  intros Hrange. split.
  - intros ->. unfold ApplyIndices. cbn [DestinationPRIndex CommitIndexes].
    rewrite bool_decide_eq_true_2 by done.
    by rewrite (proj2 (size_zero_empty ∅)).
  - intros Hne.
    destruct (ApplyIndices_not_noop s (mkIndices None commitIndexes))
      as (dest & commits & orphaned & mutated & Hloop & Hdest & ->);
      [by right|].
    simpl in *. exists dest. split; [done|]. split.
    + subst dest. by apply ApplyIndices_next_spec.
    + intros cm Hin.
      assert (commits
              = ApplyIndices_commit dest commitIndexes <$> LocalCommits s)
        as Hcommits.
      { rewrite <- ApplyIndices_loop_commits
          with (orphaned := OrphanedPRs s) (mutated := MutatedPRSets s).
        by rewrite Hloop. }
      rewrite Hcommits in Hin.
      apply list_elem_of_fmap in Hin as (cm0 & -> & _).
      apply ApplyIndices_commit_member.
Qed.

Lemma ApplyIndices_nil_destination_witness :
  (({[4]} : gset Z) = ∅ ->
   ApplyIndices sample_state (mkIndices None {[4]})
   = (sample_state, mkIndices None {[4]}))
  ∧ (({[4]} : gset Z) ≠ ∅ ->
     exists d,
       DestinationPRIndex (ApplyIndices sample_state (mkIndices None {[4]})).2
       = Some d
       ∧ is_next_pr_index (LocalCommits sample_state) d
       ∧ forall cm,
           cm ∈ LocalCommits
                  (ApplyIndices sample_state (mkIndices None {[4]})).1 ->
           PRIndex cm = Some d <-> Index cm ∈ ({[4]} : gset Z)).
Proof.
  apply (ApplyIndices_nil_destination sample_state {[4]}).
  apply pr_indices_in_range_Forall. repeat constructor; simpl; lia.
Defined.

(** C8.  After a selection is applied every index left among the mutated
    PR sets has a member among the local commits: a mutated set without
    members is removed.  (The call that does nothing, with a nil
    destination and no commit, leaves the collection as it found it.) *)
Theorem ApplyIndices_prunes_vanished_sets (s : State) (indices : Indices) :
  DestinationPRIndex indices ≠ None
  ∨ CommitIndexes indices ≠ ∅
  ∨ mutated_sets_inhabited s ->
  mutated_sets_inhabited (ApplyIndices s indices).1.
Proof.
  intros Hcases.
  assert ((DestinationPRIndex indices ≠ None ∨ CommitIndexes indices ≠ ∅)
          ∨ (DestinationPRIndex indices = None
             ∧ CommitIndexes indices = ∅ ∧ mutated_sets_inhabited s))
    as [Hnot|(Hd & Hc & Hinh)].
  { destruct (decide (DestinationPRIndex indices = None)) as [Hd|Hd];
      [|by left; left].
    destruct (decide (CommitIndexes indices = ∅)) as [Hc|Hc];
      [|by left; right].
    right. by destruct Hcases as [?|[?|?]]. }
  - destruct (ApplyIndices_not_noop s indices Hnot)
      as (dest & commits & orphaned & mutated & _ & _ & ->).
    intros k Hk. simpl in *.
    apply elem_of_intersection in Hk as [_ Hk].
    by apply existingPRSets_spec.
  - unfold ApplyIndices. rewrite Hd, Hc.
    rewrite bool_decide_eq_true_2 by done.
    by rewrite (proj2 (size_zero_empty ∅)).
Qed.

Lemma ApplyIndices_prunes_vanished_sets_witness :
  mutated_sets_inhabited
    (ApplyIndices sample_state (mkIndices (Some 0) ∅)).1
  ∧ MutatedPRSets (ApplyIndices sample_state (mkIndices (Some 0) ∅)).1 = ∅
  ∧ MutatedPRSets (ApplyIndices sample_state (mkIndices None {[0]})).1
    = {[0; 3]}.
Proof.
  split.
  - apply (ApplyIndices_prunes_vanished_sets sample_state
             (mkIndices (Some 0) ∅)).
    left. simpl. discriminate.
  - split; apply (bool_decide_unpack _); vm_compute; exact I.
Defined.

(** ** The pre-merge check gate *)

Section MergeCheck.

Lemma CommitsByPRSet_none (index : Z) (commits : list LocalCommit) :
  (forall c, c ∈ commits -> PRIndex c ≠ Some index) ->
  List.filter
    (fun ci => match PRIndex ci with
               | None => false
               | Some k => k =? index
               end) commits = [].
Proof.
  induction commits as [|c cs IH]; intros Hnone; [done|].
  simpl. rewrite IH by (intros c' Hin; apply Hnone; by right).
  specialize (Hnone c ltac:(by left)).
  destruct (PRIndex c) as [k|]; [|done].
  destruct (Z.eqb_spec k index) as [->|]; done.
Qed.

(** The commits of a set start with its newest commit. *)
Lemma CommitsByPRSet_newest (s : State) (index : Z) (cm : LocalCommit) :
  newest_in_set s index cm ->
  exists rest, CommitsByPRSet s index = cm :: rest.
Proof.
  intros (newer & older & Hcommits & Hcm & Hnewer).
  unfold CommitsByPRSet. rewrite Hcommits, List.filter_app.
  rewrite CommitsByPRSet_none by done. simpl.
  rewrite Hcm, Z.eqb_refl. by eexists.
Qed.

(** A commit of the set makes it non-empty, with a newest commit. *)
Lemma CommitsByPRSet_head (s : State) (index : Z) (cm : LocalCommit)
    (rest : list LocalCommit) :
  CommitsByPRSet s index = cm :: rest -> newest_in_set s index cm.
Proof.
  unfold CommitsByPRSet, newest_in_set.
  induction (LocalCommits s) as [|c cs IH]; [done|]. simpl.
  destruct (PRIndex c) as [k|] eqn:Hk.
  - destruct (Z.eqb_spec k index) as [->|Hne].
    + intros [= -> _]. exists [], cs. split; [done|]. split; [done|].
      intros c' Hin. by apply elem_of_nil in Hin.
    + intros Hfilter.
      destruct (IH Hfilter) as (newer & older & -> & Hcm & Hnewer).
      exists (c :: newer), older. split; [done|]. split; [done|].
      intros c' [->|Hin]%elem_of_cons; [congruence|by apply Hnewer].
  - intros Hfilter.
    destruct (IH Hfilter) as (newer & older & -> & Hcm & Hnewer).
    exists (c :: newer), older. split; [done|]. split; [done|].
    intros c' [->|Hin]%elem_of_cons; [congruence|by apply Hnewer].
Qed.

(** The gate alone: it lets the merge go on exactly when a record exists
    and is SKIP or the hash of the newest commit. *)
Lemma MergePRSet_mergeCheck_spec (cfg : config.Config) (state : State)
    (index : Z) (key : string) (lastCommit : LocalCommit) (w : world)
    (tr : list call) :
  config.MergeCheck (config.Repo cfg) ≠ "" ->
  newest_in_set state index lastCommit ->
  (merge_check_recorded cfg key (git.CommitHash (Commit lastCommit))
   ∧ MergePRSet_mergeCheck cfg state index key w tr = (tr, Return tt))
  ∨ (¬ merge_check_recorded cfg key (git.CommitHash (Commit lastCommit))
     ∧ MergePRSet_mergeCheck cfg state index key w tr
       = (tr, Exit MergeCheckRequired)).
Proof.
  intros Hcheck Hnewest.
  destruct (CommitsByPRSet_newest _ _ _ Hnewest) as [rest Hcommits].
  unfold MergePRSet_mergeCheck. rewrite Hcommits.
  apply String.eqb_neq in Hcheck. rewrite Hcheck. cbn [negb].
  unfold merge_check_recorded.
  destruct (config.MergeCheckCommit (config.State cfg) !! key)
    as [checked|] eqn:Hrec.
  - destruct (String.eqb_spec checked "SKIP") as [->|Hskip]; cbn [negb andb].
    + left. split; [|done]. exists "SKIP". split; [done|by left].
    + destruct (String.eqb_spec (git.CommitHash (Commit lastCommit)) checked)
        as [Heq|Hne]; cbn [negb].
      * left. split; [|done]. exists checked. split; [done|by right].
      * right. split; [|done].
        intros (c & [= <-] & [?|?]); congruence.
  - right. split; [|done]. by intros (c & [=] & _).
Qed.

End MergeCheck.

(** C6.  With a pre-merge check configured and a non-empty PR set, the
    merge exits with the merge-check-required error, before any merge step,
    unless a last passing commit hash is on record and is the literal SKIP
    or the hash of the newest commit of the set, in which case the merge
    steps run; with no record at all it exits with that error. *)
Theorem MergePRSet_requires_merge_check
    (mergeSteps : list LocalCommit -> M unit) (cfg : config.Config)
    (state : State) (setIndex : string) (index : Z) (key : string)
    (lastCommit : LocalCommit) (w : world) (tr : list call) :
  config.MergeCheck (config.Repo cfg) ≠ "" ->
  newest_in_set state index lastCommit ->
  (¬ merge_check_recorded cfg key (git.CommitHash (Commit lastCommit)) ->
   MergePRSet mergeSteps cfg state setIndex index key w tr
   = (tr, Exit MergeCheckRequired))
  ∧ (merge_check_recorded cfg key (git.CommitHash (Commit lastCommit)) ->
     MergePRSet mergeSteps cfg state setIndex index key w tr
     = mergeSteps (rev (CommitsByPRSet state index)) w tr)
  ∧ (config.MergeCheckCommit (config.State cfg) !! key = None ->
     MergePRSet mergeSteps cfg state setIndex index key w tr
     = (tr, Exit MergeCheckRequired)).
Proof.
  intros Hcheck Hnewest.
  destruct (CommitsByPRSet_newest _ _ _ Hnewest) as [rest Hcommits].
  assert (forall r,
            MergePRSet_mergeCheck cfg state index key w tr = (tr, r) ->
            MergePRSet mergeSteps cfg state setIndex index key w tr
            = match r with
              | Return _ => mergeSteps (rev (CommitsByPRSet state index)) w tr
              | Exit msg => (tr, Exit msg)
              end) as Hrun.
  { intros r Hr. unfold MergePRSet, bind. rewrite Hr.
    destruct r as [[]|msg]; [|done]. by rewrite Hcommits. }
  destruct (MergePRSet_mergeCheck_spec cfg state index key lastCommit w tr
              Hcheck Hnewest) as [[Hrec Hgate]|[Hnot Hgate]];
    rewrite (Hrun _ Hgate).
  - split; [by intros Hnot|]. split; [done|].
    intros Hnone. destruct Hrec as (c & Hc & _). congruence.
  - split; [done|]. split; [by intros Hrec|done].
Qed.

Lemma MergePRSet_requires_merge_check_witness :
  (¬ merge_check_recorded sample_cfg "owner/repo" "H2222222" ->
   MergePRSet (fun _ => ret tt) sample_cfg sample_state "s0" 0 "owner/repo"
     (fun _ _ => None) []
   = ([], Exit MergeCheckRequired))
  ∧ (merge_check_recorded sample_cfg "owner/repo" "H2222222" ->
     MergePRSet (fun _ => ret tt) sample_cfg sample_state "s0" 0 "owner/repo"
       (fun _ _ => None) []
     = ret tt (fun _ _ => None) [])
  ∧ (config.MergeCheckCommit (config.State sample_cfg) !! "owner/repo" = None ->
     MergePRSet (fun _ => ret tt) sample_cfg sample_state "s0" 0 "owner/repo"
       (fun _ _ => None) []
     = ([], Exit MergeCheckRequired)).
Proof.
  apply (MergePRSet_requires_merge_check (fun _ => ret tt) sample_cfg
           sample_state "s0" 0 "owner/repo"
           (sample_commit "22222222" "H2222222" 1 (Some 1%nat) (Some 0))
           (fun _ _ => None) []).
  - simpl. discriminate.
  - apply (CommitsByPRSet_head sample_state 0 _
             [sample_commit "11111111" "H1111111" 0 (Some 0%nat) (Some 0)]).
    reflexivity.
Defined.

(** On the sample state the record is for the newest commit of set 1, not
    of set 0: merging set 0 exits, merging set 1 goes on. *)
Example MergePRSet_sample :
  MergePRSet (fun _ => ret tt) sample_cfg sample_state "s0" 0 "owner/repo"
    (fun _ _ => None) []
  = ([], Exit MergeCheckRequired)
  ∧ MergePRSet (fun _ => ret tt) sample_cfg sample_state "s1" 1 "owner/repo"
      (fun _ _ => None) []
    = ([], Return tt).
Proof. split; reflexivity. Qed.

(** ** The stacked bit *)

Section Stacked.

Context (cfg : config.Config).

Lemma SetStackedCheck_passes_spec (cm : LocalCommit)
    (pr : github.PullRequest) :
  SetStackedCheck_passes cfg cm pr = true <-> gating_ok cfg cm pr.
Proof.
  unfold SetStackedCheck_passes, gating_ok.
  destruct (git.WIP (Commit cm)); [by split; [|intros [? _]]|].
  destruct (github.NoConflicts (github.MergeStatus pr));
    [|by split; [|intros (_ & ? & _)]].
  cbn [negb].
  destruct (config.RequireChecks (config.Repo cfg)); cbn [andb].
  - case_bool_decide as Hchecks; cbn [negb].
    + destruct (config.RequireApproval (config.Repo cfg)); cbn [andb].
      * destruct (github.ReviewApproved (github.MergeStatus pr));
          cbn [negb]; [done|].
        split; [done|]. intros (_ & _ & _ & Happ). by specialize (Happ eq_refl).
      * done.
    + split; [done|]. intros (_ & _ & Hc & _). by specialize (Hc eq_refl).
  - destruct (config.RequireApproval (config.Repo cfg)); cbn [andb].
    + destruct (github.ReviewApproved (github.MergeStatus pr));
        cbn [negb]; [done|].
      split; [done|]. intros (_ & _ & _ & Happ). by specialize (Happ eq_refl).
    + done.
Qed.

(** Marking changes the stacked bit only. *)
Lemma SetStackedCheck_passes_markStacked (cm : LocalCommit)
    (pr : github.PullRequest) :
  SetStackedCheck_passes cfg cm (markStacked pr)
  = SetStackedCheck_passes cfg cm pr.
Proof. reflexivity. Qed.

Lemma markStacked_idemp (pr : github.PullRequest) :
  markStacked (markStacked pr) = markStacked pr.
Proof. reflexivity. Qed.

Lemma lookup_insert_markStacked (h : heap) (p q : ptr)
    (pr : github.PullRequest) :
  h !! p = Some pr ->
  <[p := markStacked pr]> h !! q
  = if decide (p = q) then Some (markStacked pr) else h !! q.
Proof.
  intros Hp. destruct (decide (p = q)) as [<-|Hne].
  - apply list_lookup_insert_eq. by eapply lookup_lt_Some.
  - by apply list_lookup_insert_ne.
Qed.

(** The sweep reads nothing that marking changes. *)
Lemma SetStackedCheck_swept_insert (h : heap) (p : ptr)
    (pr : github.PullRequest) (commits : list LocalCommit) :
  h !! p = Some pr ->
  SetStackedCheck_swept cfg (<[p := markStacked pr]> h) commits
  = SetStackedCheck_swept cfg h commits.
Proof.
  intros Hp. induction commits as [|cm cms IH]; [done|].
  cbn [SetStackedCheck_swept]. rewrite IH.
  destruct (PullRequest cm) as [q|]; [|done].
  rewrite (lookup_insert_markStacked h p q pr Hp).
  destruct (decide (p = q)) as [<-|Hne]; [|done].
  by rewrite Hp, SetStackedCheck_passes_markStacked.
Qed.

(** The store after the loop: the swept pull requests are marked, the
    others are as they were. *)
Lemma SetStackedCheck_loop_lookup (h : heap) (commits : list LocalCommit)
    (p : ptr) :
  SetStackedCheck_loop cfg h commits !! p
  = (fun pr =>
       if bool_decide (p ∈ SetStackedCheck_swept cfg h commits)
       then markStacked pr else pr) <$> h !! p.
Proof.
  revert h. induction commits as [|cm cms IH]; intros h.
  - cbn. rewrite bool_decide_eq_false_2 by apply not_elem_of_nil.
    by destruct (h !! p).
  - cbn [SetStackedCheck_loop SetStackedCheck_swept].
    destruct (PullRequest cm) as [q|]; [|apply IH].
    destruct (h !! q) as [pr|] eqn:Hq.
    + destruct (SetStackedCheck_passes cfg cm pr).
      * rewrite IH, (SetStackedCheck_swept_insert h q pr cms Hq).
        rewrite (lookup_insert_markStacked h q p pr Hq).
        destruct (decide (q = p)) as [->|Hne].
        -- rewrite Hq. cbn.
           rewrite (bool_decide_eq_true_2 (p ∈ p :: _)) by by left.
           by destruct (bool_decide _).
        -- destruct (h !! p) as [pr'|]; [|done]. cbn. f_equal.
           destruct (decide (p ∈ SetStackedCheck_swept cfg h cms))
             as [Hin|Hnin].
           ++ rewrite !bool_decide_eq_true_2; [done|by right|done].
           ++ rewrite !bool_decide_eq_false_2; [done| |done].
              intros [->|?]%elem_of_cons; done.
      * rewrite bool_decide_eq_false_2 by apply not_elem_of_nil.
        by destruct (h !! p).
    + rewrite bool_decide_eq_false_2 by apply not_elem_of_nil.
      by destruct (h !! p).
Qed.

Lemma commit_ok_passes (h : heap) (cm : LocalCommit) (p : ptr)
    (pr : github.PullRequest) :
  PullRequest cm = Some p -> h !! p = Some pr ->
  commit_ok cfg h cm <-> SetStackedCheck_passes cfg cm pr = true.
Proof.
  intros Hcm Hp. unfold commit_ok. rewrite Hcm, SetStackedCheck_passes_spec.
  split.
  - intros (pr' & Hp' & Hok). congruence.
  - intros Hok. by exists pr.
Qed.

(** A pull request is swept exactly when it is that of a commit such that
    this commit and all the commits before it in the sweep are fine. *)
Lemma SetStackedCheck_swept_spec (h : heap) (commits : list LocalCommit)
    (p : ptr) :
  p ∈ SetStackedCheck_swept cfg h commits
  <-> exists before cm after,
        commits = (before ++ cm :: after)%list
        ∧ PullRequest cm = Some p
        ∧ Forall (commit_ok cfg h) (before ++ [cm]).
Proof.
  induction commits as [|c cs IH].
  - split; [by intros Hin%elem_of_nil|].
    intros (before & cm & after & Heq & _). by destruct before.
  - cbn [SetStackedCheck_swept].
    assert ((exists before cm after,
               c :: cs = (before ++ cm :: after)%list
               ∧ PullRequest cm = Some p
               ∧ Forall (commit_ok cfg h) (before ++ [cm]))
            <-> (PullRequest c = Some p ∧ commit_ok cfg h c)
                ∨ (commit_ok cfg h c
                   ∧ exists before cm after,
                       cs = (before ++ cm :: after)%list
                       ∧ PullRequest cm = Some p
                       ∧ Forall (commit_ok cfg h) (before ++ [cm])))
      as ->.
    { split.
      - intros (before & cm & after & Heq & Hcm & Hall).
        destruct before as [|b before]; simplify_eq/=.
        + left. split; [done|]. by inversion Hall.
        + inversion Hall as [|? ? Hb Hall']; subst. right. split; [done|].
          by exists before, cm, after.
      - intros [[Hc Hok]|[Hok (before & cm & after & -> & Hcm & Hall)]].
        + exists [], c, cs. split; [done|]. split; [done|].
          by constructor.
        + exists (c :: before), cm, after. split; [done|]. split; [done|].
          by constructor. }
    rewrite <- IH. clear IH.
    destruct (PullRequest c) as [q|] eqn:Hc.
    + destruct (h !! q) as [pr|] eqn:Hq.
      * rewrite (commit_ok_passes h c q pr Hc Hq).
        destruct (SetStackedCheck_passes cfg c pr).
        -- rewrite elem_of_cons. split.
           ++ intros [->|?]; [by left|by right].
           ++ intros [[[= ->] _]|[_ ?]]; [by left|by right].
        -- split; [by intros Hin%elem_of_nil|].
           by intros [[_ ?]|[? _]].
      * split; [by intros Hin%elem_of_nil|].
        unfold commit_ok. rewrite Hc.
        intros [[_ (pr & Hpr & _)]|[(pr & Hpr & _) _]]; congruence.
    + split.
      * intros Hin. right. split; [|done]. unfold commit_ok. by rewrite Hc.
      * by intros [[? _]|[_ ?]].
Qed.

(** Whether a commit holds the sweep back is the same before and after
    the sweep. *)
Lemma commit_ok_SetStackedCheck_loop (h : heap)
    (commits : list LocalCommit) (cm : LocalCommit) :
  commit_ok cfg (SetStackedCheck_loop cfg h commits) cm
  <-> commit_ok cfg h cm.
Proof.
  unfold commit_ok. destruct (PullRequest cm) as [p|]; [|done].
  rewrite SetStackedCheck_loop_lookup. split.
  - intros (pr' & Hp & Hok). destruct (h !! p) as [pr|]; [|done].
    exists pr. split; [done|]. simpl in Hp. injection Hp as <-.
    by destruct (bool_decide _).
  - intros (pr & -> & Hok). eexists. split; [done|].
    by destruct (bool_decide _).
Qed.

End Stacked.

Section StackedAssembly.

(** With distinct keys an element splits a list in one way only. *)
Lemma NoDup_fmap_split {A B : Type} (f : A -> B) (l a a' b b' : list A)
    (x x' : A) :
  NoDup (f <$> l) ->
  l = (a ++ x :: b)%list -> l = (a' ++ x' :: b')%list -> f x = f x' ->
  a = a' ∧ x = x' ∧ b = b'.
Proof.
  revert l a'. induction a as [|y a IH]; intros l a' Hnodup -> Heq Hf.
  - destruct a' as [|y' a']; cbn [app] in Heq; injection Heq as -> Hb.
    + done.
    + subst b. cbn [app fmap list_fmap] in Hnodup.
      apply NoDup_cons in Hnodup as [Hnotin _]. destruct Hnotin.
      rewrite Hf. apply list_elem_of_fmap. exists x'. split; [done|].
      apply elem_of_app. right. by left.
  - destruct a' as [|y' a']; cbn [app] in Heq; injection Heq as -> Hb;
      cbn [app fmap list_fmap] in Hnodup;
      apply NoDup_cons in Hnodup as [Hnotin Hnodup].
    + subst b'. destruct Hnotin.
      rewrite <- Hf. apply list_elem_of_fmap. exists x. split; [done|].
      apply elem_of_app. right. by left.
    + destruct (IH _ a' Hnodup eq_refl Hb Hf) as (-> & -> & ->). done.
Qed.

(** In the assembled state the pull request of a commit is the one
    stored under its commit-id. *)
Lemma AssignPullRequests_PullRequest (cfg : config.Config)
    (prMap : gmap string ptr) (gitCommits : list LocalCommit)
    (cm : LocalCommit) :
  cm ∈ AssignPullRequests cfg (NewState_attach prMap gitCommits) prMap ->
  PullRequest cm = prMap !! git.CommitID (Commit cm).
Proof.
  unfold AssignPullRequests, NewState_attach.
  rewrite <- list_fmap_compose.
  intros (g & -> & _)%list_elem_of_fmap. cbn.
  destruct (prMap !! git.CommitID (Commit g)) as [p|] eqn:Hp; [|done].
  by destruct (repoPRSetMap cfg !! git.CommitID (Commit g)).
Qed.

Lemma Forall_commit_ok_SetStackedCheck (cfg : config.Config) (h : heap)
    (commits cs : list LocalCommit) :
  Forall (commit_ok cfg (SetStackedCheck cfg h commits)) cs
  <-> Forall (commit_ok cfg h) cs.
Proof.
  unfold SetStackedCheck. rewrite !Forall_forall.
  split; intros Hall c Hc.
  - by apply (commit_ok_SetStackedCheck_loop cfg h (rev commits)), Hall.
  - by apply (commit_ok_SetStackedCheck_loop cfg h (rev commits)), Hall.
Qed.

End StackedAssembly.

(** C2 (as stated, fails).  Two commits in two PR sets: the older one, in
    set 0, has a conflicting pull request; the newer one, alone in set 1,
    has a pull request that meets every requirement.  No pull request lies
    below the newer commit in its own set, so the claim makes its stacked
    bit true; the sweep stops at the older commit and leaves it false. *)
Lemma stacked_counterexample :
  LocalCommits stacked_assembled.1.1 = [stacked_commit_b; stacked_commit_a]
  ∧ stacked_assembled.2 !! 1%nat = Some stacked_pr_b
  ∧ github.Stacked (github.MergeStatus stacked_pr_b) = false
  ∧ stacked_in_set_spec stacked_assembled.1.2 stacked_assembled.2
      (LocalCommits stacked_assembled.1.1) 0.
Proof.
  assert (LocalCommits stacked_assembled.1.1
          = [stacked_commit_b; stacked_commit_a]) as Hcommits
    by (vm_compute; reflexivity).
  split; [done|]. split; [vm_compute; reflexivity|]. split; [done|].
  rewrite Hcommits. intros cm j cmj Hi Hlt Hj _ Hset.
  injection Hi as <-.
  destruct j as [|[|j]]; [lia| |done].
  injection Hj as <-. discriminate Hset.
Qed.

(** C2 (amended).  After state assembly, with distinct commit-ids among the
    local commits, the stacked bit of the pull request of a local commit is
    true if and only if this commit and every older local commit, in
    whatever PR set, either has no pull request or has one that meets the
    gating requirements (no conflicts and, when the configuration requires
    them, passing checks and an approving review) and is not WIP. *)
Theorem NewState_stacked (cfg : config.Config) (repositoryId : string)
    (nodes : list genqlient.PullRequestNode) (commits : list object.Commit)
    (st : State) (cfg' : config.Config) (h : heap)
    (newer older : list LocalCommit) (cm : LocalCommit) (p : ptr)
    (pr : github.PullRequest) :
  NewState cfg repositoryId nodes commits = (st, cfg', h) ->
  NoDup ((fun c => git.CommitID (Commit c)) <$> LocalCommits st) ->
  LocalCommits st = (newer ++ cm :: older)%list ->
  PullRequest cm = Some p ->
  h !! p = Some pr ->
  github.Stacked (github.MergeStatus pr) = true
  <-> Forall (commit_ok cfg' h) (cm :: older).
Proof.
  intros Hnew Hnodup Hsplit Hcm Hp.
  pose proof (GeneratePullRequestMap_ok nodes) as Hok.
  unfold NewState in Hnew.
  destruct (GeneratePullRequestMap [] nodes) as [h0 prMap].
  cbn [fst snd] in Hok. injection Hnew as <- <- <-.
  cbn [LocalCommits] in Hnodup, Hsplit.
  set (cfg' := UpdateRepoToCommitIdToPrSet cfg
                 (NewState_attach prMap (GenerateCommits commits)) prMap)
    in *.
  set (L := AssignPullRequests cfg'
              (NewState_attach prMap (GenerateCommits commits)) prMap) in *.
  assert (forall c, c ∈ L ->
            PullRequest c = prMap !! git.CommitID (Commit c)) as Hptr.
  { intros c Hc. by apply AssignPullRequests_PullRequest in Hc. }
  rewrite Forall_commit_ok_SetStackedCheck.
  unfold SetStackedCheck in Hp. rewrite SetStackedCheck_loop_lookup in Hp.
  assert (cm ∈ L) as Hin
    by (rewrite Hsplit; apply elem_of_app; right; by left).
  assert (prMap !! git.CommitID (Commit cm) = Some p) as Hkey
    by (by rewrite <- (Hptr cm Hin)).
  destruct (Hok _ _ Hkey) as (pr0 & Hp0 & Hid0 & Hst0).
  rewrite Hp0 in Hp. cbn in Hp. injection Hp as <-.
  case_bool_decide as Hswept.
  - split; [intros _|done].
    apply SetStackedCheck_swept_spec in Hswept
      as (before & cm' & after & Hrev & Hcm' & Hall).
    assert (L = (rev after ++ cm' :: rev before)%list)
      as Hsplit'.
    { rewrite <- (rev_involutive L), Hrev.
      rewrite rev_app_distr. cbn [rev]. by rewrite <- app_assoc. }
    assert (cm' ∈ L) as Hin'
      by (rewrite Hsplit'; apply elem_of_app; right; by left).
    assert (git.CommitID (Commit cm) = git.CommitID (Commit cm')) as Hids.
    { pose proof (Hptr cm' Hin') as Hkey'. rewrite Hcm' in Hkey'.
      destruct (Hok _ _ (eq_sym Hkey')) as (pr1 & Hp1 & Hid1 & _).
      congruence. }
    destruct (NoDup_fmap_split _ _ _ _ _ _ _ _ Hnodup Hsplit Hsplit' Hids)
      as (_ & <- & ->).
    apply Forall_app in Hall as [Hbefore Hcm1].
    apply Forall_cons. split; [by inversion Hcm1|].
    rewrite Forall_forall in *. intros c Hc. apply Hbefore.
    by apply list_elem_of_In, in_rev, list_elem_of_In.
  - split; [by rewrite Hst0|]. intros Hall. destruct Hswept.
    apply SetStackedCheck_swept_spec.
    exists (rev older), cm, (rev newer). split.
    + rewrite Hsplit, rev_app_distr. cbn [rev]. by rewrite <- app_assoc.
    + split; [done|]. apply Forall_cons in Hall as [Hcm0 Holder].
      apply Forall_app. split; [|by constructor].
      rewrite Forall_forall in *. intros c Hc. apply Holder.
      by apply list_elem_of_In, in_rev, list_elem_of_In.
Qed.

Lemma NewState_stacked_witness :
  github.Stacked (github.MergeStatus stacked_pr_b) = true
  <-> Forall (commit_ok stacked_assembled.1.2 stacked_assembled.2)
        [stacked_commit_b; stacked_commit_a].
Proof.
  apply (NewState_stacked stacked_cfg "R_1" stacked_nodes stacked_commits
           stacked_assembled.1.1 stacked_assembled.1.2 stacked_assembled.2
           [] [stacked_commit_a] stacked_commit_b 1%nat stacked_pr_b).
  - reflexivity.
  - apply (bool_decide_unpack _). vm_compute. exact I.
  - vm_compute. reflexivity.
  - reflexivity.
  - vm_compute. reflexivity.
Defined.

(** ** Closing orphaned pull requests *)

Section Goroutines.

Context {Out : Type} (w : world).

Lemma sum_list_delete (l : list nat) (i b : nat) :
  l !! i = Some b -> sum_list l = (b + sum_list (delete i l))%nat.
Proof.
  revert i. induction l as [|x l IH]; intros [|i]; simpl; try done.
  - by intros [= ->].
  - intros Hi. rewrite (IH i Hi). lia.
Qed.

Lemma sum_list_insert (l : list nat) (i b b' : nat) :
  l !! i = Some b ->
  (sum_list (<[i := b']> l) + b = sum_list l + b')%nat.
Proof.
  revert i. induction l as [|x l IH]; intros [|i]; simpl; try done.
  - intros [= ->]. lia.
  - intros Hi. pose proof (IH i Hi). lia.
Qed.

Lemma SliceMap_run_nil (sched : list nat) (out : list Out) (err : error)
    (tr : list call) :
  SliceMap_run sched [] out err w tr = Some (tr, (out, err)).
Proof. by destruct sched. Qed.

Lemma SliceMap_run_cons (n : nat) (sched : list nat)
    (pool : list (prog (Out * error))) (out : list Out) (err : error)
    (tr : list call) :
  pool ≠ [] ->
  SliceMap_run (n :: sched) pool out err w tr
  = match pool !! (n mod List.length pool)%nat with
    | Some (Done res) =>
        SliceMap_run sched (delete (n mod List.length pool)%nat pool)
          (out ++ [res.1])%list (received_error err res) w tr
    | Some (Act c k) =>
        SliceMap_run sched
          (<[(n mod List.length pool)%nat := k (w tr c)]> pool) out err w
          (tr ++ [c])%list
    | None => None
    end.
Proof. by destruct pool. Qed.

(** What holds of the pool and the variables of the receiving loop before
    every step holds of the result. *)
Lemma SliceMap_run_invariant
    (Inv : list (prog (Out * error)) -> list Out -> error -> list call -> Prop) :
  (forall pool i res out err tr,
     Inv pool out err tr -> pool !! i = Some (Done res) ->
     Inv (delete i pool) (out ++ [res.1])%list (received_error err res) tr) ->
  (forall pool i c k out err tr,
     Inv pool out err tr -> pool !! i = Some (Act c k) ->
     Inv (<[i := k (w tr c)]> pool) out err (tr ++ [c])%list) ->
  forall sched pool out err tr tr' out' err',
    Inv pool out err tr ->
    SliceMap_run sched pool out err w tr = Some (tr', (out', err')) ->
    Inv [] out' err' tr'.
Proof.
  intros Hdone Hact sched.
  induction sched as [|n sched IH]; intros pool out err tr tr' out' err' Hinv.
  - destruct pool; [|done]. cbn. by intros [= <- <- <-].
  - destruct (decide (pool = [])) as [->|Hne].
    + rewrite SliceMap_run_nil. by intros [= <- <- <-].
    + rewrite SliceMap_run_cons by done.
      destruct (pool !! (n mod List.length pool)%nat) as [[res|c k]|] eqn:Hi;
        [| |done].
      * apply IH. by apply Hdone.
      * apply IH. by apply Hact.
Qed.

(** A body whose calls satisfy a property satisfies every weaker one. *)
Lemma prog_calls_only_mono {A : Type} (P Q : call -> Prop) (p : prog A) :
  (forall c, P c -> Q c) -> prog_calls_only P p -> prog_calls_only Q p.
Proof.
  intros HPQ. induction p as [a|c k IH]; cbn; [done|].
  intros [Hc Hk]. split; [by apply HPQ|]. intros err. by apply IH.
Qed.

(** The run only adds calls, and only calls the bodies make. *)
Lemma SliceMap_run_calls_only (P : call -> Prop) (sched : list nat)
    (pool : list (prog (Out * error))) (out : list Out) (err : error)
    (tr tr' : list call) (r : list Out * error) :
  Forall (prog_calls_only P) pool ->
  SliceMap_run sched pool out err w tr = Some (tr', r) ->
  exists calls, tr' = (tr ++ calls)%list ∧ Forall P calls.
Proof.
  intros Hpool Hrun. destruct r as [out' err'].
  apply (SliceMap_run_invariant
           (fun pool _ _ tr1 =>
              Forall (prog_calls_only P) pool
              ∧ exists calls, tr1 = (tr ++ calls)%list ∧ Forall P calls))
    in Hrun as [_ Hcalls]; [done| | |].
  - intros pool' i res _ _ tr1 [Hall Hcalls] _. split; [|done].
    by apply Forall_delete.
  - intros pool' i c k _ _ tr1 [Hall (calls & -> & HP)] Hi.
    pose proof (Forall_lookup_1 _ _ _ _ Hall Hi) as [Hc Hk].
    split.
    + apply Forall_insert; [done|apply Hk].
    + exists (calls ++ [c])%list. rewrite app_assoc. split; [done|].
      apply Forall_app. split; [done|]. by constructor.
  - split; [done|]. exists []. by rewrite app_nil_r.
Qed.

(** A call that a body of the pool is bound to make is made. *)
Lemma SliceMap_run_must_call (c : call) (sched : list nat)
    (pool : list (prog (Out * error))) (out : list Out) (err : error)
    (tr tr' : list call) (r : list Out * error) (p : prog (Out * error)) :
  p ∈ pool -> prog_must_call w c p ->
  SliceMap_run sched pool out err w tr = Some (tr', r) ->
  exists calls, tr' = (tr ++ calls)%list ∧ c ∈ calls.
Proof.
  intros Hin Hmust Hrun. destruct r as [out' err'].
  apply (SliceMap_run_invariant
           (fun pool _ _ tr1 =>
              exists calls,
                tr1 = (tr ++ calls)%list
                ∧ (c ∈ calls
                   ∨ exists j q, pool !! j = Some q ∧ prog_must_call w c q)))
    in Hrun as (calls & -> & [Hc|(j & q & Hj & _)]).
  - by exists calls.
  - by rewrite lookup_nil in Hj.
  - intros pool' i res _ _ tr1 (calls & -> & Hcases) Hi.
    exists calls. split; [done|].
    destruct Hcases as [?|(j & q & Hj & Hq)]; [by left|]. right.
    destruct (decide (j = i)) as [->|Hne].
    { rewrite Hi in Hj. injection Hj as <-. done. }
    destruct (decide (j < i)%nat) as [Hlt|Hge].
    + exists j, q. by rewrite list_lookup_delete_lt.
    + exists (Nat.pred j), q. rewrite list_lookup_delete_ge by lia.
      by replace (S (Nat.pred j)) with j by lia.
  - intros pool' i c' k _ _ tr1 (calls & -> & Hcases) Hi.
    exists (calls ++ [c'])%list. rewrite app_assoc. split; [done|].
    destruct Hcases as [?|(j & q & Hj & Hq)].
    { left. apply elem_of_app. by left. }
    destruct (decide (j = i)) as [->|Hne].
    + rewrite Hi in Hj. injection Hj as <-. cbn in Hq.
      destruct Hq as [->|Hq].
      * left. apply elem_of_app. right. by left.
      * right. exists i, (k (w (tr ++ calls)%list c')). split; [|apply Hq].
        apply list_lookup_insert_eq. by eapply lookup_lt_Some.
    + right. exists j, q. by rewrite list_lookup_insert_ne.
  - exists []. rewrite app_nil_r. split; [done|]. right.
    apply list_elem_of_lookup in Hin as [j Hj]. by exists j, p.
Qed.

(** When every body returns nil, the error of the run is nil. *)
Lemma SliceMap_run_no_error (sched : list nat)
    (pool : list (prog (Out * error))) (out : list Out)
    (tr tr' : list call) (out' : list Out) (err' : error) :
  Forall (prog_returns w (fun res => res.2 = None)) pool ->
  SliceMap_run sched pool out None w tr = Some (tr', (out', err')) ->
  err' = None.
Proof.
  intros Hpool Hrun.
  apply (SliceMap_run_invariant
           (fun pool _ err _ =>
              Forall (prog_returns w (fun res => res.2 = None)) pool
              ∧ err = None))
    in Hrun as [_ Herr]; [done| | |done].
  - intros pool' i res _ err _ [Hall ->] Hi.
    pose proof (Forall_lookup_1 _ _ _ _ Hall Hi) as Hres. cbn in Hres.
    split; [by apply Forall_delete|]. unfold received_error.
    destruct res as [o e]. cbn in Hres |- *. by subst e.
  - intros pool' i c k _ err tr1 [Hall ->] Hi.
    pose proof (Forall_lookup_1 _ _ _ _ Hall Hi) as Hk. cbn in Hk.
    split; [|done]. apply Forall_insert; [done|apply Hk].
Qed.

(** A schedule with a step for every call and every result runs to the
    end. *)
Lemma SliceMap_run_total (sched : list nat) (bounds : list nat)
    (pool : list (prog (Out * error))) (out : list Out) (err : error)
    (tr : list call) :
  Forall2 prog_within bounds pool ->
  (sum_list bounds <= List.length sched)%nat ->
  is_Some (SliceMap_run sched pool out err w tr).
Proof.
  revert bounds pool out err tr.
  induction sched as [|n sched IH]; intros bounds pool out err tr Hall Hsum.
  - destruct Hall as [|b p bounds pool Hb _]; [done|].
    destruct p, b; cbn in Hb, Hsum; (done || lia).
  - destruct (decide (pool = [])) as [->|Hne].
    { by rewrite SliceMap_run_nil. }
    rewrite SliceMap_run_cons by done.
    assert (n mod List.length pool < List.length pool)%nat as Hlt.
    { apply Nat.mod_upper_bound. by destruct pool. }
    destruct (lookup_lt_is_Some_2 pool _ Hlt) as [p Hp].
    pose proof (Forall2_length _ _ _ Hall) as Hlen.
    destruct (lookup_lt_is_Some_2 bounds (n mod List.length pool))
      as [b Hb]; [lia|].
    pose proof (Forall2_lookup_lr _ _ _ _ _ _ Hall Hb Hp) as Hwithin.
    rewrite Hp. destruct p as [res|c k].
    + apply (IH (delete (n mod List.length pool)%nat bounds)).
      * by apply Forall2_delete.
      * pose proof (sum_list_delete _ _ _ Hb). destruct b; [done|].
        cbn [List.length] in Hsum. lia.
    + destruct b as [|b]; [done|].
      apply (IH (<[(n mod List.length pool)%nat := b]> bounds)).
      * apply Forall2_insert; [done|apply Hwithin].
      * pose proof (sum_list_insert _ _ _ b Hb).
        cbn [List.length] in Hsum. lia.
Qed.

End Goroutines.

Section Orphans.

Context (cfg : config.Config) (h : heap).

(** The body that deletes one orphan makes no comment. *)
Lemma UpdatePRSets_deleteOrphan_no_comment (o : option ptr) :
  prog_calls_only (fun c => ¬ is_comment c)
    (UpdatePRSets_deleteOrphan cfg h o).
Proof.
  destruct o as [p|]; cbn; [|done]. destruct (h !! p) as [pr|]; cbn; [|done].
  split; [by intros []|]. intros [e|]; cbn; [done|].
  split; [by intros []|]. by intros [e|].
Qed.

(** It closes the pull request, and deletes the branch when the close
    succeeds. *)
Lemma UpdatePRSets_deleteOrphan_closes (w : world) (p : ptr)
    (pr : github.PullRequest) :
  h !! p = Some pr ->
  prog_must_call w (close_call cfg (github.Number pr))
    (UpdatePRSets_deleteOrphan cfg h (Some p))
  ∧ ((forall tr, w tr (close_call cfg (github.Number pr)) = None) ->
     prog_must_call w (delete_branch_call cfg (github.FromBranch pr))
       (UpdatePRSets_deleteOrphan cfg h (Some p))).
Proof.
  intros Hp. cbn. rewrite Hp. cbn. split; [by left|].
  intros Hok. right. intros tr. fold (close_call cfg (github.Number pr)).
  rewrite Hok. cbn. by left.
Qed.

(** It takes two calls at most, and one step to hand over the result. *)
Lemma UpdatePRSets_deleteOrphan_within (o : option ptr) :
  prog_within 3 (UpdatePRSets_deleteOrphan cfg h o).
Proof.
  destruct o as [p|]; cbn; [|done]. destruct (h !! p) as [pr|]; cbn; [|done].
  intros [e|]; cbn; [done|]. by intros [e|].
Qed.

(** It returns nil when no call fails. *)
Lemma UpdatePRSets_deleteOrphan_returns_nil (w : world) (o : option ptr) :
  (forall tr c, w tr c = None) ->
  prog_returns w (fun res => res.2 = None)
    (UpdatePRSets_deleteOrphan cfg h o).
Proof.
  intros Hok. destruct o as [p|]; cbn; [|done].
  destruct (h !! p) as [pr|]; cbn; [|done].
  intros tr. rewrite Hok. cbn. intros tr'. by rewrite Hok.
Qed.

(** Its calls are the close and the branch deletion of the pull request
    it is given. *)
Lemma UpdatePRSets_deleteOrphan_calls_of (o : option ptr) :
  prog_calls_only
    (fun c =>
       exists p pr,
         o = Some p ∧ h !! p = Some pr
         ∧ (c = close_call cfg (github.Number pr)
            ∨ c = delete_branch_call cfg (github.FromBranch pr)))
    (UpdatePRSets_deleteOrphan cfg h o).
Proof.
  destruct o as [p|]; cbn; [|done].
  destruct (h !! p) as [pr|] eqn:Hp; cbn; [|done].
  split; [exists p, pr; split; [done|]; split; [done|by left]|].
  intros [e|]; cbn; [done|].
  split; [exists p, pr; split; [done|]; split; [done|by right]|].
  by intros [e|].
Qed.

(** The phase of [UpdatePRSets] that deletes the orphaned pull requests,
    under any schedule that runs to the end: each of them is closed and,
    when the close succeeds, its branch is deleted; no comment is made;
    the process exits or the state comes back without orphans. *)
Lemma UpdatePRSets_deleteOrphans_calls (sched : list nat) (state : State)
    (w : world) (tr tr' : list call) (out : outcome State) :
  UpdatePRSets_deleteOrphans sched cfg h state w tr = Some (tr', out) ->
  exists calls,
    tr' = (tr ++ calls)%list
    ∧ (forall c, c ∈ calls -> ¬ is_comment c)
    ∧ (forall p pr,
         Some p ∈ OrphanedPRs state -> h !! p = Some pr ->
         close_call cfg (github.Number pr) ∈ calls
         ∧ ((forall tr0, w tr0 (close_call cfg (github.Number pr)) = None) ->
            delete_branch_call cfg (github.FromBranch pr) ∈ calls))
    ∧ (out = Return (mkState (RepositoryId state) (LocalCommits state) ∅
                       (MutatedPRSets state))
       ∨ exists msg, out = Exit msg)
    ∧ ((forall tr0 c, w tr0 c = None) ->
       out = Return (mkState (RepositoryId state) (LocalCommits state) ∅
                       (MutatedPRSets state)))
    ∧ forall c,
        c ∈ calls ->
        exists p pr,
          Some p ∈ OrphanedPRs state ∧ h !! p = Some pr
          ∧ (c = close_call cfg (github.Number pr)
             ∨ c = delete_branch_call cfg (github.FromBranch pr)).
Proof.
  unfold UpdatePRSets_deleteOrphans, SliceMap.
  destruct (SliceMap_run sched _ [] None w tr) as [[tr1 [outs err]]|] eqn:Hrun;
    [|done].
  intros [= Hout].
  assert (Forall (prog_calls_only (fun c => ¬ is_comment c))
            (UpdatePRSets_deleteOrphan cfg h
             <$> elements (OrphanedPRs state))) as Honly.
  { apply Forall_fmap, Forall_forall. intros o _.
    apply UpdatePRSets_deleteOrphan_no_comment. }
  destruct (SliceMap_run_calls_only w _ _ _ _ _ _ _ _ Honly Hrun)
    as (calls & -> & Hnc).
  assert (err = None -> tr' = (tr ++ calls)%list
          ∧ out = Return (mkState (RepositoryId state) (LocalCommits state)
                            ∅ (MutatedPRSets state))) as Hnil.
  { intros ->. cbn in Hout. by injection Hout as <- <-. }
  assert (tr' = (tr ++ calls)%list
          ∧ (out = Return (mkState (RepositoryId state) (LocalCommits state)
                             ∅ (MutatedPRSets state))
             ∨ exists msg, out = Exit msg)) as [-> Hcases].
  { destruct err as [msg|].
    - cbn in Hout. injection Hout as <- <-. split; [done|]. right.
      by eexists.
    - destruct Hnil as [-> ->]; [done|]. split; [done|]. by left. }
  assert (Forall
            (fun c =>
               exists p pr,
                 Some p ∈ OrphanedPRs state ∧ h !! p = Some pr
                 ∧ (c = close_call cfg (github.Number pr)
                    ∨ c = delete_branch_call cfg (github.FromBranch pr)))
            calls) as Hof.
  { assert (Forall (prog_calls_only
                      (fun c =>
                         exists p pr,
                           Some p ∈ OrphanedPRs state ∧ h !! p = Some pr
                           ∧ (c = close_call cfg (github.Number pr)
                              ∨ c = delete_branch_call cfg
                                      (github.FromBranch pr))))
              (UpdatePRSets_deleteOrphan cfg h
               <$> elements (OrphanedPRs state))) as Hpool.
    { apply Forall_fmap, Forall_forall. intros o Ho%elem_of_elements.
      eapply prog_calls_only_mono;
        [|apply UpdatePRSets_deleteOrphan_calls_of].
      intros c (p & pr & -> & Hp & Hc). by exists p, pr. }
    destruct (SliceMap_run_calls_only w _ _ _ _ _ _ _ _ Hpool Hrun)
      as (calls' & Heq & Hall).
    by apply app_inv_head in Heq as <-. }
  exists calls. split; [done|]. split; [by apply Forall_forall|].
  split; [|split].
  - intros p pr Hin Hp.
    assert (UpdatePRSets_deleteOrphan cfg h (Some p)
            ∈ UpdatePRSets_deleteOrphan cfg h
              <$> elements (OrphanedPRs state)) as Hpool.
    { apply list_elem_of_fmap. exists (Some p). split; [done|].
      by apply elem_of_elements. }
    destruct (UpdatePRSets_deleteOrphan_closes w p pr Hp) as [Hclose Hdel].
    split.
    + destruct (SliceMap_run_must_call w _ _ _ _ _ _ _ _ _ Hpool Hclose Hrun)
        as (calls' & Heq & Hc).
      by apply app_inv_head in Heq as <-.
    + intros Hok.
      destruct (SliceMap_run_must_call w _ _ _ _ _ _ _ _ _ Hpool
                  (Hdel Hok) Hrun) as (calls' & Heq & Hc).
      by apply app_inv_head in Heq as <-.
  - exact Hcases.
  - split; [|apply Forall_forall, Hof].
    intros Hok. apply Hnil.
    apply (SliceMap_run_no_error w _ _ _ _ _ _ _
             (proj2 (Forall_fmap _ _ _)
                (proj2 (Forall_forall _ _)
                   (fun o _ =>
                      UpdatePRSets_deleteOrphan_returns_nil w o Hok)))
             Hrun).
Qed.

(** A schedule with three steps for every orphan runs to the end. *)
Lemma UpdatePRSets_deleteOrphans_total (sched : list nat) (state : State)
    (w : world) (tr : list call) :
  (3 * size (OrphanedPRs state) <= List.length sched)%nat ->
  is_Some (UpdatePRSets_deleteOrphans sched cfg h state w tr).
Proof.
  intros Hlen. unfold UpdatePRSets_deleteOrphans, SliceMap.
  destruct (SliceMap_run_total w sched
              (replicate (List.length (elements (OrphanedPRs state))) 3%nat)
              (UpdatePRSets_deleteOrphan cfg h
               <$> elements (OrphanedPRs state)) [] None tr)
    as [[tr1 r] ->]; [| |by eexists].
  - induction (elements (OrphanedPRs state)) as [|o os IH]; [constructor|].
    cbn. constructor; [apply UpdatePRSets_deleteOrphan_within|exact IH].
  - rewrite sum_list_replicate. unfold size, set_size in Hlen. cbn in Hlen.
    lia.
Qed.

End Orphans.

Section ClassicOrphans.


End ClassicOrphans.

Section OrphanedPRs.

Lemma GetOrphanedPRs_loop (prMap : gmap string ptr)
    (gitCommits : list LocalCommit) (gc : maputils.GC string ptr) :
  maputils.data
    (fold_left
       (fun gc gitCommit =>
          (maputils.Lookup gc (git.CommitID (Commit gitCommit))).1)
       gitCommits gc)
  = maputils.data gc
  ∧ forall id,
      id ∈ maputils.accessed
             (fold_left
                (fun gc gitCommit =>
                   (maputils.Lookup gc (git.CommitID (Commit gitCommit))).1)
                gitCommits gc)
      <-> id ∈ maputils.accessed gc
          ∨ exists cm, cm ∈ gitCommits ∧ git.CommitID (Commit cm) = id.
Proof.
  revert gc. induction gitCommits as [|cm cms IH]; intros gc;
    cbn [fold_left].
  - split; [done|]. intros id. split; [by left|].
    intros [?|(cm & Hin & _)]; [done|]. by apply elem_of_nil in Hin.
  - destruct (IH (maputils.Lookup gc (git.CommitID (Commit cm))).1)
      as [-> Hacc].
    split; [done|]. intros id. rewrite Hacc. simpl.
    rewrite elem_of_union, elem_of_singleton. split.
    + intros [[->|?]|(cm' & Hin & Hid)].
      * right. exists cm. split; [by left|done].
      * by left.
      * right. exists cm'. split; [by right|done].
    + intros [?|(cm' & [->|Hin]%elem_of_cons & Hid)].
      * left. by right.
      * left. by left.
      * right. by exists cm'.
Qed.

(** The orphaned pull requests: those stored under a commit-id that no
    local commit carries. *)
Lemma GetOrphanedPRs_spec (gitCommits : list LocalCommit)
    (prMap : gmap string ptr) (o : option ptr) :
  o ∈ GetOrphanedPRs gitCommits prMap
  <-> exists id p,
        o = Some p
        ∧ prMap !! id = Some p
        ∧ forall cm, cm ∈ gitCommits -> git.CommitID (Commit cm) ≠ id.
Proof.
  unfold GetOrphanedPRs. rewrite elem_of_list_to_set, list_elem_of_fmap.
  destruct (GetOrphanedPRs_loop prMap gitCommits (maputils.NewGC prMap))
    as [Hdata Hacc].
  unfold maputils.GetUnaccessed. rewrite Hdata. simpl. split.
  - intros ([id p] & -> & Hin). apply elem_of_map_to_list in Hin.
    apply map_lookup_filter_Some in Hin as [Hp Hun]. simpl in *.
    exists id, p. split; [done|]. split; [done|].
    intros cm Hcm Hid. apply Hun, Hacc. right. by exists cm.
  - intros (id & p & -> & Hp & Hnone). exists (id, p). split; [done|].
    apply elem_of_map_to_list, map_lookup_filter_Some. split; [done|].
    simpl. intros [Hin|(cm & Hcm & Hid)]%Hacc.
    + by apply elem_of_empty in Hin.
    + by apply (Hnone cm).
Qed.





End OrphanedPRs.

(** ** The addresses of the pull requests of the forge *)

Section NodeAddresses.

(** The loop only appends to the store, one object per managed node. *)
Lemma GeneratePullRequestMap_node_heap (h : heap) (prMap : gmap string ptr)
    (nodes : list genqlient.PullRequestNode) :
  exists ext,
    (fold_left GeneratePullRequestMap_node nodes (h, prMap)).1
    = (h ++ ext)%list
    ∧ List.length ext = List.length (List.filter managed_node nodes).
Proof.
  revert h prMap. induction nodes as [|n ns IH]; intros h prMap;
    cbn [fold_left List.filter].
  - exists []. by rewrite app_nil_r.
  - unfold GeneratePullRequestMap_node at 2, managed_node at 1.
    destruct (String.eqb (CommitIdFromBranch (genqlient.HeadRefName n)) "");
      cbn [negb].
    + apply IH.
    + match goal with
      | |- context [fold_left _ ns (?h', ?m')] =>
          destruct (IH h' m') as (ext & -> & Hlen)
      end.
      eexists (_ :: ext). rewrite <- app_assoc. split; [done|].
      cbn. by rewrite Hlen.
Qed.

(** Nodes of other commit-ids leave the entry of a commit-id alone. *)
Lemma GeneratePullRequestMap_node_other (h : heap) (prMap : gmap string ptr)
    (nodes : list genqlient.PullRequestNode) (id : string) :
  (forall prNode,
     prNode ∈ nodes ->
     CommitIdFromBranch (genqlient.HeadRefName prNode) ≠ id) ->
  (fold_left GeneratePullRequestMap_node nodes (h, prMap)).2 !! id
  = prMap !! id.
Proof.
  revert h prMap. induction nodes as [|n ns IH]; intros h prMap Hother;
    cbn [fold_left]; [done|].
  unfold GeneratePullRequestMap_node at 2.
  destruct (String.eqb (CommitIdFromBranch (genqlient.HeadRefName n)) "").
  - apply IH. intros m Hm. apply Hother. by right.
  - rewrite IH by (intros m Hm; apply Hother; by right).
    apply lookup_insert_ne, Hother. by left.
Qed.

(** The pull request of a managed node is in the store, at the address
    that counts the managed nodes listed before it. *)
Lemma GeneratePullRequestMap_node_at
    (before after : list genqlient.PullRequestNode)
    (prNode : genqlient.PullRequestNode) :
  managed_node prNode = true ->
  exists pr,
    (GeneratePullRequestMap [] (before ++ prNode :: after)).1
      !! List.length (List.filter managed_node before) = Some pr
    ∧ github.Id pr = genqlient.Id prNode
    ∧ github.Number pr = genqlient.Number prNode
    ∧ github.FromBranch pr = genqlient.HeadRefName prNode
    ∧ github.ToBranch pr = genqlient.BaseRefName prNode
    ∧ github.MergeStatus pr = ComputeMergeStatus prNode.
Proof.
  intros Hmanaged. unfold GeneratePullRequestMap.
  rewrite fold_left_app. cbn [fold_left].
  destruct (GeneratePullRequestMap_node_heap [] ∅ before)
    as (h1 & Hh1 & Hlen1).
  destruct (fold_left GeneratePullRequestMap_node before ([], ∅))
    as [h1' m1]. cbn [fst] in Hh1. rewrite app_nil_l in Hh1. subst h1'.
  unfold GeneratePullRequestMap_node at 2.
  unfold managed_node in Hmanaged.
  apply negb_true_iff in Hmanaged. rewrite Hmanaged.
  cbv beta iota zeta.
  match goal with
  | |- context [fold_left _ after (?h', ?m')] =>
      destruct (GeneratePullRequestMap_node_heap h' m' after)
        as (ext & -> & _)
  end.
  eexists. split.
  - rewrite <- Hlen1, <- app_assoc. by apply list_lookup_middle.
  - done.
Qed.

(** The map keeps the last node of a commit-id. *)
Lemma GeneratePullRequestMap_last
    (before after : list genqlient.PullRequestNode)
    (prNode : genqlient.PullRequestNode) :
  managed_node prNode = true ->
  (forall later,
     later ∈ after ->
     CommitIdFromBranch (genqlient.HeadRefName later)
     ≠ CommitIdFromBranch (genqlient.HeadRefName prNode)) ->
  (GeneratePullRequestMap [] (before ++ prNode :: after)).2
    !! CommitIdFromBranch (genqlient.HeadRefName prNode)
  = Some (List.length (List.filter managed_node before)).
Proof.
  intros Hmanaged Hlast. unfold GeneratePullRequestMap.
  rewrite fold_left_app. cbn [fold_left].
  destruct (GeneratePullRequestMap_node_heap [] ∅ before)
    as (h1 & Hh1 & Hlen1).
  destruct (fold_left GeneratePullRequestMap_node before ([], ∅))
    as [h1' m1]. cbn [fst] in Hh1. rewrite app_nil_l in Hh1. subst h1'.
  unfold GeneratePullRequestMap_node at 2.
  unfold managed_node in Hmanaged.
  apply negb_true_iff in Hmanaged. rewrite Hmanaged.
  cbv beta iota zeta.
  rewrite GeneratePullRequestMap_node_other by done.
  by rewrite lookup_insert_eq, Hlen1.
Qed.

(** A list with an element that passes a test splits at the last such
    element. *)
Lemma last_occurrence {A : Type} (P : A -> bool) (l : list A) :
  existsb P l = true ->
  exists before y after,
    l = (before ++ y :: after)%list
    ∧ P y = true
    ∧ forall z, z ∈ after -> P z = false.
Proof.
  induction l as [|a l IH]; intros Hex; [done|].
  destruct (existsb P l) eqn:Hl.
  - destruct (IH eq_refl) as (before & y & after & -> & Hy & Hafter).
    by exists (a :: before), y, after.
  - cbn in Hex. rewrite Hl, orb_false_r in Hex.
    exists [], a, l. split; [done|]. split; [done|].
    intros z Hz. destruct (P z) eqn:HPz; [|done].
    assert (existsb P l = true) as Hex'; [|congruence].
    apply existsb_exists. exists z. by rewrite <- list_elem_of_In.
Qed.

(** The entry of a commit-id in the map is the address of the last
    managed node whose head ref yields it. *)
Lemma GeneratePullRequestMap_lookup_inv
    (nodes : list genqlient.PullRequestNode) (id : string) (p : ptr) :
  (GeneratePullRequestMap [] nodes).2 !! id = Some p ->
  exists before prNode after,
    nodes = (before ++ prNode :: after)%list
    ∧ managed_node prNode = true
    ∧ CommitIdFromBranch (genqlient.HeadRefName prNode) = id
    ∧ (forall later,
         later ∈ after ->
         CommitIdFromBranch (genqlient.HeadRefName later)
         ≠ CommitIdFromBranch (genqlient.HeadRefName prNode))
    ∧ p = List.length (List.filter managed_node before).
Proof.
  intros Hp.
  destruct (proj1 (GeneratePullRequestMap_dom nodes id))
    as (Hne & n & Hn & Hid); [by eexists|].
  destruct (last_occurrence
              (fun m =>
                 String.eqb (CommitIdFromBranch (genqlient.HeadRefName m))
                   id) nodes)
    as (before & y & after & -> & Hy & Hafter).
  { apply existsb_exists. exists n. rewrite <- list_elem_of_In.
    split; [done|]. by apply String.eqb_eq. }
  apply String.eqb_eq in Hy.
  assert (managed_node y = true) as Hmanaged.
  { unfold managed_node. rewrite Hy. apply negb_true_iff.
    by apply String.eqb_neq. }
  assert (forall later,
            later ∈ after ->
            CommitIdFromBranch (genqlient.HeadRefName later)
            ≠ CommitIdFromBranch (genqlient.HeadRefName y)) as Hlast.
  { intros later Hlater. rewrite Hy. apply String.eqb_neq.
    by apply Hafter. }
  exists before, y, after. split; [done|]. split; [done|].
  split; [done|]. split; [done|].
  pose proof (GeneratePullRequestMap_last before after y Hmanaged Hlast)
    as Hmap.
  rewrite Hy in Hmap. unfold ptr in *. congruence.
Qed.

(** Two managed nodes at one address of one list are the same node. *)
Lemma managed_node_address
    (before after before' after' : list genqlient.PullRequestNode)
    (prNode prNode' : genqlient.PullRequestNode) :
  (before ++ prNode :: after = before' ++ prNode' :: after')%list ->
  managed_node prNode = true -> managed_node prNode' = true ->
  List.length (List.filter managed_node before)
  = List.length (List.filter managed_node before') ->
  before = before' ∧ prNode = prNode' ∧ after = after'.
Proof.
  intros Heq Hm Hm' Hlen.
  apply List.app_eq_app in Heq as (l & [[-> Heq]|[-> Heq]]).
  - destruct l as [|x l].
    + rewrite app_nil_r. cbn in Heq. by injection Heq as <- <-.
    + cbn in Heq. injection Heq as <- _.
      rewrite List.filter_app, length_app in Hlen. cbn in Hlen.
      rewrite Hm' in Hlen. cbn in Hlen. lia.
  - destruct l as [|x l].
    + rewrite app_nil_r. cbn in Heq. by injection Heq as <- <-.
    + cbn in Heq. injection Heq as <- _.
      rewrite List.filter_app, length_app in Hlen. cbn in Hlen.
      rewrite Hm in Hlen. cbn in Hlen. lia.
Qed.

(** The address of a shadowed node is not in the map. *)
Lemma shadowed_node_not_in_map
    (before after : list genqlient.PullRequestNode)
    (prNode : genqlient.PullRequestNode) (id : string) :
  managed_node prNode = true ->
  shadowed_node after prNode ->
  (GeneratePullRequestMap [] (before ++ prNode :: after)).2 !! id
  ≠ Some (List.length (List.filter managed_node before)).
Proof.
  intros Hmanaged (later & Hlater & Hsame) Hp.
  apply GeneratePullRequestMap_lookup_inv in Hp
    as (before' & n' & after' & Heq & Hm' & _ & Hlast & Hlen).
  destruct (managed_node_address _ _ _ _ _ _ Heq Hmanaged Hm' Hlen)
    as (_ & <- & <-).
  by apply (Hlast later).
Qed.

End NodeAddresses.
Section AssembledOrphans.

Context (cfg : config.Config) (repositoryId : string)
        (commits : list object.Commit).


(** After the assembly the pull request of a managed node is in the store,
    at the address that counts the managed nodes listed before it. *)
Lemma NewState_node_at (before after : list genqlient.PullRequestNode)
    (prNode : genqlient.PullRequestNode) :
  managed_node prNode = true ->
  exists pr,
    (NewState cfg repositoryId (before ++ prNode :: after) commits).2
      !! List.length (List.filter managed_node before) = Some pr
    ∧ github.Id pr = genqlient.Id prNode
    ∧ github.Number pr = genqlient.Number prNode
    ∧ github.FromBranch pr = genqlient.HeadRefName prNode.
Proof.
  intros Hmanaged.
  destruct (GeneratePullRequestMap_node_at before after prNode Hmanaged)
    as (pr & Hp & Hid & Hnumber & Hbranch & _).
  rewrite NewState_heap. unfold SetStackedCheck.
  rewrite SetStackedCheck_loop_lookup. unfold ptr in *. rewrite Hp. cbn.
  destruct (bool_decide _); by eexists.
Qed.



End AssembledOrphans.




(** ** Commit messages *)

Section CommitMessages.

(** [strings.SplitN(s, sep, 2)]: a string without the separator is its own
    single part; otherwise the first part ends at the first separator and
    the second part is the rest. *)
Lemma strings_SplitN2_spec (s : string) (sep : ascii) :
  (no_char sep s ∧ strings_SplitN2 s sep = [s])
  ∨ exists a b,
      s = a ++ String sep b
      ∧ no_char sep a
      ∧ strings_SplitN2 s sep = [a; b].
Proof.
  unfold no_char. induction s as [|c s IH]; [by left|].
  cbn [strings_SplitN2 all_chars].
  destruct (Ascii.eqb_spec c sep) as [->|Hne].
  - right. by exists "", s.
  - destruct IH as [[Hno ->]|(a & b & -> & Ha & ->)].
    + left. by rewrite Hno.
    + right. exists (String c a), b. split; [done|]. split; [|done].
      cbn [all_chars]. rewrite Ha.
      by destruct (Ascii.eqb_spec c sep).
Qed.

Lemma no_char_append_sep (sep : ascii) (a b : string) :
  ¬ no_char sep (a ++ String sep b).
Proof.
  unfold no_char. induction a as [|c a IH].
  - rewrite append_nil_l. cbn. by rewrite Ascii.eqb_refl.
  - rewrite append_cons. cbn [all_chars].
    intros [_ ?]%andb_prop. by apply IH.
Qed.

(** A prefix without the separator is looked for in the first part only. *)
Lemma prefix_first_part (p s a b : string) (sep : ascii) :
  no_char sep p -> s = a ++ String sep b ->
  String.prefix p s = String.prefix p a.
Proof.
  unfold no_char. intros Hp ->. revert a. induction p as [|c p IH];
    intros a; [by destruct a|].
  cbn [all_chars] in Hp. apply andb_prop in Hp as [Hc Hp].
  destruct a as [|c' a].
  - rewrite append_nil_l. cbn.
    destruct (ascii_dec c sep) as [->|?]; [|done].
    by rewrite Ascii.eqb_refl in Hc.
  - rewrite append_cons. cbn. destruct (ascii_dec c c'); [by apply IH|done].
Qed.

End CommitMessages.

(** X1.  The subject and the body take a message apart at its first
    newline and lose nothing: a message without a newline is its own
    subject and has an empty body, any other message is the subject, a
    newline and the body; the subject never holds a newline. *)
Theorem Subject_Body_message (msg : string) :
  no_char newline (Subject msg)
  ∧ (no_char newline msg -> Subject msg = msg ∧ Body msg = "")
  ∧ (¬ no_char newline msg ->
     msg = Subject msg ++ String newline (Body msg)).
Proof.
  unfold Subject, Body.
  destruct (strings_SplitN2_spec msg newline)
    as [[Hno ->]|(a & b & Hmsg & Ha & ->)].
  - split; [done|]. split; [done|]. by intros [].
  - split; [done|]. split; [|done].
    intros Hno. subst msg. by apply no_char_append_sep in Hno.
Qed.

(** X2.  Whether a commit is work in progress is read off its subject:
    the test on the whole message, which the local reader makes, and the
    test on the headline, which the remote reader makes, agree. *)
Theorem IsWIP_Subject (msg : string) : IsWIP msg = IsWIP (Subject msg).
Proof.
  unfold IsWIP, strings_HasPrefix, Subject.
  destruct (strings_SplitN2_spec msg newline)
    as [[Hno ->]|(a & b & Hmsg & Ha & ->)]; [done|].
  by rewrite !(prefix_first_part _ msg a b newline) by done.
Qed.

Section CommitIdTrailer.

Lemma prefix_append (p s : string) :
  String.prefix p s = true -> exists r, s = p ++ r.
Proof.
  revert s. induction p as [|c p IH]; intros s Hp; [by exists s|].
  destruct s as [|c' s]; [done|]. cbn in Hp.
  destruct (ascii_dec c c') as [->|]; [|done].
  destruct (IH s Hp) as [r ->]. by exists r.
Qed.

Lemma substring_0_length (s : string) :
  String.substring 0 (String.length s) s = s.
Proof. induction s as [|c s IH]; [done|]. cbn. by rewrite IH. Qed.

Lemma trailer_unfold (r : string) :
  "commit-id:" ++ r
  = String "c" (String "o" (String "m" (String "m" (String "i" (String "t"
      (String "-" (String "i" (String "d" (String ":" r))))))))).
Proof. reflexivity. Qed.

Lemma trailer_substring (r : string) :
  String.substring 10 (String.length ("commit-id:" ++ r) - 10)
    ("commit-id:" ++ r) = r.
Proof.
  rewrite trailer_unfold. cbn [String.length String.substring Nat.sub].
  rewrite Nat.sub_0_r. apply substring_0_length.
Qed.

Lemma trailer_prefix (r : string) :
  String.prefix "commit-id:" ("commit-id:" ++ r) = true.
Proof. rewrite trailer_unfold. cbn. by destruct r. Qed.

(** A byte that is no lowercase hexadecimal digit does not occur among
    such digits. *)
Lemma lower_hex_no_char (c : ascii) (s : string) :
  is_lower_hex c = false -> all_chars is_lower_hex s = true -> no_char c s.
Proof.
  unfold no_char. intros Hc. induction s as [|x s IH]; [done|].
  cbn [all_chars]. intros [Hx Hs]%andb_prop. rewrite (IH Hs), andb_true_r.
  destruct (Ascii.eqb_spec x c) as [->|]; [congruence|done].
Qed.

(** A line matches the trailer pattern exactly when it is "commit-id:"
    followed by eight lowercase hexadecimal digits. *)
Lemma commitIDRegex_line_spec (line id : string) :
  commitIDRegex_line line = Some id
  <-> line = "commit-id:" ++ id ∧ lower_hex8 id.
Proof.
  unfold commitIDRegex_line, strings_HasPrefix, lower_hex8. split.
  - destruct (String.prefix "commit-id:" line) eqn:Hp; [|done].
    apply prefix_append in Hp as [r ->]. rewrite trailer_substring.
    destruct (Z.eqb_spec (len r) 8) as [Hlen|]; [|done].
    destruct (all_chars is_lower_hex r) eqn:Hhex; [|done].
    by intros [= ->].
  - intros [-> [Hlen Hhex]].
    rewrite trailer_prefix, trailer_substring, Hlen, Hhex. done.
Qed.

Lemma CommitId_first_commit_id (msg : string) :
  CommitId msg = first_commit_id (strings_Split msg newline).
Proof.
  unfold CommitId. induction (strings_Split msg newline) as [|line rest IH];
    [done|].
  cbn [list_find first_commit_id].
  destruct (commitIDRegex_line line) as [id|] eqn:Hline.
  - rewrite decide_True by by eexists. cbn. by rewrite Hline.
  - rewrite decide_False by by intros [? ?]. rewrite <- IH.
    by destruct (list_find _ rest) as [[? ?]|].
Qed.

Lemma first_commit_id_spec (lines : list string) :
  (first_commit_id lines = ""
   ∧ forall line, line ∈ lines -> commitIDRegex_line line = None)
  ∨ (lower_hex8 (first_commit_id lines)
     ∧ "commit-id:" ++ first_commit_id lines ∈ lines).
Proof.
  induction lines as [|line rest IH].
  - left. split; [done|]. by intros line Hin%elem_of_nil.
  - cbn [first_commit_id].
    destruct (commitIDRegex_line line) as [id|] eqn:Hline.
    + right. apply commitIDRegex_line_spec in Hline as [-> Hhex].
      split; [done|by left].
    + destruct IH as [[Hnone Hall]|[Hhex Hin]].
      * left. split; [done|].
        intros l [->|?]%elem_of_cons; [done|by apply Hall].
      * right. split; [done|by right].
Qed.

Lemma first_commit_id_app (l1 l2 : list string) :
  first_commit_id (l1 ++ l2)
  = if String.eqb (first_commit_id l1) "" then first_commit_id l2
    else first_commit_id l1.
Proof.
  induction l1 as [|line rest IH]; [done|].
  cbn [app first_commit_id].
  destruct (commitIDRegex_line line) as [id|] eqn:Hline; [|done].
  apply commitIDRegex_line_spec in Hline as [_ [Hlen _]].
  destruct (String.eqb_spec id "") as [->|]; done.
Qed.

(** The lines of two strings joined by a separator. *)
Lemma strings_Split_append (s t : string) (sep : ascii) :
  strings_Split (s ++ String sep t) sep
  = (strings_Split s sep ++ strings_Split t sep)%list.
Proof.
  induction s as [|c s IH].
  - rewrite append_nil_l. cbn. by rewrite Ascii.eqb_refl.
  - rewrite append_cons. cbn [strings_Split].
    destruct (Ascii.eqb c sep); [by rewrite IH|].
    rewrite IH. pose proof (strings_Split_nonempty s sep).
    by destruct (strings_Split s sep).
Qed.

End CommitIdTrailer.

(** X3.  The commit-id read off a message is empty or is eight lowercase
    hexadecimal digits that stand, after "commit-id:", on a line of their
    own; it is empty only when the message has no such line. *)
Theorem CommitId_trailer_line (msg : string) :
  (CommitId msg = ""
   ∧ forall id,
       lower_hex8 id ->
       "commit-id:" ++ id ∉ strings_Split msg newline)
  ∨ (lower_hex8 (CommitId msg)
     ∧ "commit-id:" ++ CommitId msg ∈ strings_Split msg newline).
Proof.
  rewrite CommitId_first_commit_id.
  destruct (first_commit_id_spec (strings_Split msg newline))
    as [[Hnone Hall]|?]; [|by right].
  left. split; [done|]. intros id Hhex Hin.
  specialize (Hall _ Hin).
  by rewrite (proj2 (commitIDRegex_line_spec _ id)) in Hall.
Qed.

(** X4.  Tagging and reading back: when a trailer line with a well-formed
    identifier is appended to a message, the commit-id read off the result
    is that identifier if the message had none, and the one the message
    had otherwise: the first trailer wins and a second tagging changes
    nothing. *)
Theorem CommitId_append_trailer (msg id : string) :
  lower_hex8 id ->
  CommitId (msg ++ String newline ("commit-id:" ++ id))
  = if String.eqb (CommitId msg) "" then id else CommitId msg.
Proof.
  intros Hhex. rewrite !CommitId_first_commit_id, strings_Split_append.
  rewrite first_commit_id_app.
  destruct (String.eqb _ ""); [|done].
  rewrite strings_Split_no_char.
  - cbn [first_commit_id].
    by rewrite (proj2 (commitIDRegex_line_spec _ id)).
  - destruct Hhex as [_ Hhex]. rewrite trailer_unfold.
    unfold no_char. cbn [all_chars]. cbn.
    by apply (lower_hex_no_char newline).
Qed.

Lemma CommitId_append_trailer_witness :
  CommitId ("Feature 1" ++ String newline ("commit-id:" ++ "0f47588b"))
  = if String.eqb (CommitId "Feature 1") "" then "0f47588b"
    else CommitId "Feature 1".
Proof.
  apply (CommitId_append_trailer "Feature 1" "0f47588b").
  split; reflexivity.
Defined.

(** ** The local graph reader *)

Section LocalReader.

Lemma existsb_eqb_elem_of (x : string) (l : list string) :
  existsb (String.eqb x) l = true <-> x ∈ l.
Proof.
  rewrite existsb_exists. split.
  - intros (y & Hin & ->%String.eqb_eq). by apply list_elem_of_In.
  - intros Hin. exists x. split; [by apply list_elem_of_In|].
    apply String.eqb_refl.
Qed.

Lemma HeadFirst_length (l : list object.Commit) :
  List.length (HeadFirst l) = List.length l.
Proof.
  unfold HeadFirst. destruct l as [|c0 [|c1 l]]; [done..|].
  destruct (existsb _ _); [done|]. apply length_rev.
Qed.

End LocalReader.

(** X5.  A linear history comes out head first in whichever order it is
    handed over: when every commit of the list is followed by one of its
    parents, and no two commits are parents of each other, [HeadFirst]
    keeps the list and turns its reversal back into it. *)
Theorem HeadFirst_either_order (l : list object.Commit) :
  head_first_linked l -> parents_asymmetric l ->
  HeadFirst l = l ∧ HeadFirst (rev l) = l.
Proof.
  intros Hlinked Hasym. split.
  - unfold HeadFirst. destruct l as [|c0 [|c1 l]]; [done..|].
    rewrite (proj2 (existsb_eqb_elem_of _ _)); [done|].
    by apply (Hlinked 0%nat c0 c1).
  - unfold HeadFirst. destruct (rev l) as [|d0 [|d1 r]] eqn:Hrev.
    + by rewrite <- (rev_involutive l), Hrev.
    + by rewrite <- (rev_involutive l), Hrev.
    + assert (l = (rev r ++ [d1; d0])%list) as Hl.
      { rewrite <- (rev_involutive l), Hrev. cbn [rev].
        by rewrite <- !app_assoc. }
      assert (object.Hash d0 ∈ object.ParentHashes d1) as Hparent.
      { apply (Hlinked (List.length (rev r))); rewrite Hl.
        - by rewrite (list_lookup_middle _ _ _ (List.length (rev r))).
        - rewrite lookup_app_r by lia.
          by replace (S (List.length (rev r)) - List.length (rev r))%nat
            with 1%nat by lia. }
      assert (object.Hash d1 ∉ object.ParentHashes d0) as Hnot.
      { apply Hasym; [| |done]; rewrite Hl; apply elem_of_app; right.
        - by left.
        - right. by left. }
      destruct (existsb (String.eqb (object.Hash d1)) (object.ParentHashes d0))
        eqn:Hex.
      * by apply existsb_eqb_elem_of in Hex.
      * by rewrite <- Hrev, rev_involutive.
Qed.

Lemma HeadFirst_either_order_witness :
  HeadFirst stacked_commits = stacked_commits
  ∧ HeadFirst (rev stacked_commits) = stacked_commits.
Proof.
  apply (HeadFirst_either_order stacked_commits).
  - intros [|[|i]] c0 c1 H0 H1; [|done..].
    injection H0 as <-. injection H1 as <-. simpl. by left.
  - intros a b Ha Hb Hab.
    apply elem_of_cons in Ha as [->|Ha%list_elem_of_singleton];
      apply elem_of_cons in Hb as [->|Hb%list_elem_of_singleton];
      subst; simpl in *;
      apply list_elem_of_singleton in Hab; try discriminate;
      intros Hin%list_elem_of_singleton; discriminate.
Defined.

(** X6.  The assembled state numbers the local commits from the oldest:
    it has as many commits as were read, and the commit at position [i] of
    the head-first list has the index n - 1 - i, so that HEAD has the
    largest index and the oldest unmerged commit the index 0. *)
Theorem NewState_Index (cfg : config.Config) (repositoryId : string)
    (nodes : list genqlient.PullRequestNode) (commits : list object.Commit) :
  List.length (LocalCommits (NewState cfg repositoryId nodes commits).1.1)
  = List.length commits
  ∧ forall i cm,
      LocalCommits (NewState cfg repositoryId nodes commits).1.1 !! i
      = Some cm ->
      Index cm = Z.of_nat (List.length commits) - 1 - Z.of_nat i.
Proof.
  rewrite NewState_LocalCommits.
  unfold AssignPullRequests, NewState_attach, GenerateCommits.
  split.
  - by rewrite !length_fmap, length_imap, HeadFirst_length.
  - intros i cm. rewrite !list_lookup_fmap, list_lookup_imap.
    rewrite HeadFirst_length.
    destruct (HeadFirst commits !! i) as [c|]; [|done]. cbn.
    intros [= <-].
    repeat match goal with
    | |- context [match ?x with _ => _ end] => destruct x
    end; cbn; lia.
Qed.

(** ** Invariants of the assembled state *)

Section AssembledState.

Lemma AssignPullRequests_attach (cfg : config.Config)
    (prMap : gmap string ptr) (gitCommits : list LocalCommit) :
  AssignPullRequests cfg (NewState_attach prMap gitCommits) prMap
  = assembled_commit cfg prMap <$> gitCommits.
Proof.
  unfold AssignPullRequests, NewState_attach. rewrite <- list_fmap_compose.
  apply list_fmap_ext. intros i g _. unfold assembled_commit. cbn.
  destruct (prMap !! git.CommitID (Commit g)) as [p|] eqn:Hp; [|by destruct g].
  by destruct (repoPRSetMap cfg !! git.CommitID (Commit g)).
Qed.

Lemma GenerateCommits_fresh (commits : list object.Commit) (g : LocalCommit) :
  g ∈ GenerateCommits commits -> PullRequest g = None ∧ PRIndex g = None.
Proof.
  unfold GenerateCommits. intros (i & Hi)%list_elem_of_lookup.
  rewrite list_lookup_imap in Hi.
  destruct (HeadFirst commits !! i); [|done]. by injection Hi as <-.
Qed.

Lemma GeneratePullRequestMap_node_branch_ok (h : heap)
    (prMap : gmap string ptr) (nodes : list genqlient.PullRequestNode) :
  prMap_branch_ok h prMap ->
  prMap_branch_ok (fold_left GeneratePullRequestMap_node nodes (h, prMap)).1
    (fold_left GeneratePullRequestMap_node nodes (h, prMap)).2.
Proof.
  revert h prMap. induction nodes as [|n ns IH]; intros h prMap Hok;
    cbn [fold_left]; [done|].
  destruct (GeneratePullRequestMap_node (h, prMap) n) as [h' prMap']
    eqn:Hstep.
  apply IH. unfold GeneratePullRequestMap_node in Hstep.
  destruct (String.eqb_spec
              (CommitIdFromBranch (genqlient.HeadRefName n)) "")
    as [Hempty|Hne]; injection Hstep as <- <-; [done|].
  intros id p Hlookup.
  apply lookup_insert_Some in Hlookup as [[<- <-]|[Hneq Hlookup]].
  - eexists. split; [by apply list_lookup_middle|]. done.
  - destruct (Hok id p Hlookup) as (pr & Hp & Hid).
    exists pr. split; [|done]. by apply lookup_app_l_Some.
Qed.

Lemma GeneratePullRequestMap_branch_ok
    (nodes : list genqlient.PullRequestNode) :
  prMap_branch_ok (GeneratePullRequestMap [] nodes).1
    (GeneratePullRequestMap [] nodes).2.
Proof.
  apply GeneratePullRequestMap_node_branch_ok. intros id p Hlookup.
  by rewrite lookup_empty in Hlookup.
Qed.

(** The sweep keeps every pull request and changes its merge status
    only. *)
Lemma SetStackedCheck_lookup (cfg : config.Config) (h : heap)
    (commits : list LocalCommit) (p : ptr) (pr : github.PullRequest) :
  h !! p = Some pr ->
  SetStackedCheck cfg h commits !! p = Some pr
  ∨ SetStackedCheck cfg h commits !! p = Some (markStacked pr).
Proof.
  intros Hp. unfold SetStackedCheck.
  rewrite SetStackedCheck_loop_lookup, Hp. cbn.
  destruct (bool_decide _); [by right|by left].
Qed.

(** The local commits of the assembled state, one by one. *)
Lemma NewState_commits (cfg : config.Config) (repositoryId : string)
    (nodes : list genqlient.PullRequestNode) (commits : list object.Commit) :
  LocalCommits (NewState cfg repositoryId nodes commits).1.1
  = assembled_commit (NewState cfg repositoryId nodes commits).1.2
      (GeneratePullRequestMap [] nodes).2
    <$> GenerateCommits commits.
Proof. by rewrite NewState_LocalCommits, AssignPullRequests_attach. Qed.

End AssembledState.

(** X7.  Branch name and commit-id agree in the assembled state: the pull
    request of a local commit is in the store, and the commit-id its head
    ref yields, like the commit-id recorded in it, is the commit-id of the
    commit. *)
Theorem NewState_branch_commit_id (cfg : config.Config)
    (repositoryId : string) (nodes : list genqlient.PullRequestNode)
    (commits : list object.Commit) (cm : LocalCommit) (p : ptr) :
  cm ∈ LocalCommits (NewState cfg repositoryId nodes commits).1.1 ->
  PullRequest cm = Some p ->
  exists pr,
    (NewState cfg repositoryId nodes commits).2 !! p = Some pr
    ∧ CommitIdFromBranch (github.FromBranch pr) = git.CommitID (Commit cm)
    ∧ git.CommitID (github.Commit pr) = git.CommitID (Commit cm).
Proof.
  rewrite NewState_commits, NewState_heap.
  intros (g & -> & Hg)%list_elem_of_fmap. cbn. intros Hp.
  destruct (GeneratePullRequestMap_branch_ok nodes _ _ Hp)
    as (pr & Hpr & Hbranch).
  destruct (GeneratePullRequestMap_ok nodes _ _ Hp)
    as (pr' & Hpr' & Hid & _).
  assert (pr' = pr) as -> by congruence.
  destruct (SetStackedCheck_lookup
              (NewState cfg repositoryId nodes commits).1.2 _
              (LocalCommits (NewState cfg repositoryId nodes commits).1.1)
              p pr Hpr) as [Hh|Hh];
    eexists; (split; [exact Hh|]); done.
Qed.

Lemma NewState_branch_commit_id_witness :
  exists pr,
    stacked_assembled.2 !! 1%nat = Some pr
    ∧ CommitIdFromBranch (github.FromBranch pr)
      = git.CommitID (Commit stacked_commit_b)
    ∧ git.CommitID (github.Commit pr) = git.CommitID (Commit stacked_commit_b).
Proof.
  apply (NewState_branch_commit_id stacked_cfg "R_1" stacked_nodes
           stacked_commits stacked_commit_b 1%nat).
  - apply (list_elem_of_lookup_2 _ 0%nat). vm_compute. reflexivity.
  - reflexivity.
Defined.

(** X8.  In the assembled state a local commit has the pull request that
    is open under its commit-id, and it is in a PR set only if it has a
    pull request: its PR-set index is the one persisted under its
    commit-id when it has a pull request, and nil otherwise. *)
Theorem NewState_PRIndex (cfg : config.Config) (repositoryId : string)
    (nodes : list genqlient.PullRequestNode) (commits : list object.Commit)
    (cm : LocalCommit) :
  cm ∈ LocalCommits (NewState cfg repositoryId nodes commits).1.1 ->
  PullRequest cm
  = (GeneratePullRequestMap [] nodes).2 !! git.CommitID (Commit cm)
  ∧ PRIndex cm
    = match PullRequest cm with
      | Some _ => repoPRSetMap cfg !! git.CommitID (Commit cm)
      | None => None
      end.
Proof.
  rewrite NewState_commits.
  intros (g & -> & Hg)%list_elem_of_fmap. cbn. split; [done|].
  destruct (GenerateCommits_fresh _ _ Hg) as [_ ->].
  destruct (_ !! git.CommitID (Commit g)) as [p|] eqn:Hp; [|done].
  destruct (repoPRSetMap (NewState cfg repositoryId nodes commits).1.2
              !! git.CommitID (Commit g)) as [k|] eqn:Hk.
  - rewrite NewState_config in Hk.
    by apply UpdateRepoToCommitIdToPrSet_lookup in Hk as [-> _].
  - destruct (repoPRSetMap cfg !! git.CommitID (Commit g)) as [k|] eqn:Hk0;
      [|done].
    rewrite NewState_config in Hk.
    assert (repoPRSetMap
              (UpdateRepoToCommitIdToPrSet cfg
                 (NewState_attach (GeneratePullRequestMap [] nodes).2
                    (GenerateCommits commits))
                 (GeneratePullRequestMap [] nodes).2)
              !! git.CommitID (Commit g) = Some k) as Hk'; [|congruence].
    apply UpdateRepoToCommitIdToPrSet_lookup. split; [done|]. split.
    + apply NewState_attach_CommitID. by exists g.
    + by eexists.
Qed.

Lemma NewState_PRIndex_witness :
  PullRequest stacked_commit_b
  = (GeneratePullRequestMap [] stacked_nodes).2
      !! git.CommitID (Commit stacked_commit_b)
  ∧ PRIndex stacked_commit_b
    = match PullRequest stacked_commit_b with
      | Some _ =>
          repoPRSetMap stacked_cfg !! git.CommitID (Commit stacked_commit_b)
      | None => None
      end.
Proof.
  apply (NewState_PRIndex stacked_cfg "R_1" stacked_nodes stacked_commits
           stacked_commit_b).
  apply (list_elem_of_lookup_2 _ 0%nat). vm_compute. reflexivity.
Defined.

(** X9.  Every open pull request on a managed branch is in the store, at
    the address that counts the managed pull requests listed before it.
    When the forge lists no later pull request of the same commit-id, it
    is the pull request of a local commit or an orphan, never both; when a
    later one shadows it, it is neither.  The orphans of the assembled
    state are pull requests of the map, never a nil pointer. *)
Theorem NewState_attached_or_orphaned (cfg : config.Config)
    (repositoryId : string)
    (nodes before after : list genqlient.PullRequestNode)
    (prNode : genqlient.PullRequestNode) (commits : list object.Commit) :
  nodes = (before ++ prNode :: after)%list ->
  managed_node prNode = true ->
  (exists pr,
     (NewState cfg repositoryId nodes commits).2
       !! List.length (List.filter managed_node before) = Some pr
     ∧ github.Id pr = genqlient.Id prNode
     ∧ github.Number pr = genqlient.Number prNode
     ∧ github.FromBranch pr = genqlient.HeadRefName prNode)
  ∧ ((forall later,
        later ∈ after ->
        CommitIdFromBranch (genqlient.HeadRefName later)
        ≠ CommitIdFromBranch (genqlient.HeadRefName prNode)) ->
     ((exists cm,
         cm ∈ LocalCommits (NewState cfg repositoryId nodes commits).1.1
         ∧ PullRequest cm
           = Some (List.length (List.filter managed_node before)))
      ∨ Some (List.length (List.filter managed_node before))
          ∈ OrphanedPRs (NewState cfg repositoryId nodes commits).1.1)
     ∧ ¬ ((exists cm,
             cm ∈ LocalCommits (NewState cfg repositoryId nodes commits).1.1
             ∧ PullRequest cm
               = Some (List.length (List.filter managed_node before)))
          ∧ Some (List.length (List.filter managed_node before))
              ∈ OrphanedPRs (NewState cfg repositoryId nodes commits).1.1))
  ∧ (shadowed_node after prNode ->
     (¬ exists cm,
          cm ∈ LocalCommits (NewState cfg repositoryId nodes commits).1.1
          ∧ PullRequest cm
            = Some (List.length (List.filter managed_node before)))
     ∧ Some (List.length (List.filter managed_node before))
         ∉ OrphanedPRs (NewState cfg repositoryId nodes commits).1.1)
  ∧ forall o,
      o ∈ OrphanedPRs (NewState cfg repositoryId nodes commits).1.1 ->
      exists id p,
        o = Some p ∧ (GeneratePullRequestMap [] nodes).2 !! id = Some p.
Proof.
  intros -> Hmanaged.
  rewrite NewState_OrphanedPRs, NewState_commits.
  pose proof (GeneratePullRequestMap_ok (before ++ prNode :: after)) as Hok.
  set (prMap := (GeneratePullRequestMap [] (before ++ prNode :: after)).2)
    in *.
  set (p := List.length (List.filter managed_node before)).
  set (cfg' := (NewState cfg repositoryId (before ++ prNode :: after)
                  commits).1.2).
  assert (forall id,
            prMap !! id = Some p ->
            (exists cm,
               cm ∈ assembled_commit cfg' prMap <$> GenerateCommits commits
               ∧ PullRequest cm = Some p)
            <-> exists g,
                  g ∈ GenerateCommits commits
                  ∧ git.CommitID (Commit g) = id) as Hattached.
  { intros id Hid. split.
    - intros (cm & (g & -> & Hg)%list_elem_of_fmap & Hp). cbn in Hp.
      exists g. split; [done|].
      destruct (Hok _ _ Hp) as (pr1 & Hpr1 & Hid1 & _).
      destruct (Hok _ _ Hid) as (pr2 & Hpr2 & Hid2 & _).
      congruence.
    - intros (g & Hg & <-). eexists. split.
      + apply list_elem_of_fmap. by exists g.
      + done. }
  assert (forall id,
            prMap !! id = Some p ->
            Some p
              ∈ GetOrphanedPRs
                  (NewState_attach prMap (GenerateCommits commits)) prMap
            <-> forall g,
                  g ∈ GenerateCommits commits ->
                  git.CommitID (Commit g) ≠ id) as Horphaned.
  { intros id Hid. rewrite GetOrphanedPRs_spec. split.
    - intros (id' & p' & [= <-] & Hp' & Hnone) g Hg Heq.
      destruct (Hok _ _ Hp') as (pr1 & Hpr1 & Hid1 & _).
      destruct (Hok _ _ Hid) as (pr2 & Hpr2 & Hid2 & _).
      apply (Hnone (setPullRequest (prMap !! git.CommitID (Commit g)) g)).
      + unfold NewState_attach. apply list_elem_of_fmap. by exists g.
      + cbn. congruence.
    - intros Hnone. exists id, p. split; [done|]. split; [done|].
      intros cm (g & -> & Hg)%list_elem_of_fmap Heq. cbn in Heq.
      by apply (Hnone g). }
  split; [|split; [|split]].
  - by apply NewState_node_at.
  - intros Hlast.
    pose proof (GeneratePullRequestMap_last before after prNode Hmanaged
                  Hlast) as Hid.
    fold prMap p in Hid.
    rewrite (Hattached _ Hid), (Horphaned _ Hid). split.
    + destruct (decide (CommitIdFromBranch (genqlient.HeadRefName prNode)
                        ∈ (fun g => git.CommitID (Commit g))
                          <$> GenerateCommits commits)) as [Hin|Hnot].
      * left. apply list_elem_of_fmap in Hin as (g & Heq & Hg).
        by exists g.
      * right. intros g Hg Heq. apply Hnot, list_elem_of_fmap.
        by exists g.
    + intros [(g & Hg & Heq) Hnone]. by apply (Hnone g).
  - intros Hshadow.
    pose proof (fun id =>
                  shadowed_node_not_in_map before after prNode id Hmanaged
                    Hshadow) as Hnot.
    fold prMap p in Hnot. split.
    + intros (cm & (g & -> & Hg)%list_elem_of_fmap & Hp). cbn in Hp.
      exact (Hnot _ Hp).
    + intros (id & p' & [= <-] & Hp & _)%GetOrphanedPRs_spec.
      exact (Hnot _ Hp).
  - intros o (id & p' & -> & Hp & _)%GetOrphanedPRs_spec. by exists id, p'.
Qed.

Lemma NewState_attached_or_orphaned_witness :
  (exists pr,
     shadow_assembled.2 !! 1%nat = Some pr
     ∧ github.Id pr = "PR_b"
     ∧ github.Number pr = 2
     ∧ github.FromBranch pr = "spr/next/aaaaaaaa")
  ∧ ((forall later,
        later ∈ [] ->
        CommitIdFromBranch (genqlient.HeadRefName later) ≠ "aaaaaaaa") ->
     ((exists cm,
         cm ∈ LocalCommits shadow_assembled.1.1
         ∧ PullRequest cm = Some 1%nat)
      ∨ Some 1%nat ∈ OrphanedPRs shadow_assembled.1.1)
     ∧ ¬ ((exists cm,
             cm ∈ LocalCommits shadow_assembled.1.1
             ∧ PullRequest cm = Some 1%nat)
          ∧ Some 1%nat ∈ OrphanedPRs shadow_assembled.1.1))
  ∧ (shadowed_node []
       (genqlient.mkNode "PR_b" 2 2 "spr/next/aaaaaaaa" "next" "Feature A"
          "" "MERGEABLE" "APPROVED" (genqlient.mkRollup "SUCCESS")
          [genqlient.mkCommitNode "ra" "Feature A" ""]) ->
     (¬ exists cm,
          cm ∈ LocalCommits shadow_assembled.1.1
          ∧ PullRequest cm = Some 1%nat)
     ∧ Some 1%nat ∉ OrphanedPRs shadow_assembled.1.1)
  ∧ forall o,
      o ∈ OrphanedPRs shadow_assembled.1.1 ->
      exists id p,
        o = Some p ∧ (GeneratePullRequestMap [] shadow_nodes).2 !! id = Some p.
Proof.
  apply (NewState_attached_or_orphaned stacked_cfg "R_1" shadow_nodes
           [genqlient.mkNode "PR_a" 1 1 "spr/main/aaaaaaaa" "main"
              "Feature A" "" "MERGEABLE" "APPROVED"
              (genqlient.mkRollup "SUCCESS")
              [genqlient.mkCommitNode "ra" "Feature A" ""]]
           []
           (genqlient.mkNode "PR_b" 2 2 "spr/next/aaaaaaaa" "next"
              "Feature A" "" "MERGEABLE" "APPROVED"
              (genqlient.mkRollup "SUCCESS")
              [genqlient.mkCommitNode "ra" "Feature A" ""])
           []).
  - reflexivity.
  - reflexivity.
Defined.

(** ** Persisting the assembled state *)

Section PersistAssembled.

(** Without any assumption on the commit-ids: when the PR-set index of a
    commit is a function of its commit-id, the loop writes that function
    on the commit-ids of the commits. *)
Lemma UpdatePRSetState_loop_fun (f : string -> option Z)
    (l : list LocalCommit) (id : string) :
  (forall cm, cm ∈ l -> PRIndex cm = f (git.CommitID (Commit cm))) ->
  UpdatePRSetState_loop l ∅ !! id
  = if bool_decide (id ∈ (fun cm => git.CommitID (Commit cm)) <$> l)
    then f id else None.
Proof.
  induction l as [|x l IH] using rev_ind; intros Hf.
  - unfold UpdatePRSetState_loop. cbn [fold_left]. rewrite lookup_empty.
    rewrite bool_decide_eq_false_2; [done|]. cbn. apply not_elem_of_nil.
  - rewrite UpdatePRSetState_loop_snoc.
    assert (UpdatePRSetState_loop l ∅ !! id
            = if bool_decide
                   (id ∈ (fun cm => git.CommitID (Commit cm)) <$> l)
              then f id else None) as Hl.
    { apply IH. intros cm Hin. apply Hf, elem_of_app. by left. }
    assert (PRIndex x = f (git.CommitID (Commit x))) as Hx.
    { apply Hf, elem_of_app. right. by left. }
    rewrite fmap_app. cbn [fmap list_fmap].
    destruct (decide (git.CommitID (Commit x) = id)) as [<-|Hne].
    + rewrite bool_decide_eq_true_2
        by (apply elem_of_app; right; by left).
      rewrite <- Hx. destruct (PRIndex x) as [k|] eqn:Hk.
      * by rewrite lookup_insert_eq.
      * rewrite Hl. rewrite <- Hx. by destruct (bool_decide _).
    + assert (bool_decide
                (id ∈ (((fun cm => git.CommitID (Commit cm)) <$> l)
                       ++ [git.CommitID (Commit x)])%list)
              = bool_decide
                  (id ∈ (fun cm => git.CommitID (Commit cm)) <$> l))
        as ->.
      { apply bool_decide_ext. rewrite elem_of_app, list_elem_of_singleton.
        split; [intros [?| ->]; [done|by destruct Hne]|by left]. }
      destruct (PRIndex x) as [k|]; [by rewrite lookup_insert_ne|done].
Qed.

End PersistAssembled.

(** X10.  Persisting right after assembling changes nothing: the map
    [UpdatePRSetState] builds from the assembled commits is the persisted
    map state assembly left behind, so the configuration is the same. *)
Theorem UpdatePRSetState_NewState (cfg : config.Config)
    (repositoryId : string) (nodes : list genqlient.PullRequestNode)
    (commits : list object.Commit) :
  UpdatePRSetState (NewState cfg repositoryId nodes commits).1.1
    (NewState cfg repositoryId nodes commits).1.2
  = (NewState cfg repositoryId nodes commits).1.2.
Proof.
  assert (UpdatePRSetState_loop
            (LocalCommits (NewState cfg repositoryId nodes commits).1.1) ∅
          = repoPRSetMap (NewState cfg repositoryId nodes commits).1.2)
    as Hmap.
  { apply map_eq. intros id.
    rewrite (UpdatePRSetState_loop_fun
               (fun id =>
                  match (GeneratePullRequestMap [] nodes).2 !! id with
                  | Some _ =>
                      repoPRSetMap
                        (NewState cfg repositoryId nodes commits).1.2 !! id
                  | None => None
                  end)).
    - cbn beta.
      destruct (repoPRSetMap (NewState cfg repositoryId nodes commits).1.2
                  !! id) as [k|] eqn:Hk.
      + pose proof Hk as Hk'. rewrite NewState_config in Hk'.
        apply UpdateRepoToCommitIdToPrSet_lookup in Hk'
          as (_ & Hcm & [p Hp]).
        apply NewState_attach_CommitID in Hcm as (g & Hg & Hid).
        rewrite Hp, bool_decide_eq_true_2; [done|].
        rewrite NewState_commits, <- list_fmap_compose.
        apply list_elem_of_fmap. by exists g.
      + destruct (bool_decide _); [|done].
        by destruct ((GeneratePullRequestMap [] nodes).2 !! id).
    - intros cm. rewrite NewState_commits.
      intros (g & -> & Hg)%list_elem_of_fmap. cbn.
      destruct (GenerateCommits_fresh _ _ Hg) as [_ ->].
      destruct (_ !! git.CommitID (Commit g)); [|done].
      by destruct (repoPRSetMap _ !! git.CommitID (Commit g)). }
  unfold UpdatePRSetState. rewrite Hmap, NewState_config.
  unfold UpdateRepoToCommitIdToPrSet. cbn zeta.
  rewrite repoPRSetMap_setPRSetMap.
  unfold config.setPRSetMap. cbn. by rewrite insert_insert_eq.
Qed.

(** X11.  Persist, then assemble again: reading the same commits and pull
    requests back after [UpdatePRSetState] gives every commit that has an
    open pull request the PR-set index it had when the map was written,
    and no index to a commit without one.  The commit-ids have to be
    distinct. *)
Theorem NewState_UpdatePRSetState (s : State) (cfg : config.Config)
    (repositoryId : string) (nodes : list genqlient.PullRequestNode)
    (commits : list object.Commit) (i : nat) (cm cm' : LocalCommit) :
  NoDup ((fun cm => git.CommitID (Commit cm)) <$> LocalCommits s) ->
  Commit <$> LocalCommits s = Commit <$> GenerateCommits commits ->
  LocalCommits s !! i = Some cm ->
  LocalCommits
    (NewState (UpdatePRSetState s cfg) repositoryId nodes commits).1.1 !! i
  = Some cm' ->
  Commit cm' = Commit cm
  ∧ PRIndex cm'
    = match (GeneratePullRequestMap [] nodes).2 !! git.CommitID (Commit cm)
      with
      | Some _ => PRIndex cm
      | None => None
      end.
Proof.
  intros Hnodup Hsame Hcm. rewrite NewState_commits, list_lookup_fmap.
  destruct (GenerateCommits commits !! i) as [g|] eqn:Hg; [|done].
  cbn. intros [= <-]. cbn.
  assert (Commit g = Commit cm) as Hcommit.
  { assert ((Commit <$> LocalCommits s) !! i = Some (Commit cm)) as Hi
      by (by rewrite list_lookup_fmap, Hcm).
    rewrite Hsame, list_lookup_fmap, Hg in Hi. by injection Hi. }
  split; [done|].
  destruct (GenerateCommits_fresh commits g) as [_ ->];
    [by eapply list_elem_of_lookup_2|].
  rewrite Hcommit.
  destruct (_ !! git.CommitID (Commit cm)) as [p|] eqn:Hp; [|done].
  assert (forall k,
            repoPRSetMap
              (NewState (UpdatePRSetState s cfg) repositoryId nodes
                 commits).1.2 !! git.CommitID (Commit cm) = Some k
            <-> PRIndex cm = Some k) as Hiff.
  { intros k. rewrite NewState_config, UpdateRepoToCommitIdToPrSet_lookup.
    unfold UpdatePRSetState. rewrite repoPRSetMap_setPRSetMap.
    rewrite (UpdatePRSetState_loop_lookup _ _ _ Hnodup). split.
    - intros ((c & Hc & Hid & Hk) & _).
      apply list_elem_of_lookup in Hc as (j & Hj).
      assert (j = i) as ->; [|congruence].
      apply (NoDup_lookup _ _ _ (git.CommitID (Commit cm)) Hnodup).
      + by rewrite list_lookup_fmap, Hj; cbn; rewrite Hid.
      + by rewrite list_lookup_fmap, Hcm.
    - intros Hk. split; [|split].
      + exists cm. split; [by eapply list_elem_of_lookup_2|done].
      + apply NewState_attach_CommitID. exists g.
        split; [by eapply list_elem_of_lookup_2|by rewrite Hcommit].
      + by eexists. }
  destruct (repoPRSetMap _ !! git.CommitID (Commit cm)) as [k|] eqn:Hk.
  - symmetry. by apply Hiff.
  - destruct (PRIndex cm) as [k|]; [|done].
    by destruct (proj2 (Hiff k) eq_refl).
Qed.

Lemma NewState_UpdatePRSetState_witness :
  Commit stacked_commit_b = Commit stacked_commit_b
  ∧ PRIndex stacked_commit_b
    = match (GeneratePullRequestMap [] stacked_nodes).2
              !! git.CommitID (Commit stacked_commit_b)
      with
      | Some _ => PRIndex stacked_commit_b
      | None => None
      end.
Proof.
  apply (NewState_UpdatePRSetState stacked_assembled.1.1 stacked_cfg "R_1"
           stacked_nodes stacked_commits 0%nat stacked_commit_b
           stacked_commit_b).
  - apply (bool_decide_unpack _). vm_compute. exact I.
  - vm_compute. reflexivity.
  - vm_compute. reflexivity.
  - vm_compute. reflexivity.
Defined.

(** ** Applying a selection, whatever the destination *)

Section ApplyIndicesGeneral.

Lemma isInPrSet_decide (cm : LocalCommit) (dest : Z) :
  match PRIndex cm with Some k => k =? dest | None => false end
  = bool_decide (PRIndex cm = Some dest).
Proof.
  destruct (PRIndex cm) as [k|]; [|done].
  destruct (Z.eqb_spec k dest) as [->|Hne].
  - by rewrite bool_decide_eq_true_2.
  - rewrite bool_decide_eq_false_2; [done|congruence].
Qed.

(** The pull requests the loop adds to the orphans: those of the commits
    that leave the destination set. *)
Lemma ApplyIndices_loop_orphans (dest : Z) (commitIndexes : gset Z)
    (commits : list LocalCommit) (orphaned : gset (option ptr))
    (mutated : gset Z) (o : option ptr) :
  o ∈ (ApplyIndices_loop dest commitIndexes commits orphaned mutated).1.2
  <-> o ∈ orphaned
      ∨ exists cm,
          cm ∈ commits ∧ PRIndex cm = Some dest
          ∧ (Index cm ∉ commitIndexes) ∧ PullRequest cm = o.
Proof.
  revert orphaned mutated.
  induction commits as [|cm cms IH]; intros orphaned mutated.
  - cbn. split; [by left|]. intros [?|(cm & Hin & _)]; [done|].
    by apply elem_of_nil in Hin.
  - cbn [ApplyIndices_loop]. rewrite isInPrSet_decide.
    destruct (bool_decide (Index cm ∈ commitIndexes)) eqn:Hshould;
      destruct (bool_decide (PRIndex cm = Some dest)) eqn:Hin;
      cbn [andb negb];
      match goal with
      | |- context [ApplyIndices_loop ?d ?c cms ?o' ?m] =>
          specialize (IH o' m);
          destruct (ApplyIndices_loop d c cms o' m) as [[rest' o''] m']
      end; cbn [fst snd] in *; rewrite IH; clear IH;
      try apply bool_decide_eq_true in Hshould;
      try apply bool_decide_eq_false in Hshould;
      try apply bool_decide_eq_true in Hin;
      try apply bool_decide_eq_false in Hin.
    + split.
      * intros [?|(c & Hc & ?)]; [by left|]. right. exists c.
        split; [by right|done].
      * intros [?|(c & [->|Hc]%elem_of_cons & Hd & Hsel & Ho)];
          [by left|done|]. right. by exists c.
    + split.
      * intros [?|(c & Hc & ?)]; [by left|]. right. exists c.
        split; [by right|done].
      * intros [?|(c & [->|Hc]%elem_of_cons & Hd & Hsel & Ho)];
          [by left|done|]. right. by exists c.
    + rewrite elem_of_union, elem_of_singleton. split.
      * intros [[->|?]|(c & Hc & ?)].
        -- right. exists cm. split; [by left|done].
        -- by left.
        -- right. exists c. split; [by right|done].
      * intros [?|(c & [->|Hc]%elem_of_cons & Hd & Hsel & Ho)].
        -- left. by right.
        -- left. by left.
        -- right. by exists c.
    + split.
      * intros [?|(c & Hc & ?)]; [by left|]. right. exists c.
        split; [by right|done].
      * intros [?|(c & [->|Hc]%elem_of_cons & Hd & Hsel & Ho)];
          [by left|done|]. right. by exists c.
Qed.

(** The PR sets the loop adds to the mutated ones: the destination when a
    commit enters or leaves it, and the set a commit is taken from. *)
Lemma ApplyIndices_loop_mutated (dest : Z) (commitIndexes : gset Z)
    (commits : list LocalCommit) (orphaned : gset (option ptr))
    (mutated : gset Z) (k : Z) :
  k ∈ (ApplyIndices_loop dest commitIndexes commits orphaned mutated).2
  <-> k ∈ mutated
      ∨ exists cm,
          cm ∈ commits
          ∧ PRIndex cm ≠ PRIndex (ApplyIndices_commit dest commitIndexes cm)
          ∧ (PRIndex cm = Some k
             ∨ PRIndex (ApplyIndices_commit dest commitIndexes cm) = Some k).
Proof.
  revert orphaned mutated.
  induction commits as [|cm cms IH]; intros orphaned mutated.
  - cbn. split; [by left|]. intros [?|(cm & Hin & _)]; [done|].
    by apply elem_of_nil in Hin.
  - cbn [ApplyIndices_loop]. rewrite isInPrSet_decide.
    assert ((exists c, c ∈ cm :: cms
                 ∧ PRIndex c
                   ≠ PRIndex (ApplyIndices_commit dest commitIndexes c)
                 ∧ (PRIndex c = Some k
                    ∨ PRIndex (ApplyIndices_commit dest commitIndexes c)
                      = Some k))
              <-> (PRIndex cm
                   ≠ PRIndex (ApplyIndices_commit dest commitIndexes cm)
                   ∧ (PRIndex cm = Some k
                      ∨ PRIndex (ApplyIndices_commit dest commitIndexes cm)
                        = Some k))
                  ∨ (exists c, c ∈ cms
                       ∧ PRIndex c
                         ≠ PRIndex (ApplyIndices_commit dest commitIndexes c)
                       ∧ (PRIndex c = Some k
                          ∨ PRIndex
                              (ApplyIndices_commit dest commitIndexes c)
                            = Some k))) as Hsplit.
    { split.
      - intros (c & [->|Hc]%elem_of_cons & Hrest); [by left|].
        right. by exists c.
      - intros [Hrest|(c & Hc & Hrest)].
        + exists cm. split; [by left|done].
        + exists c. split; [by right|done]. }
    rewrite Hsplit. clear Hsplit.
    unfold ApplyIndices_commit at 1 2.
    destruct (bool_decide (Index cm ∈ commitIndexes)) eqn:Hshould;
      destruct (bool_decide (PRIndex cm = Some dest)) eqn:Hin;
      cbn [andb negb];
      match goal with
      | |- context [ApplyIndices_loop ?d ?c cms ?o' ?m] =>
          specialize (IH o' m);
          destruct (ApplyIndices_loop d c cms o' m) as [[rest' o''] m']
      end; cbn [fst snd] in *; rewrite IH; clear IH;
      try apply bool_decide_eq_true in Hin;
      try apply bool_decide_eq_false in Hin; cbn.
    + rewrite Hin. split; [intros [?|?]; [by left|by right; right]|].
      intros [?|[[? _]|?]]; [by left|done|by right].
    + destruct (PRIndex cm) as [old|] eqn:Hold.
      * rewrite !elem_of_union, !elem_of_singleton. split.
        -- intros [[->|[->|?]]|?].
           ++ right. left. split; [congruence|by right].
           ++ right. left. split; [congruence|by left].
           ++ by left.
           ++ right. by right.
        -- intros [?|[[_ [[= ->]|[= ->]]]|?]].
           ++ left. right. by right.
           ++ left. right. by left.
           ++ left. by left.
           ++ by right.
      * rewrite !elem_of_union, !elem_of_singleton. split.
        -- intros [[->|?]|?].
           ++ right. left. split; [done|by right].
           ++ by left.
           ++ right. by right.
        -- intros [?|[[_ [?|[= ->]]]|?]]; [left; by right|done| |by right].
           left. by left.
    + rewrite Hin, !elem_of_union, !elem_of_singleton. split.
      * intros [[->|?]|?].
        -- right. left. split; [done|by left].
        -- by left.
        -- right. by right.
      * intros [?|[[_ [[= ->]|?]]|?]]; [left; by right| |done|by right].
        left. by left.
    + split; [intros [?|?]; [by left|by right; right]|].
      intros [?|[[? _]|?]]; [by left|done|by right].
Qed.

(** Commits that already agree with the selection are left alone, and
    nothing is orphaned or mutated. *)
Lemma ApplyIndices_loop_fixed (dest : Z) (commitIndexes : gset Z)
    (commits : list LocalCommit) (orphaned : gset (option ptr))
    (mutated : gset Z) :
  (forall cm, cm ∈ commits ->
     PRIndex cm = Some dest <-> Index cm ∈ commitIndexes) ->
  ApplyIndices_loop dest commitIndexes commits orphaned mutated
  = (commits, orphaned, mutated).
Proof.
  induction commits as [|cm cms IH]; intros Hagree; [done|].
  cbn [ApplyIndices_loop]. rewrite isInPrSet_decide.
  rewrite IH by (intros c Hc; apply Hagree; by right).
  destruct (decide (Index cm ∈ commitIndexes)) as [Hsel|Hsel].
  - rewrite (bool_decide_eq_true_2 _ Hsel).
    rewrite bool_decide_eq_true_2; [done|].
    apply Hagree; [by left|done].
  - rewrite (bool_decide_eq_false_2 _ Hsel).
    rewrite bool_decide_eq_false_2; [done|].
    intros Hd. apply Hsel, Hagree; [by left|done].
Qed.

(** The result of a call that is not the no-op, from its destination. *)
Lemma ApplyIndices_dest_Some (s : State) (indices : Indices) (d : Z) :
  DestinationPRIndex (ApplyIndices s indices).2 = Some d ->
  ApplyIndices s indices
  = (mkState (RepositoryId s)
       (ApplyIndices_commit d (CommitIndexes indices) <$> LocalCommits s)
       (ApplyIndices_loop d (CommitIndexes indices) (LocalCommits s)
          (OrphanedPRs s) (MutatedPRSets s)).1.2
       ((ApplyIndices_loop d (CommitIndexes indices) (LocalCommits s)
           (OrphanedPRs s) (MutatedPRSets s)).2
        ∩ existingPRSets
            (ApplyIndices_commit d (CommitIndexes indices)
             <$> LocalCommits s)),
     mkIndices (Some d) (CommitIndexes indices)).
Proof.
  intros Hd.
  destruct (decide (DestinationPRIndex indices = None)) as [Hnone|Hsome].
  - destruct (decide (CommitIndexes indices = ∅)) as [Hempty|Hne].
    + exfalso. revert Hd. unfold ApplyIndices.
      rewrite bool_decide_eq_true_2 by done.
      rewrite (proj2 (size_zero_empty _) Hempty). cbn. by rewrite Hnone.
    + destruct (ApplyIndices_not_noop s indices (or_intror Hne))
        as (dest & commits & orphaned & mutated & Hloop & Hdest & Heq).
      rewrite Heq in Hd |- *. cbn in Hd. injection Hd as ->.
      pose proof (ApplyIndices_loop_commits d (CommitIndexes indices)
                    (LocalCommits s) (OrphanedPRs s) (MutatedPRSets s))
        as Hcommits.
      rewrite Hloop in Hcommits |- *. cbn in Hcommits |- *.
      by rewrite Hcommits.
  - destruct (ApplyIndices_not_noop s indices (or_introl Hsome))
      as (dest & commits & orphaned & mutated & Hloop & Hdest & Heq).
    rewrite Heq in Hd |- *. cbn in Hd. injection Hd as ->.
    pose proof (ApplyIndices_loop_commits d (CommitIndexes indices)
                  (LocalCommits s) (OrphanedPRs s) (MutatedPRSets s))
      as Hcommits.
    rewrite Hloop in Hcommits |- *. cbn in Hcommits |- *.
    by rewrite Hcommits.
Qed.

End ApplyIndicesGeneral.

(** X12.  [ApplyIndices] touches PR-set indices only: the commits stay in
    their places with their commit, pull request and index, and with
    destination [d] a selected commit gets the index [d], an unselected
    member of [d] loses its index, and any other commit keeps its own. *)
Theorem ApplyIndices_frame (s : State) (indices : Indices) (d : Z) :
  DestinationPRIndex (ApplyIndices s indices).2 = Some d ->
  List.length (LocalCommits (ApplyIndices s indices).1)
  = List.length (LocalCommits s)
  ∧ forall i cm,
      LocalCommits s !! i = Some cm ->
      exists cm',
        LocalCommits (ApplyIndices s indices).1 !! i = Some cm'
        ∧ Commit cm' = Commit cm
        ∧ PullRequest cm' = PullRequest cm
        ∧ Index cm' = Index cm
        ∧ PRIndex cm'
          = if bool_decide (Index cm ∈ CommitIndexes indices) then Some d
            else if bool_decide (PRIndex cm = Some d) then None
            else PRIndex cm.
Proof.
  intros Hd. rewrite (ApplyIndices_dest_Some s indices d Hd). cbn.
  split; [by rewrite length_fmap|].
  intros i cm Hcm. eexists. rewrite list_lookup_fmap, Hcm.
  split; [done|]. unfold ApplyIndices_commit.
  destruct (bool_decide (Index cm ∈ CommitIndexes indices)); [done|].
  by destruct (bool_decide (PRIndex cm = Some d)).
Qed.

Lemma ApplyIndices_frame_witness :
  List.length
    (LocalCommits (ApplyIndices sample_state (mkIndices (Some 0) {[3]})).1)
  = List.length (LocalCommits sample_state)
  ∧ forall i cm,
      LocalCommits sample_state !! i = Some cm ->
      exists cm',
        LocalCommits (ApplyIndices sample_state (mkIndices (Some 0) {[3]})).1
          !! i = Some cm'
        ∧ Commit cm' = Commit cm
        ∧ PullRequest cm' = PullRequest cm
        ∧ Index cm' = Index cm
        ∧ PRIndex cm'
          = if bool_decide (Index cm ∈ ({[3]} : gset Z)) then Some 0
            else if bool_decide (PRIndex cm = Some 0) then None
            else PRIndex cm.
Proof.
  refine (ApplyIndices_frame sample_state (mkIndices (Some 0) {[3]}) 0 _).
  vm_compute. reflexivity.
Defined.

(** X13.  The orphans after [ApplyIndices] are the orphans before and the
    pull requests of the commits taken out of the destination set; such a
    commit without a pull request puts the nil pointer among them. *)
Theorem ApplyIndices_orphans (s : State) (indices : Indices) (d : Z)
    (o : option ptr) :
  DestinationPRIndex (ApplyIndices s indices).2 = Some d ->
  o ∈ OrphanedPRs (ApplyIndices s indices).1
  <-> o ∈ OrphanedPRs s
      ∨ exists cm,
          cm ∈ LocalCommits s ∧ PRIndex cm = Some d
          ∧ (Index cm ∉ CommitIndexes indices) ∧ PullRequest cm = o.
Proof.
  intros Hd. rewrite (ApplyIndices_dest_Some s indices d Hd). cbn.
  apply ApplyIndices_loop_orphans.
Qed.

Lemma ApplyIndices_orphans_witness :
  Some 1%nat
    ∈ OrphanedPRs (ApplyIndices sample_state (mkIndices (Some 0) {[0]})).1
  <-> Some 1%nat ∈ OrphanedPRs sample_state
      ∨ exists cm,
          cm ∈ LocalCommits sample_state ∧ PRIndex cm = Some 0
          ∧ (Index cm ∉ ({[0]} : gset Z)) ∧ PullRequest cm = Some 1%nat.
Proof.
  refine (ApplyIndices_orphans sample_state (mkIndices (Some 0) {[0]}) 0
            (Some 1%nat) _).
  vm_compute. reflexivity.
Defined.

(** X14.  With no destination and an empty selection [ApplyIndices] does
    nothing: the mutated PR sets stay as they were, also those that have
    no member.  In every other case the call writes a destination back,
    and the mutated PR sets after it are those that were mutated before or
    that gained or lost a commit in the call, as far as they still have a
    member. *)
Theorem ApplyIndices_mutated (s : State) (indices : Indices) :
  (DestinationPRIndex (ApplyIndices s indices).2 = None
   <-> DestinationPRIndex indices = None
       ∧ size (CommitIndexes indices) = 0%nat)
  ∧ (DestinationPRIndex (ApplyIndices s indices).2 = None ->
     ApplyIndices s indices = (s, indices))
  ∧ forall d k,
      DestinationPRIndex (ApplyIndices s indices).2 = Some d ->
      k ∈ MutatedPRSets (ApplyIndices s indices).1
      <-> (k ∈ MutatedPRSets s
           ∨ exists i cm cm',
               LocalCommits s !! i = Some cm
               ∧ LocalCommits (ApplyIndices s indices).1 !! i = Some cm'
               ∧ PRIndex cm ≠ PRIndex cm'
               ∧ (PRIndex cm = Some k ∨ PRIndex cm' = Some k))
          ∧ exists cm',
              cm' ∈ LocalCommits (ApplyIndices s indices).1
              ∧ PRIndex cm' = Some k.
Proof.
  assert (DestinationPRIndex (ApplyIndices s indices).2 = None
          -> (DestinationPRIndex indices = None
              ∧ size (CommitIndexes indices) = 0%nat)
             ∧ ApplyIndices s indices = (s, indices)) as Hnoop.
  { unfold ApplyIndices.
    destruct (bool_decide (DestinationPRIndex indices = None)) eqn:Hdest;
      cbn [andb].
    - destruct (Z.eqb_spec (Z.of_nat (size (CommitIndexes indices))) 0)
        as [Hsize|Hsize].
      + intros _. apply bool_decide_eq_true in Hdest.
        split; [split; [done|lia]|done].
      + by destruct (ApplyIndices_loop _ _ _ _ _) as [[? ?] ?].
    - by destruct (ApplyIndices_loop _ _ _ _ _) as [[? ?] ?]. }
  split; [|split].
  - split; [by intros [? _]%Hnoop|].
    intros [Hdest Hsize]. unfold ApplyIndices.
    rewrite bool_decide_eq_true_2 by done. rewrite Hsize. by cbn.
  - by intros [_ ?]%Hnoop.
  - intros d k Hd. rewrite (ApplyIndices_dest_Some s indices d Hd). cbn.
    rewrite elem_of_intersection, existingPRSets_spec,
      ApplyIndices_loop_mutated.
    split; intros [Hmut Hex]; (split; [|done]);
      destruct Hmut as [?|Hmut]; try by left.
    + right. destruct Hmut as (cm & (i & Hi)%list_elem_of_lookup & Hrest).
      exists i, cm, (ApplyIndices_commit d (CommitIndexes indices) cm).
      split; [done|]. by rewrite list_lookup_fmap, Hi.
    + right. destruct Hmut as (i & cm & cm' & Hi & Hi' & Hrest).
      rewrite list_lookup_fmap, Hi in Hi'. injection Hi' as <-.
      exists cm. split; [by eapply list_elem_of_lookup_2|done].
Qed.

(** X15.  Applying a selection twice is applying it once: with the
    indices the first call wrote back, a second call changes neither the
    state nor the indices. *)
Theorem ApplyIndices_idempotent (s : State) (indices : Indices) :
  ApplyIndices (ApplyIndices s indices).1 (ApplyIndices s indices).2
  = ApplyIndices s indices.
Proof.
  destruct (DestinationPRIndex (ApplyIndices s indices).2) as [d|] eqn:Hd.
  - rewrite (ApplyIndices_dest_Some s indices d Hd). cbn [fst snd].
    match goal with
    | |- ApplyIndices ?s' ?i' = _ =>
        rewrite (ApplyIndices_dest_Some s' i' d)
    end.
    + cbn [LocalCommits OrphanedPRs MutatedPRSets RepositoryId
             CommitIndexes].
      assert (forall cm,
                cm ∈ ApplyIndices_commit d (CommitIndexes indices)
                     <$> LocalCommits s ->
                PRIndex cm = Some d <-> Index cm ∈ CommitIndexes indices)
        as Hagree.
      { intros cm (c & -> & _)%list_elem_of_fmap.
        apply ApplyIndices_commit_member. }
      assert (ApplyIndices_commit d (CommitIndexes indices)
              <$> (ApplyIndices_commit d (CommitIndexes indices)
                   <$> LocalCommits s)
              = ApplyIndices_commit d (CommitIndexes indices)
                <$> LocalCommits s) as Hcommits.
      { rewrite <- (ApplyIndices_loop_commits d (CommitIndexes indices) _
                      ∅ ∅).
        by rewrite ApplyIndices_loop_fixed. }
      rewrite Hcommits, ApplyIndices_loop_fixed by done. cbn [fst snd].
      f_equal. f_equal. apply set_eq. intros k.
      rewrite !elem_of_intersection. tauto.
    + unfold ApplyIndices. cbn [DestinationPRIndex].
      rewrite bool_decide_eq_false_2 by done. cbn [andb CommitIndexes].
      by destruct (ApplyIndices_loop _ _ _ _ _) as [[? ?] ?].
  - assert (ApplyIndices s indices = (s, indices)) as Hnoop.
    { revert Hd. unfold ApplyIndices.
      destruct (_ && _); [done|]. cbn [CommitIndexes].
      by destruct (ApplyIndices_loop _ _ _ _ _) as [[? ?] ?]. }
    by rewrite !Hnoop.
Qed.

(** X16.  After [ApplyIndices] the destination set, as [CommitsByPRSet]
    returns it, is made of the selected commits, newest first, each with
    the destination as its PR-set index. *)
Theorem CommitsByPRSet_ApplyIndices (s : State) (indices : Indices)
    (d : Z) :
  DestinationPRIndex (ApplyIndices s indices).2 = Some d ->
  CommitsByPRSet (ApplyIndices s indices).1 d
  = setPRIndex (Some d)
    <$> List.filter
          (fun cm => bool_decide (Index cm ∈ CommitIndexes indices))
          (LocalCommits s).
Proof.
  intros Hd. rewrite (ApplyIndices_dest_Some s indices d Hd).
  unfold CommitsByPRSet. cbn [fst LocalCommits].
  induction (LocalCommits s) as [|cm cms IH]; [done|].
  cbn [fmap list_fmap List.filter]. rewrite isInPrSet_decide.
  rewrite (bool_decide_ext _ _ (ApplyIndices_commit_member d _ cm)).
  assert (Index (ApplyIndices_commit d (CommitIndexes indices) cm)
          = Index cm) as ->.
  { unfold ApplyIndices_commit. by repeat destruct (bool_decide _). }
  unfold ApplyIndices_commit at 1.
  destruct (bool_decide (Index cm ∈ CommitIndexes indices)); [|done].
  cbn [fmap list_fmap]. f_equal. apply IH.
Qed.

Lemma CommitsByPRSet_ApplyIndices_witness :
  CommitsByPRSet (ApplyIndices sample_state (mkIndices None {[4; 2]})).1 3
  = setPRIndex (Some 3)
    <$> List.filter
          (fun cm => bool_decide (Index cm ∈ ({[4; 2]} : gset Z)))
          (LocalCommits sample_state).
Proof.
  refine (CommitsByPRSet_ApplyIndices sample_state
            (mkIndices None {[4; 2]}) 3 _).
  vm_compute. reflexivity.
Defined.

(** ** The stacked sweep on any store *)

Section SetStackedCheckGeneral.

Context (cfg : config.Config).

(** The sweep does not change what a later sweep marks. *)
Lemma SetStackedCheck_swept_loop (h : heap)
    (commits commits' : list LocalCommit) :
  SetStackedCheck_swept cfg (SetStackedCheck_loop cfg h commits) commits'
  = SetStackedCheck_swept cfg h commits'.
Proof.
  revert h. induction commits as [|cm cms IH]; intros h; [done|].
  cbn [SetStackedCheck_loop].
  destruct (PullRequest cm) as [p|]; [|apply IH].
  destruct (h !! p) as [pr|] eqn:Hp; [|done].
  destruct (SetStackedCheck_passes cfg cm pr); [|done].
  rewrite IH. by apply SetStackedCheck_swept_insert.
Qed.

Lemma SetStackedCheck_loop_length (h : heap) (commits : list LocalCommit) :
  List.length (SetStackedCheck_loop cfg h commits) = List.length h.
Proof.
  revert h. induction commits as [|cm cms IH]; intros h; [done|].
  cbn [SetStackedCheck_loop].
  destruct (PullRequest cm) as [p|]; [|apply IH].
  destruct (h !! p) as [pr|] eqn:Hp; [|done].
  destruct (SetStackedCheck_passes cfg cm pr); [|done].
  by rewrite IH, length_insert.
Qed.

Lemma SetStackedCheck_swept_PullRequest (h : heap)
    (commits : list LocalCommit) (p : ptr) :
  p ∈ SetStackedCheck_swept cfg h commits ->
  exists cm, cm ∈ commits ∧ PullRequest cm = Some p.
Proof.
  induction commits as [|cm cms IH]; cbn [SetStackedCheck_swept].
  - by intros ?%elem_of_nil.
  - destruct (PullRequest cm) as [q|] eqn:Hq.
    + destruct (h !! q) as [pr|]; [|by intros ?%elem_of_nil].
      destruct (SetStackedCheck_passes cfg cm pr);
        [|by intros ?%elem_of_nil].
      intros [->|Hin]%elem_of_cons.
      * exists cm. split; [by left|done].
      * destruct (IH Hin) as (c & Hc & Hpr). exists c.
        split; [by right|done].
    + intros Hin. destruct (IH Hin) as (c & Hc & Hpr). exists c.
      split; [by right|done].
Qed.

End SetStackedCheckGeneral.

(** X17.  [SetStackedCheck] only ever sets stacked bits: the store keeps
    its size, a pull request comes out as it was or with its stacked bit
    set and nothing else changed, a pull request of none of the commits is
    untouched, and a second sweep changes nothing. *)
Theorem SetStackedCheck_only_sets_stacked (cfg : config.Config) (h : heap)
    (commits : list LocalCommit) :
  List.length (SetStackedCheck cfg h commits) = List.length h
  ∧ (forall p pr,
       h !! p = Some pr ->
       exists pr',
         SetStackedCheck cfg h commits !! p = Some pr'
         ∧ (pr' = pr
            ∨ pr' = github.setMergeStatus
                      (github.setStacked true (github.MergeStatus pr)) pr)
         ∧ ((forall cm, cm ∈ commits -> PullRequest cm ≠ Some p) ->
            pr' = pr))
  ∧ SetStackedCheck cfg (SetStackedCheck cfg h commits) commits
    = SetStackedCheck cfg h commits.
Proof.
  unfold SetStackedCheck. split; [apply SetStackedCheck_loop_length|].
  split.
  - intros p pr Hp. rewrite SetStackedCheck_loop_lookup, Hp. cbn.
    eexists. split; [done|]. case_bool_decide as Hswept.
    + split; [by right|]. intros Hnone.
      apply SetStackedCheck_swept_PullRequest in Hswept
        as (cm & Hcm & Hpr).
      rewrite list_elem_of_In, <- in_rev, <- list_elem_of_In in Hcm.
      by destruct (Hnone cm Hcm).
    + split; [by left|done].
  - apply list_eq. intros p.
    rewrite SetStackedCheck_loop_lookup, SetStackedCheck_swept_loop.
    rewrite !SetStackedCheck_loop_lookup.
    destruct (lookup (K:=ptr) p h) as [pr|]; cbn; [|done].
    case_bool_decide; [|done]. by rewrite markStacked_idemp.
Qed.

(** ** PR sets with commits out of order *)

Section OutOfOrder.

Lemma chain_broken_cons (a : github.PullRequest)
    (prs : list github.PullRequest) :
  chain_broken (a :: prs)
  <-> (exists b rest,
         prs = b :: rest ∧ github.FromBranch b ≠ github.ToBranch a)
      ∨ chain_broken prs.
Proof.
  unfold chain_broken. split.
  - intros (i & x & y & Hx & Hy & Hne). destruct i as [|i].
    + left. injection Hx as <-. destruct prs as [|b rest]; [done|].
      injection Hy as <-. by exists b, rest.
    + right. by exists i, x, y.
  - intros [(b & rest & -> & Hne)|(i & x & y & Hx & Hy & Hne)].
    + by exists 0%nat, a, b.
    + by exists (S i), x, y.
Qed.

(** The loop with a branch to compare with: the first pull request of the
    set does not come from it, or the chain is broken further down. *)
Lemma MutatedPRSetsWithOutOfOrderCommits_loop_spec (h : heap) (prSet : Z)
    (commits : list LocalCommit) (lastTo : string) :
  pointers_valid h commits ->
  (forall pr, pr ∈ prs_of_set h prSet commits -> github.ToBranch pr ≠ "") ->
  lastTo ≠ "" ->
  MutatedPRSetsWithOutOfOrderCommits_loop h prSet commits lastTo = true
  <-> (exists b rest,
         prs_of_set h prSet commits = b :: rest
         ∧ github.FromBranch b ≠ lastTo)
      ∨ chain_broken (prs_of_set h prSet commits).
Proof.
  revert lastTo.
  induction commits as [|cm cms IH]; intros lastTo Hvalid Hto Hlast.
  - cbn. split; [done|].
    intros [(b & rest & Hnil & _)|(i & a & b & Ha & _)]; [done|].
    by rewrite lookup_nil in Ha.
  - assert (pointers_valid h cms) as Hvalid'.
    { intros c p Hc. apply Hvalid. by right. }
    cbn [MutatedPRSetsWithOutOfOrderCommits_loop].
    unfold prs_of_set in *. cbn [omap list_omap] in *.
    destruct (PullRequest cm) as [p|] eqn:Hpr.
    + destruct (PRIndex cm) as [k|] eqn:Hk.
      * destruct (Z.eqb_spec k prSet) as [->|Hne]; cbn [negb].
        -- rewrite bool_decide_eq_true_2 in Hto |- * by done.
           destruct (Hvalid cm p) as [pr Hp]; [by left|done|].
           rewrite Hp in Hto |- *. cbn in Hto |- *.
           destruct (String.eqb_spec lastTo "") as [?|_]; [done|].
           destruct (String.eqb_spec (github.FromBranch pr) lastTo)
             as [Heq|Hneq]; cbn [negb].
           ++ rewrite IH; [|done| |].
              ** rewrite chain_broken_cons. split.
                 --- intros Hrest. by right.
                 --- intros [(b & rest & [= <- <-] & ?)|Hrest]; done.
              ** intros x Hx. apply Hto. by right.
              ** apply Hto. by left.
           ++ split; [|done]. intros _. left. by eexists _, _.
        -- rewrite bool_decide_eq_false_2 in Hto |- * by congruence.
           by apply IH.
      * rewrite bool_decide_eq_false_2 in Hto |- * by done. by apply IH.
    + assert ((if bool_decide (PRIndex cm = Some prSet)
               then @None github.PullRequest else None) = None) as Hnone
        by (by destruct (bool_decide _)).
      rewrite Hnone in Hto |- *. by apply IH.
Qed.

(** The loop as the source starts it, with nothing to compare with. *)
Lemma MutatedPRSetsWithOutOfOrderCommits_loop_start (h : heap) (prSet : Z)
    (commits : list LocalCommit) :
  pointers_valid h commits ->
  (forall pr, pr ∈ prs_of_set h prSet commits -> github.ToBranch pr ≠ "") ->
  MutatedPRSetsWithOutOfOrderCommits_loop h prSet commits "" = true
  <-> chain_broken (prs_of_set h prSet commits).
Proof.
  induction commits as [|cm cms IH]; intros Hvalid Hto.
  - cbn. split; [done|]. intros (i & a & b & Ha & _).
    by rewrite lookup_nil in Ha.
  - assert (pointers_valid h cms) as Hvalid'.
    { intros c p Hc. apply Hvalid. by right. }
    cbn [MutatedPRSetsWithOutOfOrderCommits_loop].
    pose proof (MutatedPRSetsWithOutOfOrderCommits_loop_spec h prSet cms)
      as Hspec.
    unfold prs_of_set in *. cbn [omap list_omap] in *.
    destruct (PullRequest cm) as [p|] eqn:Hpr.
    + destruct (PRIndex cm) as [k|] eqn:Hk.
      * destruct (Z.eqb_spec k prSet) as [->|Hne]; cbn [negb].
        -- rewrite bool_decide_eq_true_2 in Hto |- * by done.
           destruct (Hvalid cm p) as [pr Hp]; [by left|done|].
           rewrite Hp in Hto |- *. cbn in Hto |- *.
           rewrite Hspec; [|done| |].
           ++ by rewrite chain_broken_cons.
           ++ intros x Hx. apply Hto. by right.
           ++ apply Hto. by left.
        -- rewrite bool_decide_eq_false_2 in Hto |- * by congruence.
           by apply IH.
      * rewrite bool_decide_eq_false_2 in Hto |- * by done. by apply IH.
    + assert ((if bool_decide (PRIndex cm = Some prSet)
               then @None github.PullRequest else None) = None) as Hnone
        by (by destruct (bool_decide _)).
      rewrite Hnone in Hto |- *. by apply IH.
Qed.

End OutOfOrder.

(** X18.  A PR set is reported out of order exactly when it is mutated and
    two consecutive pull requests of its commits, newest first, do not
    chain: the older one does not come from the branch the newer one goes
    to.  The pull requests of the set must name a branch to go to. *)
Theorem MutatedPRSetsWithOutOfOrderCommits_spec (h : heap) (s : State)
    (prSet : Z) :
  pointers_valid h (LocalCommits s) ->
  (forall pr,
     pr ∈ prs_of_set h prSet (LocalCommits s) -> github.ToBranch pr ≠ "") ->
  prSet ∈ MutatedPRSetsWithOutOfOrderCommits h s
  <-> prSet ∈ MutatedPRSets s
      ∧ chain_broken (prs_of_set h prSet (LocalCommits s)).
Proof.
  intros Hvalid Hto. unfold MutatedPRSetsWithOutOfOrderCommits.
  rewrite elem_of_filter.
  rewrite MutatedPRSetsWithOutOfOrderCommits_loop_start by done. tauto.
Qed.

Lemma MutatedPRSetsWithOutOfOrderCommits_spec_witness :
  0 ∈ MutatedPRSetsWithOutOfOrderCommits reordered_heap reordered_state
  <-> 0 ∈ MutatedPRSets reordered_state
      ∧ chain_broken
          (prs_of_set reordered_heap 0 (LocalCommits reordered_state)).
Proof.
  apply (MutatedPRSetsWithOutOfOrderCommits_spec reordered_heap
           reordered_state 0).
  - intros cm p Hcm Hp. cbn in Hcm.
    apply elem_of_cons in Hcm as [->|Hcm]; [injection Hp as <-; by eexists|].
    apply elem_of_cons in Hcm as [->|Hcm]; [injection Hp as <-; by eexists|].
    by apply elem_of_nil in Hcm.
  - intros pr Hpr. vm_compute in Hpr.
    apply elem_of_cons in Hpr as [->|Hpr]; [done|].
    apply elem_of_cons in Hpr as [->|Hpr]; [done|].
    by apply elem_of_nil in Hpr.
Defined.

(** ** The fixed-width columns of the status lines *)

Section Padding.

Lemma length_strings_Repeat_space (n : nat) :
  String.length (strings_Repeat " " n) = n.
Proof.
  induction n as [|n IH]; [done|].
  cbn [strings_Repeat]. by rewrite length_append, IH.
Qed.

Lemma length_substring_0 (n : nat) (s : string) :
  String.length (String.substring 0 n s) = Nat.min n (String.length s).
Proof.
  revert s. induction n as [|n IH]; intros [|c s]; cbn; try done.
  by rewrite IH.
Qed.

End Padding.

(** X19.  [padNumber] pads on the right and never cuts.  As long as the
    subtraction of the length from [pad] stays in the range of [int], the
    result is the string followed by spaces only, it has the larger of
    [pad] and the length of the string in bytes (so a [pad] of zero or
    less does nothing), and padding twice is padding once. *)
Theorem padNumber_width (pad : Z) (s : string) :
  pad < 2 ^ 63 ->
  - 2 ^ 63 <= pad - len s ->
  len (padNumber pad s) = Z.max pad (len s)
  ∧ (exists n, padNumber pad s = s ++ strings_Repeat " " n)
  ∧ padNumber pad (padNumber pad s) = padNumber pad s.
Proof.
  intros Hpad Hwrap.
  assert (0 <= len s) as Hlen0 by (unfold len; lia).
  assert (len (padNumber pad s) = Z.max pad (len s)) as Hlen.
  { unfold padNumber. cbn zeta. rewrite wrap64_small by lia.
    unfold len in *.
    destruct (Z.ltb_spec 0 (pad - Z.of_nat (String.length s))) as [Hlt|Hge].
    - rewrite length_append, length_strings_Repeat_space. lia.
    - lia. }
  split; [done|]. split.
  - unfold padNumber. cbn zeta. destruct (0 <? wrap64 (pad - len s)).
    + by eexists.
    + exists 0%nat. cbn. by rewrite append_nil_r.
  - unfold padNumber at 1. cbn zeta. rewrite Hlen.
    rewrite wrap64_small by lia.
    destruct (Z.ltb_spec 0 (pad - Z.max pad (len s))) as [Hlt|Hge]; [lia|].
    done.
Qed.

Lemma padNumber_width_witness :
  len (padNumber 5 "12") = Z.max 5 (len "12")
  ∧ (exists n, padNumber 5 "12" = "12" ++ strings_Repeat " " n)
  ∧ padNumber 5 (padNumber 5 "12") = padNumber 5 "12".
Proof.
  apply (padNumber_width 5 "12").
  - lia.
  - unfold len. cbn. lia.
Defined.

(** X20.  For a subject of ASCII bytes [FormatSubject] fills a column of
    exactly 50 bytes: a subject of at most 50 bytes is padded with spaces,
    a longer one is cut after 46 bytes and followed by a space and three
    dots. *)
Theorem FormatSubject_ascii_width (subject : string) :
  ascii_only subject ->
  len (FormatSubject subject) = 50
  ∧ (len subject <= 50 ->
     FormatSubject subject
     = subject ++ strings_Repeat " " (50 - String.length subject))
  ∧ (50 < len subject ->
     FormatSubject subject = String.substring 0 46 subject ++ " ...").
Proof.
  intros Hascii.
  destruct (FormatSubject_ascii subject Hascii) as [_ Hlong].
  assert (len subject <= 50 ->
          FormatSubject subject
          = subject ++ strings_Repeat " " (50 - String.length subject))
    as Hshort.
  { intros Hle. by destruct (FormatSubject_ascii_short subject Hascii Hle). }
  split; [|by split].
  destruct (Z.le_gt_cases (len subject) 50) as [Hle|Hgt].
  - rewrite (Hshort Hle). unfold len in *.
    rewrite length_append, length_strings_Repeat_space. lia.
  - rewrite (Hlong Hgt). unfold len in *.
    rewrite length_append, length_substring_0.
    change (String.length " ...") with 4%nat. lia.
Qed.

Lemma FormatSubject_ascii_width_witness :
  len (FormatSubject "Feature A") = 50
  ∧ (len "Feature A" <= 50 ->
     FormatSubject "Feature A"
     = "Feature A" ++ strings_Repeat " " (50 - String.length "Feature A"))
  ∧ (50 < len "Feature A" ->
     FormatSubject "Feature A"
     = String.substring 0 46 "Feature A" ++ " ...").
Proof.
  apply (FormatSubject_ascii_width "Feature A"). reflexivity.
Defined.

(** ** Outcomes of the drivers *)

Section PureGoroutines.

Context {Out : Type} (w : world).

(** Goroutines that make no call: the results are received in some order,
    and nothing else happens. *)
Lemma SliceMap_run_pure (sched : list nat) (results : list (Out * error))
    (out : list Out) (err : error) (tr tr' : list call) (outs : list Out)
    (err' : error) :
  SliceMap_run sched (Done <$> results) out err w tr
  = Some (tr', (outs, err')) ->
  tr' = tr
  ∧ exists order,
      order ≡ₚ results
      ∧ outs = (out ++ (fst <$> order))%list
      ∧ err' = fold_left received_error order err.
Proof.
  revert results out err.
  induction sched as [|n sched IH]; intros results out err.
  - destruct results as [|r results]; [|done]. cbn.
    intros [= <- <- <-]. split; [done|]. exists [].
    by rewrite app_nil_r.
  - destruct results as [|r0 results0].
    { cbn. intros [= <- <- <-]. split; [done|]. exists [].
      by rewrite app_nil_r. }
    set (results := r0 :: results0). rewrite SliceMap_run_cons by done.
    assert (n mod List.length (Done <$> results) < List.length results)%nat
      as Hlt.
    { rewrite length_fmap. by apply Nat.mod_upper_bound. }
    destruct (lookup_lt_is_Some_2 results _ Hlt) as [r Hr].
    rewrite list_lookup_fmap, Hr. cbn [fmap option_fmap option_map].
    rewrite <- list_fmap_delete.
    intros (-> & order & Hperm & -> & ->)%IH. split; [done|].
    exists (r :: order). split.
    + rewrite Hperm. symmetry. by apply delete_Permutation.
    + cbn. by rewrite <- app_assoc.
Qed.

(** Every order of the results is the order of some run. *)
Lemma SliceMap_run_pure_order (order results : list (Out * error))
    (out : list Out) (err : error) (tr : list call) :
  order ≡ₚ results ->
  exists sched,
    SliceMap_run sched (Done <$> results) out err w tr
    = Some (tr, ((out ++ (fst <$> order))%list,
                 fold_left received_error order err)).
Proof.
  revert results out err.
  induction order as [|r order IH]; intros results out err Hperm.
  - apply Permutation_nil_l in Hperm. subst results. exists []. cbn.
    by rewrite app_nil_r.
  - assert (r ∈ results) as [i Hi]%list_elem_of_lookup.
    { rewrite <- Hperm. by left. }
    destruct (IH (delete i results) (out ++ [r.1])%list
                (received_error err r)) as [sched Hrun].
    { apply (Permutation_cons_inv (a:=r)). rewrite Hperm.
      by apply delete_Permutation. }
    exists (i :: sched).
    assert (i < List.length results)%nat as Hlt
      by by eapply lookup_lt_Some.
    rewrite SliceMap_run_cons by (by destruct results).
    rewrite length_fmap, Nat.mod_small by done.
    rewrite list_lookup_fmap, Hi. cbn [fmap option_fmap option_map].
    rewrite <- list_fmap_delete, Hrun. cbn. by rewrite <- app_assoc.
Qed.

(** The error left by the results received: the last one that is not
    nil. *)
Lemma fold_left_received_error (order : list (Out * error)) (err : error) :
  (fold_left received_error order err = None
   <-> err = None ∧ Forall (fun r => r.2 = None) order)
  ∧ forall e,
      fold_left received_error order err = Some e ->
      err = Some e ∨ Exists (fun r => r.2 = Some e) order.
Proof.
  revert err. induction order as [|[o e0] order IH]; intros err.
  - cbn. split; [|by left]. split; [by split|by intros [? _]].
  - cbn [fold_left]. destruct (IH (received_error err (o, e0)))
      as [Hnil Hsome].
    unfold received_error in *. cbn [snd] in *. split.
    + rewrite Hnil, Forall_cons. cbn [snd].
      destruct e0 as [e0|]; [split; [by intros [? _]|by intros [_ [? _]]]|].
      split; [by intros [? ?]|by intros [? [_ ?]]].
    + intros e He. destruct (Hsome e He) as [Herr|Hex].
      * destruct e0 as [e0|]; [|by left].
        right. apply Exists_cons_hd. cbn. done.
      * right. by apply Exists_cons_tl.
Qed.

End PureGoroutines.

(** X21.  [SliceMap] over a function that makes no call.  A run that
    receives every result makes no call; its outputs and its error are
    those of the results in the order in which they were received: a
    rearrangement of the results of the inputs, the error being the last
    one that is not nil.  So there is one output for every input, the
    error is nil exactly when the function returned nil on every input,
    and an error that is returned is one the function returned.  Every
    order of the results is the order of some run, and a schedule with a
    step for every input runs to the end. *)
Theorem SliceMap_error {I O : Type} (f : I -> O * error) (input : list I)
    (w : world) (tr : list call) :
  (forall sched,
     (List.length input <= List.length sched)%nat ->
     is_Some (SliceMap sched (fun i => Done (f i)) input w tr))
  ∧ (forall sched tr' outs err,
       SliceMap sched (fun i => Done (f i)) input w tr
       = Some (tr', (outs, err)) ->
       tr' = tr
       ∧ (exists order,
            order ≡ₚ f <$> input
            ∧ outs = fst <$> order
            ∧ err = fold_left received_error order None)
       ∧ List.length outs = List.length input
       ∧ (err = None <-> Forall (fun i => (f i).2 = None) input)
       ∧ forall e, err = Some e -> Exists (fun i => (f i).2 = Some e) input)
  ∧ forall order,
      order ≡ₚ f <$> input ->
      exists sched,
        SliceMap sched (fun i => Done (f i)) input w tr
        = Some (tr, (fst <$> order, fold_left received_error order None)).
Proof.
  unfold SliceMap.
  assert ((fun i => Done (f i)) <$> input
          = (Done <$> (f <$> input) : list (prog (O * error)))) as ->.
  { by rewrite <- list_fmap_compose. }
  split; [|split].
  - intros sched Hlen.
    apply (SliceMap_run_total w sched
             (replicate (List.length input) 1%nat)).
    + clear Hlen. induction input as [|i input IH]; [constructor|].
      cbn. by constructor.
    + rewrite sum_list_replicate. lia.
  - intros sched tr' outs err Hrun.
    apply SliceMap_run_pure in Hrun as (-> & order & Hperm & -> & ->).
    rewrite app_nil_l.
    destruct (fold_left_received_error order None) as [Hnil Hsome].
    split; [done|]. split; [by exists order|]. split; [|split].
    + by rewrite length_fmap, Hperm, length_fmap.
    + rewrite Hnil, Hperm, Forall_fmap. split; [by intros [_ ?]|done].
    + intros e [He|Hex]%Hsome; [done|].
      rewrite Hperm in Hex. apply Exists_exists in Hex as (r & Hin & Hr).
      apply list_elem_of_fmap in Hin as (i & -> & Hi).
      apply Exists_exists. by exists i.
  - intros order Hperm.
    destruct (SliceMap_run_pure_order w order (f <$> input) [] None tr
                Hperm) as [sched Hrun].
    exists sched. by rewrite Hrun, app_nil_l.
Qed.

(** X22.  The phase of [UpdatePRSets] that deletes the orphans, however
    the concurrent deletions interleave: it runs to the end once every
    deletion has had its three steps, and it can end in two ways only:
    the process exits, or the state comes back without orphans and
    otherwise unchanged.  When no call fails it comes back, and with no
    orphans there is no call at all. *)
Theorem UpdatePRSets_deleteOrphans_outcome (cfg : config.Config) (h : heap)
    (state : State) (w : world) (tr : list call) :
  (forall sched,
     (3 * size (OrphanedPRs state) <= List.length sched)%nat ->
     is_Some (UpdatePRSets_deleteOrphans sched cfg h state w tr))
  ∧ (forall sched tr' out,
       UpdatePRSets_deleteOrphans sched cfg h state w tr = Some (tr', out) ->
       (out = Return (mkState (RepositoryId state) (LocalCommits state) ∅
                        (MutatedPRSets state))
        ∨ exists msg, out = Exit msg)
       ∧ ((forall tr0 c, w tr0 c = None) ->
          out = Return (mkState (RepositoryId state) (LocalCommits state) ∅
                          (MutatedPRSets state))))
  ∧ (OrphanedPRs state = ∅ ->
     forall sched,
       UpdatePRSets_deleteOrphans sched cfg h state w tr
       = Some (tr, Return (mkState (RepositoryId state) (LocalCommits state)
                             ∅ (MutatedPRSets state)))).
Proof.
  split; [|split].
  - intros sched Hlen. by apply UpdatePRSets_deleteOrphans_total.
  - intros sched tr' out Hrun.
    by destruct (UpdatePRSets_deleteOrphans_calls cfg h sched state w tr
                   tr' out Hrun) as (calls & _ & _ & _ & Hout & Hok & _).
  - intros Hempty sched. unfold UpdatePRSets_deleteOrphans, SliceMap.
    rewrite Hempty, elements_empty. by destruct sched.
Qed.

(** X23.  The classic update keeps exactly the pull requests whose commit
    is among the local commits, in their order.  Only a comment that fails
    ends the process: the error of a close is dropped, and the pull
    request is left out all the same.  When every pull request has a local
    commit, no call is made. *)
Theorem UpdatePullRequests_closeDeleted_valid
    (localCommits : list git.Commit)
    (pullRequests : list github.PullRequest) (w : world) (tr : list call) :
  (forall valid,
     (UpdatePullRequests_closeDeleted localCommits pullRequests w tr).2
     = Return valid ->
     valid = List.filter (has_local_commit localCommits) pullRequests)
  ∧ (comments_succeed w ->
     (UpdatePullRequests_closeDeleted localCommits pullRequests w tr).2
     = Return (List.filter (has_local_commit localCommits) pullRequests))
  ∧ (Forall (fun pr => has_local_commit localCommits pr = true)
       pullRequests ->
     UpdatePullRequests_closeDeleted localCommits pullRequests w tr
     = (tr, Return pullRequests)).
Proof.
  split; [|split].
  - revert tr. induction pullRequests as [|pr prs IH]; intros tr valid.
    + cbn. by intros [= <-].
    + cbn [UpdatePullRequests_closeDeleted List.filter].
      unfold has_local_commit at 1.
      destruct (bool_decide _).
      * unfold bind.
        destruct (UpdatePullRequests_closeDeleted localCommits prs w tr)
          as [tr' [valid'|msg]] eqn:Hrest; cbn; [|done].
        intros [= <-]. f_equal. apply (IH tr). by rewrite Hrest.
      * unfold bind at 1, client_CommentPullRequest, bind, do_call.
        destruct (w tr _); [done|]. cbn [ret].
        unfold client_ClosePullRequest, bind, do_call.
        destruct (w _ (ClosePullRequest pr)); cbn [ret]; apply IH.
  - intros Hok. revert tr.
    induction pullRequests as [|pr prs IH]; intros tr; [done|].
    cbn [UpdatePullRequests_closeDeleted List.filter].
    unfold has_local_commit at 1.
    destruct (bool_decide _).
    + unfold bind. specialize (IH tr).
      destruct (UpdatePullRequests_closeDeleted localCommits prs w tr)
        as [tr' out]. cbn in IH. by rewrite IH.
    + unfold bind at 1, client_CommentPullRequest, bind, do_call.
      rewrite Hok. cbn [ret].
      unfold client_ClosePullRequest, bind, do_call.
      destruct (w _ (ClosePullRequest pr)); cbn [ret]; apply IH.
  - induction 1 as [|pr prs Hpr _ IH]; [done|].
    cbn [UpdatePullRequests_closeDeleted].
    unfold has_local_commit in Hpr. rewrite Hpr. unfold bind.
    by rewrite IH.
Qed.

(** X24.  Merging an empty PR set ends the process with the invalid-index
    error, before any merge step and whether or not a pre-merge check is
    configured; without a configured check a PR set that has commits goes
    to the merge steps, oldest commit first. *)
Theorem MergePRSet_edges (mergeSteps : list LocalCommit -> M unit)
    (cfg : config.Config) (state : State) (setIndex : string) (index : Z)
    (key : string) (w : world) (tr : list call) :
  (CommitsByPRSet state index = [] ->
   MergePRSet mergeSteps cfg state setIndex index key w tr
   = (tr, Exit ("invalid index " ++ setIndex)))
  ∧ (config.MergeCheck (config.Repo cfg) = "" ->
     CommitsByPRSet state index ≠ [] ->
     MergePRSet mergeSteps cfg state setIndex index key w tr
     = mergeSteps (rev (CommitsByPRSet state index)) w tr).
Proof.
  unfold MergePRSet, MergePRSet_mergeCheck, bind. split.
  - intros ->. by destruct (negb _).
  - intros -> Hne. cbn.
    by destruct (CommitsByPRSet state index).
Qed.

(** X25.  The merge check and the merge gate together: after
    [RunMergeCheck] has run the configured command, a failed check lets no
    PR set be merged, and a passed one lets a PR set be merged exactly
    when its newest commit has the hash of the last local commit (or that
    hash reads SKIP).  The newest commit of the set must have a hash. *)
Theorem RunMergeCheck_gates_merge (mergeSteps : list LocalCommit -> M unit)
    (cfg cfg' : config.Config) (localCommits : list git.Commit)
    (lastLocal : git.Commit) (key : string) (startErr waitErr : error)
    (state : State) (setIndex : string) (index : Z) (newest : LocalCommit)
    (w : world) (tr : list call) :
  config.MergeCheck (config.Repo cfg) ≠ "" ->
  last localCommits = Some lastLocal ->
  RunMergeCheck cfg localCommits key startErr waitErr w tr
  = (tr, Return cfg') ->
  newest_in_set state index newest ->
  git.CommitHash (Commit newest) ≠ "" ->
  MergePRSet mergeSteps cfg' state setIndex index key w tr
  = if bool_decide (waitErr = None
                    ∧ (git.CommitHash lastLocal = "SKIP"
                       ∨ git.CommitHash lastLocal
                         = git.CommitHash (Commit newest)))
    then mergeSteps (rev (CommitsByPRSet state index)) w tr
    else (tr, Exit MergeCheckRequired).
Proof.
  intros Hcheck Hlast Hrun Hnewest Hhash.
  destruct (CommitsByPRSet_newest _ _ _ Hnewest) as [rest Hcommits].
  assert (exists hash,
            cfg' = setMergeCheckCommit key hash cfg
            ∧ hash = match waitErr with
                     | Some _ => ""
                     | None => git.CommitHash lastLocal
                     end) as (hash & -> & Hrec).
  { revert Hrun. unfold RunMergeCheck.
    apply String.eqb_neq in Hcheck. rewrite Hcheck.
    destruct localCommits as [|c cs]; [done|]. cbn [List.length].
    destruct (Z.eqb_spec (Z.of_nat (S (List.length cs))) 0) as [?|_]; [lia|].
    unfold bind. destruct startErr as [msg|]; [done|]. cbn [check ret].
    rewrite Hlast. cbn [default].
    destruct waitErr; intros [= <-]; by eexists. }
  unfold MergePRSet, MergePRSet_mergeCheck, bind.
  cbn [setMergeCheckCommit config.Repo config.State config.MergeCheckCommit
         config.MergeCheck].
  apply String.eqb_neq in Hcheck. rewrite Hcheck. cbn [negb].
  rewrite Hcommits, lookup_insert_eq. cbn [List.length].
  destruct (String.eqb_spec hash "SKIP") as [Hskip|Hskip]; cbn [negb andb].
  - cbn [ret]. rewrite bool_decide_eq_true_2; [done|].
    destruct waitErr; [by subst hash|]. split; [done|]. left. congruence.
  - destruct (String.eqb_spec (git.CommitHash (Commit newest)) hash)
      as [Heq|Hne]; cbn [negb check ret exit].
    + rewrite bool_decide_eq_true_2; [done|].
      destruct waitErr; [congruence|]. split; [done|]. right. congruence.
    + rewrite bool_decide_eq_false_2; [done|].
      intros [-> [?|?]]; congruence.
Qed.

Lemma RunMergeCheck_gates_merge_witness :
  MergePRSet (fun _ => ret tt)
    (setMergeCheckCommit "owner/repo" "H5555555" sample_cfg) sample_state
    "s2" 2 "owner/repo" (fun _ _ => None) []
  = if bool_decide ((None : error) = None
                    ∧ ("H5555555" = "SKIP" ∨ "H5555555" = "H4444444"))
    then ret tt (fun _ _ => None) []
    else ([], Exit MergeCheckRequired).
Proof.
  apply (RunMergeCheck_gates_merge (fun _ => ret tt) sample_cfg
           (setMergeCheckCommit "owner/repo" "H5555555" sample_cfg)
           [git.mkCommit "44444444" "H4444444" "subject" "" false;
            git.mkCommit "55555555" "H5555555" "subject" "" false]
           (git.mkCommit "55555555" "H5555555" "subject" "" false)
           "owner/repo" None None sample_state "s2" 2
           (sample_commit "44444444" "H4444444" 3 (Some 3%nat) (Some 2))
           (fun _ _ => None) []).
  - simpl. discriminate.
  - reflexivity.
  - reflexivity.
  - apply (CommitsByPRSet_head sample_state 2 _ []). reflexivity.
  - simpl. discriminate.
Defined.

(** ** The classic update: pull requests against the local commits *)

Section ClassicOrder.

Lemma sortPullRequests_map_snoc (prs : list github.PullRequest)
    (pr : github.PullRequest) :
  sortPullRequests_map (prs ++ [pr])
  = <[git.CommitID (github.Commit pr) := pr]> (sortPullRequests_map prs).
Proof. unfold sortPullRequests_map. by rewrite fold_left_app. Qed.

(** A pull request stored in the map is one of the pull requests, under
    its own commit-id. *)
Lemma sortPullRequests_map_Some (prs : list github.PullRequest)
    (id : string) (pr : github.PullRequest) :
  sortPullRequests_map prs !! id = Some pr ->
  pr ∈ prs ∧ git.CommitID (github.Commit pr) = id.
Proof.
  induction prs as [|x prs IH] using rev_ind.
  - unfold sortPullRequests_map. cbn. by rewrite lookup_empty.
  - rewrite sortPullRequests_map_snoc.
    intros [[<- <-]|[Hne Hpr]]%lookup_insert_Some.
    + split; [|done]. apply elem_of_app. right. by left.
    + destruct (IH Hpr) as [Hin Hid]. split; [|done].
      apply elem_of_app. by left.
Qed.

(** With distinct commit-ids every pull request is stored. *)
Lemma sortPullRequests_map_NoDup (prs : list github.PullRequest)
    (pr : github.PullRequest) :
  NoDup (pr_commit_ids prs) -> pr ∈ prs ->
  sortPullRequests_map prs !! git.CommitID (github.Commit pr) = Some pr.
Proof.
  unfold pr_commit_ids.
  induction prs as [|x prs IH] using rev_ind; [by intros _ ?%elem_of_nil|].
  rewrite fmap_app. intros (Hprs & Hfresh & _)%NoDup_app.
  rewrite sortPullRequests_map_snoc.
  intros [Hin| ->%list_elem_of_singleton]%elem_of_app.
  - rewrite lookup_insert_ne; [by apply IH|].
    intros Heq. apply (Hfresh (git.CommitID (github.Commit pr))).
    + apply list_elem_of_fmap. by exists pr.
    + rewrite <- Heq. cbn. by left.
  - by rewrite lookup_insert_eq.
Qed.

(** The keys of the map are the commit-ids of the pull requests. *)
Lemma sortPullRequests_map_is_Some (prs : list github.PullRequest)
    (id : string) :
  is_Some (sortPullRequests_map prs !! id) <-> id ∈ pr_commit_ids prs.
Proof.
  unfold pr_commit_ids.
  induction prs as [|x prs IH] using rev_ind.
  - unfold sortPullRequests_map. cbn. rewrite lookup_empty. split.
    + by intros [? ?].
    + by intros ?%elem_of_nil.
  - rewrite sortPullRequests_map_snoc, lookup_insert_is_Some, fmap_app,
      elem_of_app, IH. cbn. rewrite list_elem_of_singleton. split.
    + intros [<-|[_ ?]]; [by right|by left].
    + intros [?| ->]; [|by left].
      destruct (decide (git.CommitID (github.Commit x) = id)); [by left|].
      by right.
Qed.

Lemma commitsReordered_false (localCommits : list git.Commit)
    (prs : list github.PullRequest) :
  commitsReordered localCommits prs = Some false
  <-> pr_commit_ids prs `prefix_of` git.CommitID <$> localCommits.
Proof.
  unfold pr_commit_ids. revert localCommits.
  induction prs as [|pr prs IH]; intros localCommits.
  - cbn [commitsReordered fmap list_fmap].
    split; [intros _; apply prefix_nil|done].
  - destruct localCommits as [|c cs]; cbn [commitsReordered fmap list_fmap].
    + split; [done|]. intros Hpre. by apply prefix_nil_inv in Hpre.
    + destruct (String.eqb_spec (git.CommitID c)
                  (git.CommitID (github.Commit pr))) as [Heq|Hne];
        cbn [negb].
      * rewrite IH, <- Heq. split.
        -- apply prefix_cons.
        -- apply prefix_cons_inv_2.
      * split; [done|]. intros Hpre.
        apply prefix_cons_inv_1 in Hpre. congruence.
Qed.

Lemma commitsReordered_None (localCommits : list git.Commit)
    (prs : list github.PullRequest) :
  commitsReordered localCommits prs = None
  <-> exists extra,
        extra ≠ []
        ∧ pr_commit_ids prs = ((git.CommitID <$> localCommits) ++ extra)%list.
Proof.
  unfold pr_commit_ids. revert localCommits.
  induction prs as [|pr prs IH]; intros localCommits.
  - cbn. split; [done|]. intros (extra & Hne & Heq).
    symmetry in Heq. apply app_eq_nil in Heq as [_ ->]. done.
  - destruct localCommits as [|c cs]; cbn [commitsReordered fmap list_fmap].
    + split; [|done]. intros _. eexists. split; [|done]. done.
    + destruct (String.eqb_spec (git.CommitID c)
                  (git.CommitID (github.Commit pr))) as [Heq|Hne];
        cbn [negb].
      * rewrite IH. split.
        -- intros (extra & Hextra & ->). exists extra. split; [done|].
           cbn. by rewrite Heq.
        -- intros (extra & Hextra & [= _ ->]). by exists extra.
      * split; [done|]. intros (extra & _ & [= ? _]). congruence.
Qed.

End ClassicOrder.

(** X26.  [commitsReordered] compares the pull requests with the local
    commits position by position: it answers false exactly when the
    commit-ids of the pull requests are a prefix of those of the local
    commits, and it runs past the end of the local commits (a panic)
    exactly when these are a proper prefix of those of the pull requests.
    With pull requests of distinct commit-ids that all belong to local
    commits, as the classic update keeps them, there is no panic. *)
Theorem commitsReordered_spec (localCommits : list git.Commit)
    (pullRequests : list github.PullRequest) :
  (commitsReordered localCommits pullRequests = Some false
   <-> pr_commit_ids pullRequests `prefix_of` git.CommitID <$> localCommits)
  ∧ (commitsReordered localCommits pullRequests = None
     <-> exists extra,
           extra ≠ []
           ∧ pr_commit_ids pullRequests
             = ((git.CommitID <$> localCommits) ++ extra)%list)
  ∧ (NoDup (pr_commit_ids pullRequests) ->
     Forall (fun pr => has_local_commit localCommits pr = true)
       pullRequests ->
     commitsReordered localCommits pullRequests ≠ None).
Proof.
  split; [apply commitsReordered_false|].
  split; [apply commitsReordered_None|].
  intros Hnodup Hall Hpanic.
  apply commitsReordered_None in Hpanic as (extra & Hextra & Heq).
  destruct extra as [|id extra]; [done|].
  rewrite Heq in Hnodup. apply NoDup_app in Hnodup as (_ & Hfresh & _).
  assert (id ∈ pr_commit_ids pullRequests) as Hin.
  { rewrite Heq. apply elem_of_app. right. by left. }
  apply list_elem_of_fmap in Hin as (pr & -> & Hpr).
  rewrite Forall_forall in Hall.
  specialize (Hall pr Hpr). apply bool_decide_eq_true in Hall.
  apply (Hfresh _ Hall). by left.
Qed.

(** X27.  [sortPullRequestsByLocalCommitOrder] puts the pull requests in
    the order of the local commits: the commit-ids of the result are those
    of the local commits that are not WIP and have a pull request, in the
    order of the local commits, and every pull request of the result is
    one that was handed in.  With distinct commit-ids on both sides the
    result is a rearrangement of the pull requests that have a local
    commit which is not WIP; the others are dropped. *)
Theorem sortPullRequestsByLocalCommitOrder_spec
    (pullRequests : list github.PullRequest)
    (localCommits : list git.Commit) :
  pr_commit_ids (sortPullRequestsByLocalCommitOrder pullRequests localCommits)
  = List.filter (fun id => bool_decide (id ∈ pr_commit_ids pullRequests))
      (git.CommitID
       <$> List.filter (fun c => negb (git.WIP c)) localCommits)
  ∧ (forall pr,
       pr ∈ sortPullRequestsByLocalCommitOrder pullRequests localCommits ->
       pr ∈ pullRequests)
  ∧ (NoDup (pr_commit_ids pullRequests) ->
     NoDup (git.CommitID <$> localCommits) ->
     sortPullRequestsByLocalCommitOrder pullRequests localCommits
     ≡ₚ List.filter (has_ready_commit localCommits) pullRequests).
Proof.
  assert (pr_commit_ids
            (sortPullRequestsByLocalCommitOrder pullRequests localCommits)
          = List.filter
              (fun id => bool_decide (id ∈ pr_commit_ids pullRequests))
              (git.CommitID
               <$> List.filter (fun c => negb (git.WIP c)) localCommits))
    as Hids.
  { unfold sortPullRequestsByLocalCommitOrder, pr_commit_ids. cbn zeta.
    induction localCommits as [|c cs IH]; [done|].
    cbn [omap list_omap List.filter].
    destruct (git.WIP c); cbn [negb]; [apply IH|].
    cbn [fmap list_fmap List.filter].
    destruct (sortPullRequests_map pullRequests !! git.CommitID c)
      as [pr|] eqn:Hpr.
    - rewrite bool_decide_eq_true_2.
      + cbn [fmap list_fmap]. f_equal; [|apply IH].
        by apply sortPullRequests_map_Some in Hpr as [_ ?].
      + apply sortPullRequests_map_is_Some. by eexists.
    - rewrite bool_decide_eq_false_2; [apply IH|].
      intros [pr Hsome]%sortPullRequests_map_is_Some. congruence. }
  assert (forall pr,
            pr ∈ sortPullRequestsByLocalCommitOrder pullRequests localCommits
            <-> exists c,
                  c ∈ localCommits ∧ git.WIP c = false
                  ∧ sortPullRequests_map pullRequests !! git.CommitID c
                    = Some pr) as Hmem.
  { intros pr. unfold sortPullRequestsByLocalCommitOrder. cbn zeta.
    rewrite list_elem_of_omap. split.
    - intros (c & Hc & Hpr). exists c. split; [done|].
      destruct (git.WIP c); [done|]. by split.
    - intros (c & Hc & Hwip & Hpr). exists c. split; [done|].
      by rewrite Hwip. }
  split; [done|]. split.
  - intros pr (c & _ & _ & Hpr)%Hmem.
    by apply sortPullRequests_map_Some in Hpr as [? _].
  - intros Hprs Hlocal. apply NoDup_Permutation.
    + apply (NoDup_fmap_1 (fun pr => git.CommitID (github.Commit pr))).
      fold (pr_commit_ids
              (sortPullRequestsByLocalCommitOrder pullRequests localCommits)).
      rewrite Hids. apply NoDup_ListNoDup, List.NoDup_filter, NoDup_ListNoDup.
      apply NoDup_fmap_2_strong.
      * intros x y Hx%list_elem_of_In%filter_In Hy%list_elem_of_In%filter_In
          Heq.
        destruct Hx as [Hx%list_elem_of_In _], Hy as [Hy%list_elem_of_In _].
        apply list_elem_of_lookup in Hx as (i & Hi), Hy as (j & Hj).
        assert (i = j) as ->; [|congruence].
        apply (NoDup_lookup _ _ _ (git.CommitID x) Hlocal);
          rewrite list_lookup_fmap; [by rewrite Hi|by rewrite Hj, Heq].
      * apply NoDup_ListNoDup, List.NoDup_filter, NoDup_ListNoDup.
        by apply NoDup_fmap_1 in Hlocal.
    + apply NoDup_ListNoDup, List.NoDup_filter, NoDup_ListNoDup.
      by apply NoDup_fmap_1 in Hprs.
    + intros pr. rewrite Hmem, list_elem_of_In, filter_In, <- list_elem_of_In.
      unfold has_ready_commit. rewrite bool_decide_eq_true. split.
      * intros (c & Hc & Hwip & Hpr).
        apply sortPullRequests_map_Some in Hpr as [Hin Hid].
        split; [done|]. rewrite Hid. apply list_elem_of_fmap. exists c.
        split; [done|]. apply list_elem_of_In, filter_In.
        split; [by apply list_elem_of_In|by rewrite Hwip].
      * intros [Hin (c & Hid & Hc)%list_elem_of_fmap].
        apply list_elem_of_In, filter_In in Hc as [Hc%list_elem_of_In Hwip].
        exists c. split; [done|]. split; [by destruct (git.WIP c)|].
        rewrite <- Hid. by apply sortPullRequests_map_NoDup.
Qed.

(** On the sample the WIP commit and its pull request are left out, and
    the pull requests come out in the order of the commits. *)
Example sortPullRequestsByLocalCommitOrder_sample :
  sortPullRequestsByLocalCommitOrder sort_prs sort_commits
  = [sort_pr "aaaaaaaa" 1; sort_pr "bbbbbbbb" 2]
  ∧ commitsReordered sort_commits sort_prs = Some true
  ∧ commitsReordered sort_commits
      (sortPullRequestsByLocalCommitOrder sort_prs sort_commits)
    = Some false
  ∧ commitsReordered [] sort_prs = None.
Proof. vm_compute. done. Qed.

(** ** Pull requests that share a commit-id *)

(** X28.  When several open pull requests are on branches of one
    commit-id, the map keeps the last one the forge listed: the entry of a
    commit-id points to the pull request built from the last node whose
    head ref yields it.  The store holds one pull request per node on a
    managed branch, so an earlier one is still there but no longer in the
    map. *)
Theorem GeneratePullRequestMap_last_wins
    (before after : list genqlient.PullRequestNode)
    (prNode : genqlient.PullRequestNode) :
  managed_node prNode = true ->
  (forall later,
     later ∈ after ->
     CommitIdFromBranch (genqlient.HeadRefName later)
     ≠ CommitIdFromBranch (genqlient.HeadRefName prNode)) ->
  List.length (GeneratePullRequestMap [] (before ++ prNode :: after)).1
  = List.length (List.filter managed_node (before ++ prNode :: after))
  ∧ exists p pr,
      (GeneratePullRequestMap [] (before ++ prNode :: after)).2
        !! CommitIdFromBranch (genqlient.HeadRefName prNode) = Some p
      ∧ (GeneratePullRequestMap [] (before ++ prNode :: after)).1 !! p
        = Some pr
      ∧ p = List.length (List.filter managed_node before)
      ∧ github.Id pr = genqlient.Id prNode
      ∧ github.Number pr = genqlient.Number prNode
      ∧ github.FromBranch pr = genqlient.HeadRefName prNode
      ∧ github.ToBranch pr = genqlient.BaseRefName prNode
      ∧ github.MergeStatus pr = ComputeMergeStatus prNode.
Proof.
  intros Hmanaged Hlast. unfold GeneratePullRequestMap. split.
  - destruct (GeneratePullRequestMap_node_heap [] ∅
                (before ++ prNode :: after)) as (ext & -> & Hlen).
    by rewrite app_nil_l.
  - rewrite fold_left_app. cbn [fold_left].
    destruct (GeneratePullRequestMap_node_heap [] ∅ before)
      as (h1 & Hh1 & Hlen1).
    destruct (fold_left GeneratePullRequestMap_node before ([], ∅))
      as [h1' m1]. cbn [fst] in Hh1. rewrite app_nil_l in Hh1. subst h1'.
    unfold GeneratePullRequestMap_node at 2 4.
    unfold managed_node in Hmanaged.
    apply negb_true_iff in Hmanaged. rewrite Hmanaged.
    cbv beta iota zeta.
    match goal with
    | |- context [fold_left _ after (?h', ?m')] =>
        destruct (GeneratePullRequestMap_node_heap h' m' after)
          as (ext & Hheap & _);
        pose proof (GeneratePullRequestMap_node_other h' m' after _ Hlast)
          as Hmap
    end.
    rewrite lookup_insert_eq in Hmap.
    eexists _, _. split; [exact Hmap|]. split.
    + rewrite Hheap, <- app_assoc. by apply list_lookup_middle.
    + by rewrite Hlen1.
Qed.

Lemma GeneratePullRequestMap_last_wins_witness :
  List.length (GeneratePullRequestMap [] shadow_nodes).1
  = List.length (List.filter managed_node shadow_nodes)
  ∧ exists p pr,
      (GeneratePullRequestMap [] shadow_nodes).2 !! "aaaaaaaa" = Some p
      ∧ (GeneratePullRequestMap [] shadow_nodes).1 !! p = Some pr
      ∧ p = 1%nat
      ∧ github.Id pr = "PR_b"
      ∧ github.Number pr = 2
      ∧ github.FromBranch pr = "spr/next/aaaaaaaa"
      ∧ github.ToBranch pr = "next"
      ∧ github.MergeStatus pr
        = github.mkMergeStatus github.CheckStatusPass true true false.
Proof.
  apply (GeneratePullRequestMap_last_wins
           [genqlient.mkNode "PR_a" 1 1 "spr/main/aaaaaaaa" "main"
              "Feature A" "" "MERGEABLE" "APPROVED"
              (genqlient.mkRollup "SUCCESS")
              [genqlient.mkCommitNode "ra" "Feature A" ""]]
           []
           (genqlient.mkNode "PR_b" 2 2 "spr/next/aaaaaaaa" "next"
              "Feature A" "" "MERGEABLE" "APPROVED"
              (genqlient.mkRollup "SUCCESS")
              [genqlient.mkCommitNode "ra" "Feature A" ""])).
  - reflexivity.
  - intros later Hlater. by apply elem_of_nil in Hlater.
Defined.

(** X29.  What state assembly and [UpdatePRSetState] leave alone in the
    configuration: the repository settings, the merge-check records and
    the PR-set maps of the other repositories.  State assembly only drops
    entries of the repository's own map, it never adds or changes one. *)
Theorem persisted_state_frame (cfg : config.Config) (repositoryId : string)
    (nodes : list genqlient.PullRequestNode) (commits : list object.Commit)
    (s : State) :
  (config.Repo (NewState cfg repositoryId nodes commits).1.2
   = config.Repo cfg
   ∧ config.MergeCheckCommit
       (config.State (NewState cfg repositoryId nodes commits).1.2)
     = config.MergeCheckCommit (config.State cfg)
   ∧ (forall other,
        other ≠ config.GitHubRepoName (config.Repo cfg) ->
        config.RepoToCommitIdToPRSet
          (config.State (NewState cfg repositoryId nodes commits).1.2)
          !! other
        = config.RepoToCommitIdToPRSet (config.State cfg) !! other)
   ∧ repoPRSetMap (NewState cfg repositoryId nodes commits).1.2
     ⊆ repoPRSetMap cfg)
  ∧ config.Repo (UpdatePRSetState s cfg) = config.Repo cfg
  ∧ config.MergeCheckCommit (config.State (UpdatePRSetState s cfg))
    = config.MergeCheckCommit (config.State cfg)
  ∧ forall other,
      other ≠ config.GitHubRepoName (config.Repo cfg) ->
      config.RepoToCommitIdToPRSet (config.State (UpdatePRSetState s cfg))
        !! other
      = config.RepoToCommitIdToPRSet (config.State cfg) !! other.
Proof.
  split.
  - rewrite NewState_config. split; [done|]. split; [done|]. split.
    + intros other Hother. unfold UpdateRepoToCommitIdToPrSet. cbn zeta.
      by apply setPRSetMap_other.
    + apply map_subseteq_spec. intros id k Hk.
      by apply UpdateRepoToCommitIdToPrSet_lookup in Hk as [? _].
  - split; [done|]. split; [done|].
    intros other Hother. unfold UpdatePRSetState. cbn zeta.
    by apply setPRSetMap_other.
Qed.

(** ** The rune count of a formatted subject *)

Section RuneCount.

Lemma first_Lead_cases (s0 : Z) (sz : nat) (lo hi : Z) :
  utf8.first s0 = utf8.Lead sz lo hi ->
  (sz = 2 ∨ sz = 3 ∨ sz = 4)%nat ∧ 128 <= lo.
Proof.
  unfold utf8.first.
  repeat match goal with
         | |- context [if ?b then _ else _] => destruct b
         end; intros [= <- <- <-]; (split; [auto|lia]).
Qed.

Lemma within_ascii (lo hi b : Z) :
  128 <= lo -> b < 128 -> utf8.within lo hi b = false.
Proof.
  intros Hlo Hb. unfold utf8.within. apply andb_false_iff. left.
  apply Z.leb_gt. lia.
Qed.

(** Bytes appended after an ASCII byte do not change what is decoded
    before it. *)
Lemma DecodeRuneInString_app_ascii (s t : string) :
  s ≠ "" -> ascii_start t ->
  utf8.DecodeRuneInString (s ++ t) = utf8.DecodeRuneInString s.
Proof.
  destruct s as [|c0 r0]; [done|]. intros _ Ht. rewrite append_cons.
  unfold utf8.DecodeRuneInString.
  destruct (utf8.first (byte_of c0)) as [| |sz lo hi] eqn:Hfirst;
    [done|done|].
  destruct (first_Lead_cases _ _ _ _ Hfirst) as [Hsz Hlo].
  assert (forall c u, t = String c u ->
            utf8.within lo hi (byte_of c) = false
            ∧ utf8.within 128 191 (byte_of c) = false) as Hascii.
  { intros c u ->. cbn in Ht. split; apply within_ascii; lia. }
  destruct r0 as [|c1 [|c2 [|c3 r3]]];
    rewrite ?append_cons, ?append_nil_l;
    destruct t as [|ct u];
    rewrite ?append_nil_r;
    try reflexivity;
    try (destruct (Hascii ct u eq_refl) as [Hw1 Hw2]);
    destruct Hsz as [->|[->| ->]];
    repeat (rewrite ?Hw1, ?Hw2;
            cbn [String.length Nat.ltb Nat.leb negb];
            try reflexivity;
            match goal with
            | |- context [if ?b then _ else _] => destruct b
            end).
Qed.

(** A rune is decoded from at least one byte and from no more bytes than
    there are. *)
Lemma DecodeRuneInString_size (s : string) :
  s ≠ "" ->
  (1 <= (utf8.DecodeRuneInString s).2 <= String.length s)%nat.
Proof.
  destruct s as [|c0 r0]; [done|]. intros _.
  unfold utf8.DecodeRuneInString.
  destruct (utf8.first (byte_of c0)) as [| |sz lo hi];
    [cbn; lia|cbn; lia|].
  destruct r0 as [|c1 [|c2 [|c3 r3]]];
    repeat (cbn [String.length snd]; try lia;
            match goal with
            | |- context [if ?b then _ else _] => destruct b
            end).
Qed.

Lemma runes_from_app (k : nat) (s t : string) :
  (k <= String.length s)%nat -> ascii_start t ->
  utf8.runes_from k (s ++ t)
  = (utf8.runes_from k s ++ utf8.runes_from 0 t)%list.
Proof.
  revert k. induction s as [|c r IH]; intros k Hk Ht.
  - cbn in Hk. assert (k = 0%nat) as -> by lia. by rewrite append_nil_l.
  - rewrite append_cons. cbn [utf8.runes_from]. destruct k as [|k].
    + rewrite <- append_cons.
      rewrite DecodeRuneInString_app_ascii by done.
      assert (String c r ≠ "") as Hne by done.
      pose proof (DecodeRuneInString_size (String c r) Hne) as Hsize.
      destruct (utf8.DecodeRuneInString (String c r)) as [rn size].
      cbn [snd String.length] in Hsize.
      rewrite IH by (done || lia). done.
    + apply IH; [cbn in Hk; lia|done].
Qed.

Lemma runes_from_ascii (c : ascii) (rest : string) :
  byte_of c < 128 ->
  utf8.runes_from 0 (String c rest) = byte_of c :: utf8.runes_from 0 rest.
Proof.
  intros Hc. cbn [utf8.runes_from]. unfold utf8.DecodeRuneInString.
  unfold utf8.first. by destruct (Z.ltb_spec (byte_of c) 128); [|lia].
Qed.

Lemma runes_from_spaces (n : nat) :
  List.length (utf8.runes_from 0 (strings_Repeat " " n)) = n.
Proof.
  induction n as [|n IH]; [done|].
  cbn [strings_Repeat]. rewrite append_cons, append_nil_l.
  rewrite runes_from_ascii by reflexivity. cbn [List.length].
  by rewrite IH.
Qed.

Lemma ascii_start_spaces (n : nat) : ascii_start (strings_Repeat " " n).
Proof.
  destruct n as [|n]; [done|].
  cbn [strings_Repeat]. rewrite append_cons, append_nil_l. reflexivity.
Qed.

(** Padding with spaces adds one rune per space, whatever the bytes
    before. *)
Lemma RuneCountInString_pad (s : string) (n : nat) :
  utf8.RuneCountInString (s ++ strings_Repeat " " n)
  = utf8.RuneCountInString s + Z.of_nat n.
Proof.
  unfold utf8.RuneCountInString, utf8.runes.
  rewrite runes_from_app by (lia || apply ascii_start_spaces).
  rewrite length_app, runes_from_spaces. lia.
Qed.

Lemma runes_from_length (k : nat) (s : string) :
  (List.length (utf8.runes_from k s) <= String.length s)%nat.
Proof.
  revert k. induction s as [|c r IH]; intros k; [done|].
  cbn [utf8.runes_from String.length]. destruct k as [|k].
  - destruct (utf8.DecodeRuneInString (String c r)) as [rn size].
    cbn [List.length]. specialize (IH (Nat.pred size)). lia.
  - specialize (IH k). lia.
Qed.

(** A rune is decoded from four bytes at most, so a string has no more
    than four bytes for each of its runes. *)
Lemma DecodeRuneInString_size_max (s : string) :
  ((utf8.DecodeRuneInString s).2 <= 4)%nat.
Proof.
  destruct s as [|c0 r0]; [cbn; lia|].
  unfold utf8.DecodeRuneInString.
  destruct (utf8.first (byte_of c0)) as [| |sz lo hi];
    [cbn; lia|cbn; lia|].
  destruct r0 as [|c1 [|c2 [|c3 r3]]];
    repeat (cbn [String.length snd]; try lia;
            match goal with
            | |- context [if ?b then _ else _] => destruct b
            end).
Qed.

Lemma runes_from_bytes (k : nat) (s : string) :
  (String.length s <= k + 4 * List.length (utf8.runes_from k s))%nat.
Proof.
  revert k. induction s as [|c r IH]; intros k; [cbn; lia|].
  cbn [utf8.runes_from String.length]. destruct k as [|k].
  - pose proof (DecodeRuneInString_size_max (String c r)) as Hmax.
    destruct (utf8.DecodeRuneInString (String c r)) as [rn size].
    cbn [List.length snd] in *. specialize (IH (Nat.pred size)). lia.
  - specialize (IH k). lia.
Qed.

Lemma runes_from_skip (s rest : string) :
  utf8.runes_from (String.length s) (s ++ rest) = utf8.runes_from 0 rest.
Proof.
  induction s as [|c r IH]; [by rewrite append_nil_l|].
  rewrite append_cons. cbn [String.length utf8.runes_from]. apply IH.
Qed.

(** The encoding of one rune is decoded as a whole whatever follows. *)
Lemma whole_rune_app (s rest : string) :
  whole_rune s = true ->
  (utf8.DecodeRuneInString (s ++ rest)).2 = String.length s.
Proof.
  destruct s as [|c0 r0]; [done|]. unfold whole_rune.
  intros [Hsize Hascii]%andb_true_iff. apply Nat.eqb_eq in Hsize.
  revert Hsize Hascii. rewrite append_cons.
  unfold utf8.DecodeRuneInString, utf8.first.
  destruct (Z.ltb_spec (byte_of c0) 128) as [Hlt|Hge].
  - cbn [snd]. intros <-. done.
  - rewrite orb_false_r.
    repeat match goal with
           | |- context [if ?b then utf8.Invalid else _] => destruct b
           | |- context [if ?b then utf8.Lead _ _ _ else _] => destruct b
           end;
      destruct r0 as [|c1 [|c2 [|c3 [|c4 r4]]]];
      rewrite ?append_cons, ?append_nil_l;
      cbn [String.length snd Nat.ltb Nat.leb];
      repeat match goal with
             | |- context [if negb ?b then _ else _] =>
                 destruct b; cbn [negb snd]
             end;
      cbn [snd]; intros Hsize Hlen; try done; try discriminate Hsize.
Qed.

Lemma holds_below_spec (p : Z -> bool) (n : N) (r : Z) :
  holds_below p n = true -> 0 <= r < Z.of_N n -> p r = true.
Proof.
  unfold holds_below. rewrite N2Nat.inj_iter.
  rewrite <- (N_nat_Z n).
  generalize (N.to_nat n). clear n. intros m. revert r.
  assert (let st := Nat.iter m
                      (fun st : Z * bool => (st.1 + 1, st.2 && p st.1))
                      (0, true) in
          st.1 = Z.of_nat m
          ∧ (st.2 = true -> forall r, 0 <= r < Z.of_nat m -> p r = true))
    as [_ Hall].
  { induction m as [|m [IH1 IH2]]; [cbn; split; [done|lia]|].
    rewrite Nat.iter_succ. cbn [fst snd]. split; [lia|].
    intros [Hok Hm]%andb_true_iff r Hr.
    destruct (decide (r = Z.of_nat m)) as [->|Hne].
    - by rewrite <- IH1.
    - apply IH2; [done|lia]. }
  intros r Hok Hr. by apply Hall.
Qed.

(** The runes of at most 16 bits, each of them encoded, are whole
    runes. *)
Lemma EncodeRune_whole_rune_below :
  holds_below (fun r => whole_rune (utf8.EncodeRune r)) 65536 = true.
Proof. vm_compute. reflexivity. Qed.

Lemma lead4_ok_below : holds_below lead4_ok 272 = true.
Proof. vm_compute. reflexivity. Qed.

Lemma continuation_ok_below : holds_below continuation_ok 64 = true.
Proof. vm_compute. reflexivity. Qed.

Lemma continuation_ok_land (a : Z) : continuation_ok (Z.land a 63) = true.
Proof.
  apply (holds_below_spec _ _ _ continuation_ok_below).
  change 63 with (Z.ones 6). rewrite Z.land_ones by lia.
  change (Z.of_N 64) with (2 ^ 6). apply Z.mod_pos_bound. lia.
Qed.

(** The runes of more than 16 bits: the four bytes of the encoding are a
    lead byte, a second byte in the range of the lead byte, and two
    continuation bytes. *)
Lemma EncodeRune_whole_rune_4 (r : Z) :
  65536 <= r <= 1114111 -> whole_rune (utf8.EncodeRune r) = true.
Proof.
  intros Hr. unfold utf8.EncodeRune, utf8.MaxRune, utf8.within.
  destruct (Z.leb_spec 0 r); [|lia].
  destruct (Z.leb_spec r 127); [lia|].
  destruct (Z.leb_spec r 2047); [lia|].
  destruct (Z.ltb_spec r 0); [lia|].
  destruct (Z.ltb_spec 1114111 r); [lia|].
  destruct (Z.leb_spec r 57343); [lia|].
  destruct (Z.leb_spec r 65535); [lia|].
  rewrite !andb_false_r. cbn [andb orb].
  assert (16 <= Z.shiftr r 12 < 272) as Hq.
  { rewrite Z.shiftr_div_pow2 by lia. change (2 ^ 12) with 4096.
    split.
    - apply Z.div_le_lower_bound; lia.
    - apply Z.div_lt_upper_bound; lia. }
  pose proof (holds_below_spec _ _ (Z.shiftr r 12) lead4_ok_below) as Hlead.
  unfold lead4_ok in Hlead.
  rewrite Z.shiftr_shiftr in Hlead by lia. change (12 + 6) with 18 in Hlead.
  destruct (Z.ltb_spec (Z.shiftr r 12) 16) as [?|_]; [lia|].
  cbn [orb] in Hlead.
  pose proof (continuation_ok_land (Z.shiftr r 6)) as Hc2.
  pose proof (continuation_ok_land r) as Hc3.
  unfold continuation_ok in Hc2, Hc3.
  unfold whole_rune, utf8.bytes. cbn [fold_right].
  unfold utf8.DecodeRuneInString.
  destruct (utf8.first (byte_of (char_of (Z.lor 240 (Z.shiftr r 18)))))
    as [| |sz lo hi]; [by specialize (Hlead ltac:(lia))..|].
  specialize (Hlead ltac:(lia)).
  apply andb_true_iff in Hlead as [->%Nat.eqb_eq Hc1].
  cbv zeta. rewrite Hc1, Hc2, Hc3. reflexivity.
Qed.

(** Every rune, encoded, is one whole rune again. *)
Lemma EncodeRune_whole_rune (r : Z) : whole_rune (utf8.EncodeRune r) = true.
Proof.
  destruct (decide (0 <= r < 65536)) as [Hr|Hr].
  - apply (holds_below_spec _ _ r EncodeRune_whole_rune_below). lia.
  - destruct (decide (65536 <= r <= 1114111)) as [Hr4|Hr4];
      [by apply EncodeRune_whole_rune_4|].
    assert (utf8.EncodeRune r = utf8.EncodeRune utf8.RuneError) as ->.
    { unfold utf8.EncodeRune at 1, utf8.MaxRune.
      destruct (Z.leb_spec 0 r); cbn [andb orb].
      - destruct (Z.leb_spec r 127); [lia|].
        destruct (Z.leb_spec r 2047); [lia|].
        destruct (Z.ltb_spec r 0); [lia|].
        destruct (Z.ltb_spec 1114111 r); [done|lia].
      - destruct (Z.ltb_spec r 0); [done|lia]. }
    apply (holds_below_spec _ _ utf8.RuneError EncodeRune_whole_rune_below).
    unfold utf8.RuneError. lia.
Qed.

Lemma runes_from_EncodeRune (r : Z) (rest : string) :
  List.length (utf8.runes_from 0 (utf8.EncodeRune r ++ rest))
  = S (List.length (utf8.runes_from 0 rest)).
Proof.
  pose proof (EncodeRune_whole_rune r) as Hwhole.
  pose proof (whole_rune_app _ rest Hwhole) as Hsize.
  destruct (utf8.EncodeRune r) as [|c tail]; [done|].
  rewrite append_cons in Hsize |- *. cbn [utf8.runes_from].
  destruct (utf8.DecodeRuneInString (String c (tail ++ rest)))
    as [rn size].
  cbn [snd String.length] in Hsize. subst size.
  cbn [Nat.pred List.length]. by rewrite runes_from_skip.
Qed.

Lemma runes_from_encode_runes (rs : list Z) (rest : string) :
  List.length (utf8.runes_from 0 (encode_runes rs ++ rest))
  = (List.length rs + List.length (utf8.runes_from 0 rest))%nat.
Proof.
  induction rs as [|r rs IH]; [by rewrite append_nil_l|].
  cbn [encode_runes fold_right List.length].
  fold (encode_runes rs).
  by rewrite append_assoc, runes_from_EncodeRune, IH.
Qed.

(** The truncation loop appends the encodings of the runes up to the one
    that makes the count reach [maxLength]. *)
Lemma FormatSubject_loop_spec (maxLength : Z) (rs : list Z)
    (truncated : string) (count : Z) :
  count < maxLength ->
  FormatSubject_loop maxLength rs truncated count
  = truncated ++ encode_runes (take (Z.to_nat (maxLength - count)) rs).
Proof.
  revert truncated count.
  induction rs as [|r rs IH]; intros truncated count Hcount.
  - cbn. by rewrite take_nil, append_nil_r.
  - cbn [FormatSubject_loop].
    assert (Z.to_nat (maxLength - count)
            = S (Z.to_nat (maxLength - (count + 1)))) as -> by lia.
    cbn [take encode_runes fold_right].
    fold (encode_runes (take (Z.to_nat (maxLength - (count + 1))) rs)).
    destruct (Z.eqb_spec (count + 1) maxLength) as [Heq|Hne].
    + rewrite Heq, Z.sub_diag. cbn [Z.to_nat]. rewrite take_0.
      cbn [encode_runes fold_right]. by rewrite append_nil_r.
    + rewrite IH by lia. by rewrite append_assoc.
Qed.

End RuneCount.

(** X30.  The rune count of a formatted subject, for every byte string: a
    subject of more than 50 runes comes out with exactly 50, and a subject
    of at most 50 runes comes out with its own runes and one more for each
    byte it is short of 50 bytes.  So the column never exceeds 50 runes,
    and for a subject of at most 50 runes it is short of 50 by the
    difference between the bytes of the subject, counted up to 50, and its
    runes. *)
Theorem FormatSubject_rune_count (subject : string) :
  utf8.RuneCountInString (FormatSubject subject)
  = (if utf8.RuneCountInString subject <=? 50
     then utf8.RuneCountInString subject + Z.max 0 (50 - len subject)
     else 50)
  ∧ utf8.RuneCountInString (FormatSubject subject) <= 50
  ∧ (utf8.RuneCountInString subject <= 50 ->
     50 - utf8.RuneCountInString (FormatSubject subject)
     = Z.min (len subject) 50 - utf8.RuneCountInString subject).
Proof.
  assert (utf8.RuneCountInString subject <= len subject) as Hbytes.
  { unfold utf8.RuneCountInString, utf8.runes, len.
    pose proof (runes_from_length 0 subject). lia. }
  assert (len subject <= 4 * utf8.RuneCountInString subject) as Hrunes.
  { unfold utf8.RuneCountInString, utf8.runes, len.
    pose proof (runes_from_bytes 0 subject). lia. }
  assert (utf8.RuneCountInString (FormatSubject subject)
          = if utf8.RuneCountInString subject <=? 50
            then utf8.RuneCountInString subject + Z.max 0 (50 - len subject)
            else 50) as Hcount.
  { unfold FormatSubject. cbn zeta.
    destruct (Z.leb_spec (utf8.RuneCountInString subject) 50) as [Hle|Hgt].
    - unfold padNumber. cbn zeta. rewrite wrap64_small by lia.
      destruct (Z.ltb_spec 0 (50 - len subject)) as [Hpad|Hpad].
      + rewrite RuneCountInString_pad. lia.
      + lia.
    - rewrite FormatSubject_loop_spec by lia.
      rewrite append_nil_l. unfold utf8.RuneCountInString at 1, utf8.runes.
      rewrite runes_from_encode_runes, length_take.
      unfold utf8.RuneCountInString, utf8.runes in Hgt.
      change (List.length (utf8.runes_from 0 " ...")) with 4%nat.
      lia. }
  split; [done|]. rewrite Hcount.
  destruct (Z.leb_spec (utf8.RuneCountInString subject) 50); lia.
Qed.
